(** * Gitaly core: internal reference cleaner, object pool fetch, merge

    A shallow embedding of
    - [internalrefs]: [Cleaner], [ApplyObjectMap], [processEntry]
      (src/unnamed/part_001, package internalrefs),
    - [objectpool]: [FetchFromOrigin], [rescueDanglingObjects], [repackPool]
      (src/unnamed/part_001, package objectpool),
    - [git2go]: the merge command exercised by the tests of
      src/unnamed/part_000,
    together with the reference transaction updater they share. *)

From Stdlib Require Import ZArith String Ascii List Bool Lia DecimalString DecimalZ DecimalPos.
From stdpp Require Import base option list gmap strings sorting.
Import ListNotations.

Local Open Scope string_scope.
Local Open Scope Z_scope.
Local Open Scope list_scope.

(** ** Go values *)

(** A Go [string] is a sequence of bytes; [len] counts bytes. *)
Definition len (s : string) : Z := Z.of_nat (String.length s).

(** [int64] arithmetic wraps around. *)
Definition int64_wrap (z : Z) : Z := (z + 2 ^ 63) mod 2 ^ 64 - 2 ^ 63.

(** [i++] on an [int64]. *)
Definition int64_incr (i : Z) : Z := int64_wrap (i + 1).

(** [cut sep s] splits [s] around the first occurrence of the byte [sep]. *)
Fixpoint cut (sep : ascii) (s : string) : option (string * string) :=
  match s with
  | EmptyString => None
  | String c s' =>
      if Ascii.eqb c sep then Some (EmptyString, s')
      else match cut sep s' with
           | Some (a, b) => Some (String c a, b)
           | None => None
           end
  end.

(** [strings.SplitN(s, sep, n)] for a one-byte separator and [n >= 0]: at most
    [n] substrings, the last one being the unsplit remainder; [n = 0] gives
    the nil slice. *)
Fixpoint SplitN (s : string) (sep : ascii) (n : nat) : list string :=
  match n with
  | O => []
  | S O => [s]
  | S n' =>
      match cut sep s with
      | None => [s]
      | Some (a, b) => a :: SplitN b sep n'
      end
  end.

(** Whether the byte [c] occurs in [s]. *)
Fixpoint hasByte (c : ascii) (s : string) : bool :=
  match s with
  | EmptyString => false
  | String c' s' => Ascii.eqb c' c || hasByte c s'
  end.

(** [fmt.Sprintf("%d", i)]. *)
Definition itoa (i : Z) : string := NilZero.string_of_int (Z.to_int i).

(** ** bufio: scanning lines *)

Module bufio.

(** [bufio.MaxScanTokenSize] *)
Definition MaxScanTokenSize : Z := 64 * 1024.

(** [bufio.ErrTooLong] *)
Definition ErrTooLong : string := "bufio.Scanner: token too long".

(** What a [bufio.Scanner] with the default split function [bufio.ScanLines]
    makes of its input: the successive values of [scanner.Text()] for which
    [scanner.Scan()] returns true, and the value of [scanner.Err()] once
    [Scan] has returned false. *)
Record Scanner : Type := mkScanner {
  Text : list string;
  Err : option string
}.

(** [dropCR] of [bufio.ScanLines], on the bytes of a line in reverse. *)
Definition dropCR (line : list ascii) : list ascii :=
  match line with
  | "013"%char :: rest => rest
  | _ => line
  end.

(** The line whose bytes, in reverse, are [line]. *)
Definition token (line : list ascii) : string :=
  string_of_list_ascii (List.rev (dropCR line)).

(** Scanning [data], with the [n] bytes [line] of the current line read so
    far (in reverse): a line ends at a line feed; a last line without line
    feed is delivered if it is not empty; a line that fills the buffer of
    [MaxScanTokenSize] bytes without its line feed ends the scan with
    [ErrTooLong]. *)
Fixpoint scan (data : string) (line : list ascii) (n : Z) : list string * option string :=
  match data with
  | EmptyString =>
      match line with
      | [] => ([], None)
      | _ => ([token line], None)
      end
  | String c rest =>
      if Ascii.eqb c "010" then
        let '(tokens, err) := scan rest [] 0 in (token line :: tokens, err)
      else if MaxScanTokenSize <=? n + 1 then ([], Some ErrTooLong)
      else scan rest (c :: line) (n + 1)
  end.

(** [bufio.NewScanner(reader)] for a reader that delivers [data] and then
    the end of the file. *)
Definition NewScanner (data : string) : Scanner :=
  let '(tokens, err) := scan data [] 0 in {| Text := tokens; Err := err |}.

End bufio.

(** ** Results and the state-and-error monad

    Go functions returning [error] are functions from the state of the world
    to an outcome and a new state; the state reached when an error is
    returned is kept, since effects performed before the failure persist. *)

Inductive result (E A : Type) : Type :=
| Ok (a : A)
| Err (e : E).
Arguments Ok {E A} a.
Arguments Err {E A} e.

Definition M (S E A : Type) : Type := S -> result E A * S.

Definition ret {S E A} (a : A) : M S E A := fun s => (Ok a, s).

Definition fail {S E A} (e : E) : M S E A := fun s => (Err e, s).

Definition bind {S E A B} (m : M S E A) (k : A -> M S E B) : M S E B :=
  fun s =>
    match m s with
    | (Ok a, s') => k a s'
    | (Err e, s') => (Err e, s')
    end.

Definition gets {S E A} (f : S -> A) : M S E A := fun s => (Ok (f s), s).

Definition modify {S E} (f : S -> S) : M S E unit := fun s => (Ok tt, f s).

Declare Scope go_scope.
Delimit Scope go_scope with go.
Notation "x <- m ;; k" := (bind m (fun x => k))
  (at level 100, m at next level, right associativity) : go_scope.
Notation "m ;;; k" := (bind m (fun _ => k))
  (at level 100, right associativity) : go_scope.

(** [for _, x := range xs { if err := f(x); err != nil { return err } }] *)
Fixpoint forEachM {S E A} (f : A -> M S E unit) (xs : list A) : M S E unit :=
  match xs with
  | [] => ret tt
  | x :: xs' => (f x ;;; forEachM f xs')%go
  end.

(** The Go [error] returned by a function of result type [unit]. *)
Definition error_of {E} (r : result E unit) : option E :=
  match r with
  | Ok _ => None
  | Err e => Some e
  end.

(** ** git: references *)

Abbreviation ObjectID := string (only parsing).
Abbreviation ReferenceName := string (only parsing).

(** The references of a repository: reference name to object ID. *)
Abbreviation RefStore := (gmap string string) (only parsing).

(** ** updateref: the reference transaction updater *)

Module updateref.

(** Modelled from the spec: package internal/git/updateref is not among the
    sources.  A staged reference operation of a RefTransaction: create,
    update or delete, keyed by reference name. *)
Inductive Op : Type :=
| OpCreate (name : ReferenceName) (oid : ObjectID)
| OpUpdate (name : ReferenceName) (oldOID newOID : ObjectID)
| OpDelete (name : ReferenceName).

(** Modelled from the spec: the updater's state machine of package
    internal/git/updateref, [Open] (accepting staged operations), then
    [Committed] or [Failed], both terminal. *)
Inductive State : Type := Open | Committed | Failed.

(** Modelled from the spec: the error kinds of package
    internal/git/updateref: an operation on an updater in a terminal state,
    ReferenceUpdateFailure (a staged operation rejected by the store) and
    TransactionHookFailure (the commit-time hook rejected the batch). *)
Inductive error : Type :=
| ErrTerminal
| ErrReferenceUpdate (op : Op)
| ErrTransactionHook.

(** Modelled from the spec: the [Updater] of package internal/git/updateref:
    its state, the ordered pending operations, and whether it was built with
    [WithDisabledTransactions]. *)
Record Updater : Type := mkUpdater {
  state : State;
  staged : list Op;
  disabledTransactions : bool
}.

(** Modelled from the spec: the collaborators behind [Commit], outside the
    core: which operations the underlying reference store rejects (such as
    a stale expected old value on [OpUpdate]), and the vote of the
    reference-transaction hook on a batch. *)
Class Backend : Type := {
  accepts : RefStore -> Op -> bool;
  hook : list Op -> bool
}.

(** Modelled from the spec: [New(ctx, repository, options...)] of package
    internal/git/updateref; the only option is [WithDisabledTransactions]. *)
Definition New (withDisabledTransactions : bool) : Updater :=
  {| state := Open; staged := []; disabledTransactions := withDisabledTransactions |}.

(** Modelled from the spec: staging of package internal/git/updateref does
    no I/O and appends to the pending operations; no operation is permitted
    once a terminal state is reached. *)
Definition stage (op : Op) (u : Updater) : result error Updater :=
  match state u with
  | Open => Ok {| state := Open; staged := staged u ++ [op];
                  disabledTransactions := disabledTransactions u |}
  | _ => Err ErrTerminal
  end.

(** Modelled from the spec: [Create(name, oid)] of the absent updateref
    package stages a creation. *)
Definition Create (name : ReferenceName) (oid : ObjectID) : Updater -> result error Updater :=
  stage (OpCreate name oid).

(** Modelled from the spec: [Update(name, oldOid, newOid)] of the absent
    updateref package stages an update. *)
Definition Update (name : ReferenceName) (oldOID newOID : ObjectID) : Updater -> result error Updater :=
  stage (OpUpdate name oldOID newOID).

(** Modelled from the spec: [Delete(name)] of the absent updateref package
    stages a deletion. *)
Definition Delete (name : ReferenceName) : Updater -> result error Updater :=
  stage (OpDelete name).

(** Modelled from the spec: the effect of one operation of a committed batch
    of the absent updateref package on the reference store. *)
Definition apply (st : gmap string string) (op : Op) : gmap string string :=
  match op with
  | OpCreate name oid => <[name := oid]> st
  | OpUpdate name _ newOID => <[name := newOID]> st
  | OpDelete name => delete name st
  end.

(** Modelled from the spec: a batch of the absent updateref package is
    applied in staging order, so the last write for a name wins. *)
Definition applyAll (st : gmap string string) (ops : list Op) : gmap string string :=
  fold_left apply ops st.

(** Modelled from the spec: [Commit()] of the absent updateref package.  In
    state [Open] an empty transaction is a no-op success; otherwise, if the
    store rejects any single operation the whole batch fails and no
    reference changes, else the hook is invoked once for the whole batch
    unless transactions are disabled, and the batch is applied.  Both
    outcomes are terminal; in a terminal state nothing is permitted. *)
Definition Commit `{Backend} (u : Updater) (st : gmap string string)
  : result error unit * Updater * gmap string string :=
  let closed s := {| state := s; staged := staged u;
                     disabledTransactions := disabledTransactions u |} in
  match state u with
  | Open =>
      match staged u with
      | [] => (Ok tt, closed Committed, st)
      | _ =>
          match find (fun op => negb (accepts st op)) (staged u) with
          | Some op => (Err (ErrReferenceUpdate op), closed Failed, st)
          | None =>
              if disabledTransactions u || hook (staged u)
              then (Ok tt, closed Committed, applyAll st (staged u))
              else (Err ErrTransactionHook, closed Failed, st)
          end
      end
  | _ => (Err ErrTerminal, u, st)
  end.

End updateref.

(** ** internalrefs: the internal reference cleaner *)

Module internalrefs.

(** What [ApplyObjectMap] can return: [ErrInvalidObjectMap] wraps the
    message built by [fmt.Errorf]; the others are the errors of the
    [ForEachFunc] and of the updater, passed through. *)
Inductive error : Type :=
| ErrInvalidObjectMap (msg : string)
| ErrForEach (msg : string)
| ErrUpdater (e : updateref.error).

(** [fmt.Errorf("object map invalid at line %d", i)] *)
Definition invalidAtLine (i : Z) : string :=
  "object map invalid at line " +:+ itoa i.

(** The observable steps of a cleaning run, in order: a call of the
    [ForEachFunc] with its arguments and the error it returned, a call of
    [c.updater.Delete], a call of [c.updater.Commit]. *)
Inductive Event : Type :=
| EvForEach (oldOID newOID : string) (isInternalRef : bool) (err : option string)
| EvDelete (ref : ReferenceName)
| EvCommit.

Section Cleaner.
(** The state captured by the [ForEachFunc] closure. *)
Context {CB : Type}.
Context `{updateref.Backend}.

(** [type ForEachFunc func(ctx, oldOID, newOID string, isInternalRef bool) error] *)
Definition ForEachFunc : Type := string -> string -> bool -> CB -> option string * CB.

(** [type Cleaner struct]: [forEach] may be nil; [table] maps a SHA to
    reference names; the [*updateref.Updater] field points to the cell
    [updater] of the [World]. *)
Record Cleaner : Type := mkCleaner {
  forEach : option ForEachFunc;
  table : gmap string (list string)
}.

(** What a run reads and writes: the references of the repository, the
    updater the cleaner points to, the state of the callback, and the
    steps taken so far, oldest first. *)
Record World : Type := mkWorld {
  refs : gmap string string;
  updater : updateref.Updater;
  cb : CB;
  log : list Event
}.

Definition emit (ev : Event) (w : World) : World :=
  {| refs := refs w; updater := updater w; cb := cb w; log := log w ++ [ev] |}.

(** [c.forEach(ctx, oldOID, newOID, isPresent)] *)
Definition callForEach (f : ForEachFunc) (oldOID newOID : string) (isPresent : bool)
  : M World error unit :=
  fun w =>
    let '(r, cb') := f oldOID newOID isPresent (cb w) in
    let w' := {| refs := refs w; updater := updater w; cb := cb';
                 log := log w ++ [EvForEach oldOID newOID isPresent r] |} in
    match r with
    | Some msg => (Err (ErrForEach msg), w')
    | None => (Ok tt, w')
    end.

(** [c.updater.Delete(ref)] *)
Definition updaterDelete (ref : ReferenceName) : M World error unit :=
  fun w =>
    let w' := emit (EvDelete ref) w in
    match updateref.Delete ref (updater w) with
    | Ok u' => (Ok tt, {| refs := refs w'; updater := u'; cb := cb w'; log := log w' |})
    | Err e => (Err (ErrUpdater e), w')
    end.

(** [c.updater.Commit()] *)
Definition updaterCommit : M World error unit :=
  fun w =>
    let w' := emit EvCommit w in
    let '(r, u', refs') := updateref.Commit (updater w) (refs w) in
    let w'' := {| refs := refs'; updater := u'; cb := cb w'; log := log w' |} in
    match r with
    | Ok _ => (Ok tt, w'')
    | Err e => (Err (ErrUpdater e), w'')
    end.

(** [func (c *Cleaner) processEntry(ctx, oldSHA, newSHA string) error] *)
Definition processEntry (c : Cleaner) (oldSHA newSHA : string) : M World error unit :=
  let refs := default [] (table c !! oldSHA) in
  let isPresent := bool_decide (is_Some (table c !! oldSHA)) in
  (match forEach c with
   | Some f => callForEach f oldSHA newSHA isPresent
   | None => ret tt
   end ;;;
   if negb isPresent then ret tt
   else forEachM updaterDelete refs)%go.

Definition filterRepoCommitMapHeader : string :=
  "old                                      new".

(** The body of the loop of [ApplyObjectMap] for the line [line] and the
    counter value [i]; a [continue] is a normal return. *)
Definition applyLine (c : Cleaner) (i : Z) (line : string) : M World error unit :=
  if String.eqb line filterRepoCommitMapHeader then ret tt
  else
    match SplitN line " "%char 2 with
    | [sha0; sha1] =>
        if negb (len sha0 =? 40) || negb (len sha1 =? 40)
        then fail (ErrInvalidObjectMap (invalidAtLine i))
        else if String.eqb sha0 sha1 then ret tt
        else processEntry c sha0 sha1
    | _ => fail (ErrInvalidObjectMap (invalidAtLine i))
    end.

(** [for i := int64(0); scanner.Scan(); i++ { ... }] from the counter value
    [i] on; [lines] are the successive values of [scanner.Text()]. *)
Fixpoint scanLoop (c : Cleaner) (i : Z) (lines : list string) : M World error unit :=
  match lines with
  | [] => ret tt
  | line :: rest => (applyLine c i line ;;; scanLoop c (int64_incr i) rest)%go
  end.

(** [func (c *Cleaner) ApplyObjectMap(ctx, reader io.Reader) error], given
    the scanner that [bufio.NewScanner(reader)] is; [scanner.Err()] is never
    consulted. *)
Definition ApplyObjectMap (c : Cleaner) (scanner : bufio.Scanner) : M World error unit :=
  (scanLoop c 0 (bufio.Text scanner) ;;; updaterCommit)%go.

End Cleaner.
Arguments Cleaner CB : clear implicits.
Arguments World CB : clear implicits.
Arguments ForEachFunc CB : clear implicits.

End internalrefs.


(** ** objectpool: fetching into a pool repository *)

Module objectpool.

(** [git.Option]: [git.Flag{Name}] and [git.ValueFlag{Name, Value}]. *)
Inductive Option : Type :=
| Flag (Name : string)
| ValueFlag (Name Value : string).

(** [git.SubCmd{Name, Flags, Args}] *)
Record SubCmd : Type := mkSubCmd {
  Name : string;
  Flags : list Option;
  Args : list string
}.

(** [git.ConfigPair{Key, Value}] *)
Record ConfigPair : Type := mkConfigPair {
  Key : string;
  Value : string
}.

(** [git.CmdOpt], as far as this package uses it: [git.WithRefTxHook(repo)],
    [git.WithStderr(&buf)], [git.WithConfig(config...)]. *)
Inductive CmdOpt : Type :=
| WithRefTxHook
| WithStderr
| WithConfig (config : list ConfigPair).

(** What one Git invocation did, as its caller can observe it: the error of
    starting the process, the lines a [bufio.Scanner] reads from its standard
    output and the error the scanner ends with, the text written to its
    standard error, and the error of [Wait]. *)
Record Outcome : Type := mkOutcome {
  startErr : option string;
  stdout : list string;
  scanErr : option string;
  stderr : string;
  waitErr : option string
}.

(** What [FetchFromOrigin] can return.  [ErrCollab] is an error of a
    collaborator passed through as it is; [ErrInternalf] is
    [helper.ErrInternalf("fetch into object pool: %w, stderr: %q", err, text)];
    [ErrFsck] is [fmt.Errorf("git fsck: %v", err)]. *)
Inductive error : Type :=
| ErrCollab (err : string)
| ErrInternalf (err : string) (text : string)
| ErrFsck (err : string)
| ErrUpdater (e : updateref.error).

(** The observable steps of a fetch, in order; a Git invocation is noted
    with what it did. *)
Inductive Event : Type :=
| EvInit
| EvCleanStaleData
| EvLogStats (when : string)
| EvExec (cmd : SubCmd) (opts : list CmdOpt) (out : Outcome)
| EvCreate (ref : ReferenceName) (oid : ObjectID)
| EvCommit (disabledTransactions : bool) (ops : list updateref.Op).

Section Pool.
(** The state of everything outside the references of the pool: its objects,
    the file system, the origin repository. *)
Context {X : Type}.
Context `{updateref.Backend}.

(** The collaborators of the pool, each acting on the references of the pool
    and on the rest of the world: running a Git command in the pool
    ([o.Repo.Exec] and [o.Repo.ExecAndWait]), [o.Init],
    [o.housekeepingManager.CleanStaleData], [o.logStats], whose
    measurements are diagnostic and are left unconstrained here, and the
    error, if any, with which [updateref.New] refuses to create an updater
    on the pool. *)
Class Collaborators : Type := {
  git : SubCmd -> list CmdOpt -> gmap string string * X -> Outcome * (gmap string string * X);
  poolInit : gmap string string * X -> option string * (gmap string string * X);
  cleanStaleData : gmap string string * X -> option string * (gmap string string * X);
  stats : string -> gmap string string * X -> option string * (gmap string string * X);
  updaterErr : gmap string string * X -> option string
}.
Context `{Collaborators}.

Record World : Type := mkWorld {
  refs : gmap string string;
  ext : X;
  log : list Event
}.

(** A collaborator step that returns an [error]. *)
Definition collab (ev : Event)
    (f : gmap string string * X -> option string * (gmap string string * X))
  : M World error unit :=
  fun w =>
    let '(r, (refs', ext')) := f (refs w, ext w) in
    let w' := {| refs := refs'; ext := ext'; log := log w ++ [ev] |} in
    match r with
    | Some e => (Err (ErrCollab e), w')
    | None => (Ok tt, w')
    end.

(** [o.Init(ctx)] *)
Definition Init : M World error unit := collab EvInit poolInit.

(** [o.housekeepingManager.CleanStaleData(ctx, o.Repo)] *)
Definition CleanStaleData : M World error unit := collab EvCleanStaleData cleanStaleData.

(** [o.logStats(ctx, when)] *)
Definition logStats (when : string) : M World error unit := collab (EvLogStats when) (stats when).

(** [o.Repo.Exec(ctx, cmd, opts...)]: the command handle, or the error of
    starting the command. *)
Definition Exec (cmd : SubCmd) (opts : list CmdOpt) : M World error Outcome :=
  fun w =>
    let '(out, (refs', ext')) := git cmd opts (refs w, ext w) in
    let w' := {| refs := refs'; ext := ext'; log := log w ++ [EvExec cmd opts out] |} in
    match startErr out with
    | Some e => (Err (ErrCollab e), w')
    | None => (Ok out, w')
    end.

(** [o.Repo.ExecAndWait(ctx, cmd, opts...)]: its error, and what it wrote to
    the buffer handed over with [git.WithStderr], if any. *)
Definition ExecAndWait (cmd : SubCmd) (opts : list CmdOpt) : World -> (option string * string) * World :=
  fun w =>
    let '(out, (refs', ext')) := git cmd opts (refs w, ext w) in
    let w' := {| refs := refs'; ext := ext'; log := log w ++ [EvExec cmd opts out] |} in
    let err := match startErr out with
               | Some e => Some e
               | None => waitErr out
               end in
    let buf := if existsb (fun o => match o with WithStderr => true | _ => false end) opts
               then stderr out else "" in
    ((err, buf), w').

Definition sourceRefNamespace : string := "refs/remotes/origin".

Definition danglingObjectNamespace : string := "refs/dangling/".

Definition fsckCmd : SubCmd :=
  {| Name := "fsck"; Flags := [Flag "--connectivity-only"; Flag "--dangling"]; Args := [] |}.

(** The loop of [rescueDanglingObjects] over the lines of [git fsck]. *)
Fixpoint stageDangling (lines : list string) (updater : updateref.Updater)
  : M World error updateref.Updater :=
  match lines with
  | [] => ret updater
  | line :: rest =>
      match SplitN line " "%char 3 with
      | [s0; _; s2] =>
          if negb (String.eqb s0 "dangling") then stageDangling rest updater
          else
            let ref := danglingObjectNamespace +:+ s2 in
            (fun w =>
               let w' := {| refs := refs w; ext := ext w; log := log w ++ [EvCreate ref s2] |} in
               match updateref.Create ref s2 updater with
               | Ok updater' => stageDangling rest updater' w'
               | Err e => (Err (ErrUpdater e), w')
               end)
      | _ => stageDangling rest updater
      end
  end.

(** [updater.Commit()] on the references of the pool. *)
Definition commit (updater : updateref.Updater) : M World error unit :=
  fun w =>
    let '(r, _, refs') := updateref.Commit updater (refs w) in
    let w' := {| refs := refs'; ext := ext w;
                 log := log w ++ [EvCommit (updateref.disabledTransactions updater)
                                           (updateref.staged updater)] |} in
    match r with
    | Ok _ => (Ok tt, w')
    | Err e => (Err (ErrUpdater e), w')
    end.

(** [updateref.New(ctx, o.Repo, updateref.WithDisabledTransactions())]: the
    updater, or the error of creating it. *)
Definition newUpdater : M World error updateref.Updater :=
  fun w =>
    match updaterErr (refs w, ext w) with
    | Some e => (Err (ErrCollab e), w)
    | None => (Ok (updateref.New true), w)
    end.

(** [func (o *ObjectPool) rescueDanglingObjects(ctx) error] *)
Definition rescueDanglingObjects : M World error unit :=
  (fsck <- Exec fsckCmd [] ;;
   updater <- newUpdater ;;
   updater <- stageDangling (stdout fsck) updater ;;
   match scanErr fsck with
   | Some e => fail (ErrCollab e)
   | None =>
       match waitErr fsck with
       | Some e => fail (ErrFsck e)
       | None => commit updater
       end
   end)%go.

Definition repackCmd : SubCmd :=
  {| Name := "repack"; Flags := [Flag "-aidb"; Flag "-n"]; Args := [] |}.

Definition repackConfig : list ConfigPair :=
  [ {| Key := "pack.island"; Value := sourceRefNamespace +:+ "/he(a)ds" |};
    {| Key := "pack.island"; Value := sourceRefNamespace +:+ "/t(a)gs" |};
    {| Key := "pack.islandCore"; Value := "a" |};
    {| Key := "pack.writeBitmapHashCache"; Value := "true" |} ].

(** [func (o *ObjectPool) repackPool(ctx, pool) error] *)
Definition repackPool : M World error unit :=
  fun w =>
    match ExecAndWait repackCmd [WithConfig repackConfig] w with
    | ((Some err, _), w') => (Err (ErrCollab err), w')
    | ((None, _), w') => (Ok tt, w')
    end.

(** The fetch command of [FetchFromOrigin]; [refSpec] is
    [fmt.Sprintf("+refs/*:%s/*", sourceRefNamespace)]. *)
Definition fetchCmd (originPath : string) : SubCmd :=
  let refSpec := "+refs/*:" +:+ sourceRefNamespace +:+ "/*" in
  {| Name := "fetch";
     Flags := [Flag "--quiet"; Flag "--atomic"; Flag "--no-tags"; Flag "--no-write-fetch-head"];
     Args := [originPath; refSpec] |}.

Definition packRefsCmd : SubCmd :=
  {| Name := "pack-refs"; Flags := [Flag "--all"]; Args := [] |}.

(** The fetch statement of [FetchFromOrigin]: [o.Repo.ExecAndWait] of the
    fetch command with [git.WithRefTxHook(o.Repo)] and
    [git.WithStderr(&stderr)], its error wrapped by [helper.ErrInternalf]
    together with [stderr.String()]. *)
Definition fetch (originPath : string) : M World error unit :=
  fun w =>
    match ExecAndWait (fetchCmd originPath) [WithRefTxHook; WithStderr] w with
    | ((Some err, text), w') => (Err (ErrInternalf err text), w')
    | ((None, _), w') => (Ok tt, w')
    end.

(** The pack-refs statement of [FetchFromOrigin]. *)
Definition packRefs : M World error unit :=
  fun w =>
    match ExecAndWait packRefsCmd [] w with
    | ((Some err, _), w') => (Err (ErrCollab err), w')
    | ((None, _), w') => (Ok tt, w')
    end.

(** [func (o *ObjectPool) FetchFromOrigin(ctx, origin) error]; [origin] is
    given by what [origin.Path()] returns. *)
Definition FetchFromOrigin (origin : result string string) : M World error unit :=
  (Init ;;;
   originPath <- match origin with
                 | Ok path => ret path
                 | Err e => fail (ErrCollab e)
                 end ;;
   CleanStaleData ;;;
   logStats "before fetch" ;;;
   fetch originPath ;;;
   rescueDanglingObjects ;;;
   logStats "after fetch" ;;;
   packRefs ;;;
   repackPool)%go.

End Pool.
Arguments Collaborators X : clear implicits.
Arguments World X : clear implicits.

End objectpool.

(** ** git2go: the merge command *)

Module git2go.

(** Modelled from the spec: package internal/git2go is not among the sources
    (only the tests of its merge command are).  A [time.Time], of which the
    merge only asks whether it is the zero value. *)
Inductive Time : Type :=
| ZeroTime
| Date (unix : Z) (offset : Z).

(** Modelled from the spec: [t.IsZero()] on the dates of the absent merge
    command. *)
Definition IsZero (t : Time) : bool :=
  match t with
  | ZeroTime => true
  | Date _ _ => false
  end.

(** Modelled from the spec: the [MergeCommand] of the absent package
    internal/git2go, with the fields the tests set. *)
Record MergeCommand : Type := mkMergeCommand {
  Repository : string;
  AuthorName : string;
  AuthorMail : string;
  AuthorDate : Time;
  CommitterName : string;
  CommitterMail : string;
  CommitterDate : Time;
  Message : string;
  Ours : string;
  Theirs : string;
  Squash : bool
}.

(** Modelled from the spec: an author or committer identity of the absent
    merge command: name, mail and time, taken verbatim from the command. *)
Record Signature : Type := mkSignature {
  sigName : string;
  sigMail : string;
  sigWhen : Time
}.

(** Modelled from the spec: a commit of the object store the absent merge
    command works on.  Objects are content addressed and immutable, and the
    hash is taken to be free of collisions: a commit stands for its own
    ObjectID, and carries its tree (path to blob content) and its parents. *)
#[warnings="-register-all"] Inductive Commit : Type :=
| mkCommit (tree : gmap string string) (parents : list Commit)
           (author committer : Signature) (message : string).

(** Modelled from the spec: the tree of a commit of the absent object store. *)
Definition tree (c : Commit) : gmap string string :=
  match c with mkCommit t _ _ _ _ => t end.

(** Modelled from the spec: the parents of a commit of the absent object
    store, in order. *)
Definition parents (c : Commit) : list Commit :=
  match c with mkCommit _ ps _ _ _ => ps end.

(** Modelled from the spec: the result of the absent merge command, the
    ObjectID of the new commit as a string. *)
Record MergeResult : Type := mkMergeResult {
  CommitID : string
}.

(** Modelled from the spec: the errors of the absent merge command:
    InvalidParameters naming the missing field, RepositoryOpenFailure,
    a revision that does not resolve, and MergeConflict carrying the
    conflicting paths. *)
Inductive MergeError : Type :=
| ErrInvalidParameters (missing : string)
| ErrOpenRepository (path : string)
| ErrResolve (revision : string)
| ErrConflictingFiles (files : list string).

(** Modelled from the spec: the message of an error of the absent merge
    command, as the tests of src/unnamed/part_000 expect it. *)
Definition Error (e : MergeError) : string :=
  match e with
  | ErrInvalidParameters missing => "merge: invalid parameters: " +:+ missing
  | ErrOpenRepository path => "merge: could not open repository: " +:+ path
  | ErrResolve revision => "merge: could not resolve revision: " +:+ revision
  | ErrConflictingFiles _ => "merge: there are conflicting files"
  end.

(** Modelled from the spec: the validation of the absent merge command, in
    the fixed order repository, author name, author mail, message, ours,
    theirs, then, if any committer field is set, committer name, committer
    mail, committer date; the first failing check wins. *)
Definition verify (m : MergeCommand) : option string :=
  if String.eqb (Repository m) "" then Some "missing repository"
  else if String.eqb (AuthorName m) "" then Some "missing author name"
  else if String.eqb (AuthorMail m) "" then Some "missing author mail"
  else if String.eqb (Message m) "" then Some "missing message"
  else if String.eqb (Ours m) "" then Some "missing ours"
  else if String.eqb (Theirs m) "" then Some "missing theirs"
  else if negb (String.eqb (CommitterName m) "") || negb (String.eqb (CommitterMail m) "")
          || negb (IsZero (CommitterDate m))
  then
    if String.eqb (CommitterName m) "" then Some "missing committer name"
    else if String.eqb (CommitterMail m) "" then Some "missing committer mail"
    else if IsZero (CommitterDate m) then Some "missing committer date"
    else None
  else None.

#[global] Instance Time_eq_dec : EqDecision Time.
Proof. solve_decision. Defined.

#[global] Instance Signature_eq_dec : EqDecision Signature.
Proof. solve_decision. Defined.

(** Modelled from the spec: ObjectIDs of the absent object store can be
    compared; here, commits by their content: the entries of the trees, the
    parents in order, the identities and the message. *)
Fixpoint Commit_eqb (a b : Commit) : bool :=
  match a, b with
  | mkCommit t1 p1 a1 c1 m1, mkCommit t2 p2 a2 c2 m2 =>
      bool_decide (map_to_list t1 = map_to_list t2)
      && (fix all (ps qs : list Commit) : bool :=
            match ps, qs with
            | [], [] => true
            | p :: ps', q :: qs' => Commit_eqb p q && all ps' qs'
            | _, _ => false
            end) p1 p2
      && bool_decide (a1 = a2) && bool_decide (c1 = c2) && String.eqb m1 m2
  end.

Lemma Commit_eqb_spec : forall a b : Commit, Commit_eqb a b = true <-> a = b.
Proof.
  fix IH 1. intros [t1 p1 a1 c1 m1] [t2 p2 a2 c2 m2]. cbn [Commit_eqb].
  rewrite !andb_true_iff, !bool_decide_eq_true, String.eqb_eq.
  assert (Hps : (fix all (ps qs : list Commit) : bool :=
                   match ps, qs with
                   | [], [] => true
                   | p :: ps', q :: qs' => Commit_eqb p q && all ps' qs'
                   | _, _ => false
                   end) p1 p2 = true <-> p1 = p2).
  { clear -IH. revert p2. induction p1 as [|p ps IHps]; intros [|q qs];
      try (split; [discriminate|discriminate]); [split; reflexivity|].
    rewrite andb_true_iff, IH, IHps. split; [intros [-> ->]; reflexivity|].
    intros Heq; inversion Heq; split; reflexivity. }
  rewrite Hps. split.
  - intros ((((Ht & ->) & ->) & ->) & ->). f_equal.
    rewrite <- (list_to_map_to_list t1), <- (list_to_map_to_list t2). now rewrite Ht.
  - intros Heq; inversion Heq; subst. repeat split.
Qed.

#[global] Instance Commit_EqDecision : EqDecision Commit :=
  fun a b =>
    match Commit_eqb a b as r return Commit_eqb a b = r -> {a = b} + {a <> b} with
    | true => fun H => left (proj1 (Commit_eqb_spec a b) H)
    | false => fun H => right (fun Heq => Bool.diff_false_true
                                            (eq_trans (eq_sym H)
                                                      (proj2 (Commit_eqb_spec a b) Heq)))
    end eq_refl.

(** Modelled from the spec: the history of a commit of the absent object
    store: the commit, then the histories of its parents in order. *)
Fixpoint ancestors (c : Commit) : list Commit :=
  match c with
  | mkCommit _ ps _ _ _ =>
      c :: (fix history (ps : list Commit) : list Commit :=
              match ps with
              | [] => []
              | p :: ps' => ancestors p ++ history ps'
              end) ps
  end.

(** Modelled from the spec: one side of a merge of the absent engine: a
    tree, and the commits whose histories stand behind it (one commit for a
    revision, the merged candidates for a virtual base). *)
Record Side : Type := mkSide {
  sideTree : gmap string string;
  sideHeads : list Commit
}.

(** Modelled from the spec: a commit of the absent object store as a side of
    a merge. *)
Definition sideOf (c : Commit) : Side := {| sideTree := tree c; sideHeads := [c] |}.

(** Modelled from the spec: the commits in the history of a side of the
    absent engine. *)
Definition history (s : Side) : list Commit := concat (map ancestors (sideHeads s)).

(** Modelled from the spec: the merge base(s) of the absent engine: the
    common ancestors of the two sides that are not in the history of another
    common ancestor, without repetition, in the order of the history of the
    first side. *)
Definition mergeBases (one two : Side) : list Commit :=
  let commons := List.filter (fun c => bool_decide (c ∈ history two)) (history one) in
  let lowest c := forallb (fun c' => bool_decide (c' = c) || negb (bool_decide (c ∈ ancestors c')))
                          commons in
  remove_dups (List.filter lowest commons).

(** Modelled from the spec: the content a virtual merge base of the absent
    engine gets at a path with a content conflict: both sides between
    conflict markers. *)
Definition markers (o t : option string) : string :=
  "<<<<<<< ours" +:+ default "" o +:+ "=======" +:+ default "" t +:+ ">>>>>>> theirs".

(** Modelled from the spec: the paths of three trees of the absent engine,
    each with its three blobs. *)
Definition joined (base ours theirs : gmap string string)
  : gmap string (option string * option string * option string) :=
  merge (fun b ot => Some (b, (default (None, None) ot).1, (default (None, None) ot).2))
        base (merge (fun o t => Some (o, t)) ours theirs).

(** Modelled from the spec: the order in which conflicting paths of the
    absent engine are listed. *)
Definition pathLe (a b : string) : Prop := String.leb a b = true.

#[global] Instance pathLe_dec : RelDecision pathLe.
Proof. intros a b. unfold pathLe. apply _. Defined.

Section Engine.
(** The three-way merge of the contents of one file by the library under the
    absent engine, from the content in the base (empty when the base has no
    such file), in ours and in theirs: the combined content, or nothing when
    the two changes cannot be combined.  It is not among the sources; the
    tests of src/unnamed/part_000 show it at work (TestMerge_trees and
    TestMerge_squash combine changes to different lines of one file). *)
Context (mergeFile : string -> string -> string -> option string).

(** Modelled from the spec: the three-way merge of the absent engine at one
    path, from the blob of the base, of ours and of theirs: the merged blob,
    and whether the path has a content conflict.  A side that left the path
    as the base has it gives way to the other side.  When both sides changed
    the path differently, the merge of the file contents decides: the path
    is in conflict when the changes cannot be combined, and always when one
    side removed the file.  With a [mergeFile] that combines nothing this is
    the rule of section 8 of the spec (both sides modify the same path
    differently: conflict). *)
Definition resolve3 (b o t : option string) : option string * bool :=
  if decide (o = t) then (o, false)
  else if decide (b = o) then (t, false)
  else if decide (b = t) then (o, false)
  else
    match o, t with
    | Some ours, Some theirs =>
        match mergeFile (default "" b) ours theirs with
        | Some merged => (Some merged, false)
        | None => (Some (markers o t), true)
        end
    | _, _ => (Some (markers o t), true)
    end.

(** Modelled from the spec: the tree-level three-way merge of the absent
    engine: the merged tree, and every path with a content conflict, sorted
    and without repetition. *)
Definition mergeTrees (base ours theirs : gmap string string)
  : gmap string string * list string :=
  let all := joined base ours theirs in
  (omap (fun bot : option string * option string * option string =>
           (resolve3 bot.1.1 bot.1.2 bot.2).1) all,
   merge_sort pathLe
     (map fst (List.filter (fun kv : string * (option string * option string * option string) =>
                              (resolve3 kv.2.1.1 kv.2.1.2 kv.2.2).2)
                           (map_to_list all)))).

(** The hexadecimal ObjectID of a commit, and [git2go.MergeRecursionLimit];
    neither is among the sources. *)
Context (oidString : Commit -> string) (MergeRecursionLimit : nat).

(** Modelled from the spec: the recursive merge of the absent engine at
    recursion level [level].  With several merge bases the candidates are
    merged pairwise into a virtual base, each such merge one level further
    down at a level one higher again; once the level would exceed the limit
    the base reached so far is used instead.  Conflicts inside a virtual base
    are kept in its tree and not reported.  [fuel] bounds the nesting. *)
Fixpoint mergeSides (fuel level : nat) (one two : Side) : gmap string string * list string :=
  let baseTree :=
    match mergeBases one two with
    | [] => ∅
    | first :: others =>
        match fuel with
        | O => tree first
        | S fuel' =>
            sideTree
              ((fix fold (level : nat) (acc : Side) (others : list Commit) : Side :=
                  match others with
                  | [] => acc
                  | other :: rest =>
                      if (MergeRecursionLimit <? S level)%nat then acc
                      else
                        fold (S level)
                             {| sideTree :=
                                  (mergeSides fuel' (S (S level)) acc (sideOf other)).1;
                                sideHeads := sideHeads acc ++ [other] |}
                             rest
                  end) level (sideOf first) others)
        end
    end in
  mergeTrees baseTree (sideTree one) (sideTree two).

(** Modelled from the spec: the merge of two commits by the absent engine,
    from recursion level 0. *)
Definition mergeCommits (ours theirs : Commit) : gmap string string * list string :=
  mergeSides (S MergeRecursionLimit) 0 (sideOf ours) (sideOf theirs).

(** Modelled from the spec: what the absent merge command reads and writes:
    the repositories by path, each resolving revisions (names and ObjectIDs)
    to commits, and the paths it opened so far. *)
Record World : Type := mkWorld {
  repos : gmap string (gmap string Commit);
  opened : list string
}.

(** Modelled from the spec: opening the repository named by the absent merge
    command; a path without a repository fails. *)
Definition openRepository (path : string) : M World MergeError (gmap string Commit) :=
  fun w =>
    let w' := {| repos := repos w; opened := opened w ++ [path] |} in
    match repos w !! path with
    | Some repo => (Ok repo, w')
    | None => (Err (ErrOpenRepository path), w')
    end.

(** Modelled from the spec: resolving a revision of the absent merge command
    to a commit. *)
Definition resolve (repo : gmap string Commit) (revision : string) : M World MergeError Commit :=
  match repo !! revision with
  | Some c => ret c
  | None => fail (ErrResolve revision)
  end.

(** Modelled from the spec: writing the new commit of the absent merge
    command to the repository, under its ObjectID. *)
Definition writeCommit (path : string) (c : Commit) : M World MergeError unit :=
  modify (fun w => {| repos := alter (insert (oidString c) c) path (repos w);
                      opened := opened w |}).

(** Modelled from the spec: [Merge(ctx, repository, MergeCommand)] of the
    absent package internal/git2go: validate, then open the repository,
    resolve [ours] and [theirs], merge; fail with every conflicting path, or
    else write a commit on the merged tree with two parents ([ours],
    [theirs]), or with [ours] alone when squashing; the committer defaults to
    the author; the result is the ObjectID of the new commit. *)
Definition Merge (cmd : MergeCommand) : M World MergeError MergeResult :=
  match verify cmd with
  | Some missing => fail (ErrInvalidParameters missing)
  | None =>
      (repo <- openRepository (Repository cmd) ;;
       ours <- resolve repo (Ours cmd) ;;
       theirs <- resolve repo (Theirs cmd) ;;
       let '(merged, conflicts) := mergeCommits ours theirs in
       match conflicts with
       | _ :: _ => fail (ErrConflictingFiles conflicts)
       | [] =>
           let author := {| sigName := AuthorName cmd; sigMail := AuthorMail cmd;
                            sigWhen := AuthorDate cmd |} in
           let committer :=
             if String.eqb (CommitterMail cmd) "" then author
             else {| sigName := CommitterName cmd; sigMail := CommitterMail cmd;
                     sigWhen := CommitterDate cmd |} in
           let newParents := if Squash cmd then [ours] else [ours; theirs] in
           let commit := mkCommit merged newParents author committer (Message cmd) in
           writeCommit (Repository cmd) commit ;;;
           ret {| CommitID := oidString commit |}
       end)%go
  end.

End Engine.

End git2go.

(** * Specification vocabulary *)

(** A well-formed object map record: a 40-byte old OID free of spaces, one
    space, and a 40-byte new OID. *)
Definition wellFormedRecord (line : string) : Prop :=
  exists oldOID newOID,
    line = oldOID +:+ " " +:+ newOID /\ hasByte " " oldOID = false /\
    String.length oldOID = 40%nat /\ String.length newOID = 40%nat.

(** A malformed record: a line that is neither the commit-map header nor a
    well-formed record (wrong field count or an OID of the wrong length). *)
Definition malformedRecord (line : string) : Prop :=
  line <> internalrefs.filterRepoCommitMapHeader /\ ~ wellFormedRecord line.

(** The steps a run added to the log. *)
Definition eventsSince {CB} (w w' : internalrefs.World CB) : list internalrefs.Event :=
  drop (length (internalrefs.log w)) (internalrefs.log w').

(** A stretch of a run that commits nothing: the references and the state of
    the updater are as before, the callback and the staging may have run. *)
Definition quiet {CB} (w w' : internalrefs.World CB) : Prop :=
  internalrefs.refs w' = internalrefs.refs w /\
  updateref.state (internalrefs.updater w') = updateref.state (internalrefs.updater w) /\
  updateref.disabledTransactions (internalrefs.updater w') =
    updateref.disabledTransactions (internalrefs.updater w) /\
  exists evs, internalrefs.log w' = internalrefs.log w ++ evs /\
              ~ In internalrefs.EvCommit evs.

(** A callback failure recorded among [evs] is the error [r] of the run. *)
Definition failsWith (evs : list internalrefs.Event) (r : result internalrefs.error unit) : Prop :=
  forall o n p msg,
    In (internalrefs.EvForEach o n p (Some msg)) evs -> r = Err (internalrefs.ErrForEach msg).

(** What every part of the loop of [ApplyObjectMap] guarantees. *)
Definition sound {CB} (w : internalrefs.World CB)
    (rw : result internalrefs.error unit * internalrefs.World CB) : Prop :=
  quiet w rw.2 /\ failsWith (eventsSince w rw.2) rw.1.

(** The two OIDs of a well-formed record, computed. *)
Definition recordOf (line : string) : option (string * string) :=
  match cut " " line with
  | Some (a, b) =>
      if (String.length a =? 40)%nat && (String.length b =? 40)%nat then Some (a, b) else None
  | None => None
  end.

(** The object map without its header lines. *)
Definition noHeaders (lines : list string) : list string :=
  filter (fun line => line <> internalrefs.filterRepoCommitMapHeader) lines.

(** Two outcomes that agree except, possibly, on the line number printed in an
    invalid-object-map error. *)
Definition sameUpToLine (r1 r2 : result internalrefs.error unit) : Prop :=
  r1 = r2 \/
  exists m1 m2, r1 = Err (internalrefs.ErrInvalidObjectMap m1) /\
                r2 = Err (internalrefs.ErrInvalidObjectMap m2).

(** The entries of an object map that reach [processEntry]: the well-formed
    records whose two OIDs differ, in order, up to the first malformed
    record. *)
Fixpoint entriesOf (lines : list string) : list (string * string) :=
  match lines with
  | [] => []
  | line :: rest =>
      if decide (line = internalrefs.filterRepoCommitMapHeader) then entriesOf rest
      else match recordOf line with
           | None => []
           | Some (o, n) => if decide (o = n) then entriesOf rest else (o, n) :: entriesOf rest
           end
  end.

(** Whether the lookup table of the cleaner knows the old OID. *)
Definition isPresent {CB} (c : internalrefs.Cleaner CB) (oldOID : string) : bool :=
  bool_decide (is_Some (internalrefs.table c !! oldOID)).

(** The references the lookup table of the cleaner lists for the old OID. *)
Definition refsOf {CB} (c : internalrefs.Cleaner CB) (oldOID : string) : list string :=
  default [] (internalrefs.table c !! oldOID).

(** The steps of one entry whose callback succeeded: the call of the
    callback, then the deletion of every reference listed for the old OID. *)
Definition entryBlock {CB} (c : internalrefs.Cleaner CB) (e : string * string)
  : list internalrefs.Event :=
  internalrefs.EvForEach e.1 e.2 (isPresent c e.1) None ::
  map internalrefs.EvDelete (refsOf c e.1).

(** The steps of a sequence of entries whose callbacks all succeeded. *)
Definition entryBlocks {CB} (c : internalrefs.Cleaner CB) (es : list (string * string))
  : list internalrefs.Event :=
  concat (map (entryBlock c) es).

(** How the loop of [ApplyObjectMap] can end, with the steps [evs] it took:
    every entry processed; or the callback failed on an entry, after the
    steps of the entries before it; or a malformed record was met, after the
    steps of the entries before it. *)
Definition loopOutcome {CB} (c : internalrefs.Cleaner CB) (lines : list string)
    (r : result internalrefs.error unit) (evs : list internalrefs.Event) : Prop :=
  (r = Ok tt /\ evs = entryBlocks c (entriesOf lines)) \/
  (exists pre e post msg,
     entriesOf lines = pre ++ e :: post /\
     evs = entryBlocks c pre ++ [internalrefs.EvForEach e.1 e.2 (isPresent c e.1) (Some msg)] /\
     r = Err (internalrefs.ErrForEach msg)) \/
  (exists msg,
     r = Err (internalrefs.ErrInvalidObjectMap msg) /\ evs = entryBlocks c (entriesOf lines)).

(** ** Vocabulary of the object pool *)

(** The error of a Git invocation run to its end: the error of starting it,
    or else the error of waiting for it. *)
Definition failure (out : objectpool.Outcome) : option string :=
  match objectpool.startErr out with
  | Some e => Some e
  | None => objectpool.waitErr out
  end.

(** The standard-error text an error of [FetchFromOrigin] carries. *)
Definition stderrOf (e : objectpool.error) : option string :=
  match e with
  | objectpool.ErrInternalf _ text => Some text
  | _ => None
  end.

(** Whether a step is an invocation of the Git command [name]. *)
Definition invokes (name : string) (ev : objectpool.Event) : bool :=
  match ev with
  | objectpool.EvExec cmd _ _ => String.eqb (objectpool.Name cmd) name
  | _ => false
  end.

(** How often the steps [evs] invoke the Git command [name]. *)
Definition executions (name : string) (evs : list objectpool.Event) : nat :=
  length (List.filter (invokes name) evs).

(** The steps a pool operation added to the log. *)
Definition poolEventsSince {X} (w w' : objectpool.World X) : list objectpool.Event :=
  drop (length (objectpool.log w)) (objectpool.log w').

(** The object IDs of the lines [dangling <type> <oid>] of a [git fsck]. *)
Fixpoint danglingOids (lines : list string) : list string :=
  match lines with
  | [] => []
  | line :: rest =>
      match cut " " line with
      | Some (word, tail) =>
          match cut " " tail with
          | Some (_, oid) =>
              if String.eqb word "dangling" then oid :: danglingOids rest
              else danglingOids rest
          | None => danglingOids rest
          end
      | None => danglingOids rest
      end
  end.

(** The reference that rescues the object [oid]. *)
Definition danglingRef (oid : string) : string := objectpool.danglingObjectNamespace +:+ oid.

(** The steps and the batch that rescue the objects [oids]. *)
Definition createEvents (oids : list string) : list objectpool.Event :=
  map (fun oid => objectpool.EvCreate (danglingRef oid) oid) oids.

Definition createOps (oids : list string) : list updateref.Op :=
  map (fun oid => updateref.OpCreate (danglingRef oid) oid) oids.

(** What a part of [FetchFromOrigin] guarantees about the Git invocations
    among the steps it took: at most [nf] of [fetch] and [nr] of [repack]; a
    failed [fetch] is returned as [ErrInternalf] with its error and its
    standard-error text; a failed [repack] is returned as its bare error. *)
Definition tracks {X A} (nf nr : nat) (w : objectpool.World X)
    (rw : result objectpool.error A * objectpool.World X) : Prop :=
  exists evs,
    objectpool.log rw.2 = objectpool.log w ++ evs /\
    (executions "fetch" evs <= nf)%nat /\
    (executions "repack" evs <= nr)%nat /\
    (forall cmd opts out err,
       In (objectpool.EvExec cmd opts out) evs -> objectpool.Name cmd = "fetch" ->
       failure out = Some err ->
       rw.1 = Err (objectpool.ErrInternalf err (objectpool.stderr out))) /\
    (forall cmd opts out err,
       In (objectpool.EvExec cmd opts out) evs -> objectpool.Name cmd = "repack" ->
       failure out = Some err ->
       rw.1 = Err (objectpool.ErrCollab err)).

(** The statements of [FetchFromOrigin] up to and including the fetch. *)
Definition upToFetch {X} `{objectpool.Collaborators X} (origin : result string string)
  : M (objectpool.World X) objectpool.error unit :=
  (objectpool.Init ;;;
   originPath <- match origin with
                 | Ok path => ret path
                 | Err e => fail (objectpool.ErrCollab e)
                 end ;;
   objectpool.CleanStaleData ;;;
   objectpool.logStats "before fetch" ;;;
   objectpool.fetch originPath)%go.

(** The steps of [FetchFromOrigin] that follow the rescue keep the
    references of the pool: [o.logStats] only measures, [git pack-refs --all]
    moves references into the packed-refs file, and [git repack] rewrites
    packs of objects; none of them creates, moves or deletes a reference. *)
Definition keepsReferences {X} `{objectpool.Collaborators X} : Prop :=
  (forall st, (objectpool.stats "after fetch" st).2.1 = st.1) /\
  (forall st, (objectpool.git objectpool.packRefsCmd [] st).2.1 = st.1) /\
  (forall st, (objectpool.git objectpool.repackCmd
                 [objectpool.WithConfig objectpool.repackConfig] st).2.1 = st.1).

(** The object graph of a repository: [links o] lists the objects that the
    object [o] refers to; [reaches links a b] when [b] can be reached from
    [a] along links. *)
Inductive reaches (links : string -> list string) : string -> string -> Prop :=
| reaches_refl o : reaches links o o
| reaches_step a b c : In b (links a) -> reaches links b c -> reaches links a c.

(** The object [o] has no referrer among [objects], and no reference of
    [refs] points at it: it is what [git fsck --dangling] calls dangling. *)
Definition isDangling (objects : list string) (links : string -> list string)
    (refs : gmap string string) (o : string) : Prop :=
  (forall p, In p objects -> ~ In o (links p)) /\
  (forall name, refs !! name <> Some o).

(** The contract of [git fsck --connectivity-only --dangling] for the object
    graph [objects], [links] and the references [refs]: every dangling object
    has its line [dangling <type> <oid>] in the output. *)
Definition fsckReportsDangling (objects : list string) (links : string -> list string)
    (refs : gmap string string) (lines : list string) : Prop :=
  forall o, In o objects -> isDangling objects links refs o ->
    exists ty, hasByte " " ty = false /\ In ("dangling " +:+ ty +:+ " " +:+ o) lines.

(** References below [refs/dangling/] carry the object ID they point to. *)
Definition danglingNamespaceSound (refs : gmap string string) : Prop :=
  forall oid target, refs !! danglingRef oid = Some target -> target = oid.

(** ** Vocabulary of the merge command *)

(** The fields of a [MergeCommand] that validation can find missing. *)
Inductive Field : Type :=
| FRepository | FAuthorName | FAuthorMail | FMessage | FOurs | FTheirs
| FCommitterName | FCommitterMail | FCommitterDate.

(** How an error names a field. *)
Definition fieldName (f : Field) : string :=
  match f with
  | FRepository => "repository"
  | FAuthorName => "author name"
  | FAuthorMail => "author mail"
  | FMessage => "message"
  | FOurs => "ours"
  | FTheirs => "theirs"
  | FCommitterName => "committer name"
  | FCommitterMail => "committer mail"
  | FCommitterDate => "committer date"
  end.

(** Whether the command leaves the field unset. *)
Definition isMissing (cmd : git2go.MergeCommand) (f : Field) : bool :=
  match f with
  | FRepository => String.eqb (git2go.Repository cmd) ""
  | FAuthorName => String.eqb (git2go.AuthorName cmd) ""
  | FAuthorMail => String.eqb (git2go.AuthorMail cmd) ""
  | FMessage => String.eqb (git2go.Message cmd) ""
  | FOurs => String.eqb (git2go.Ours cmd) ""
  | FTheirs => String.eqb (git2go.Theirs cmd) ""
  | FCommitterName => String.eqb (git2go.CommitterName cmd) ""
  | FCommitterMail => String.eqb (git2go.CommitterMail cmd) ""
  | FCommitterDate => git2go.IsZero (git2go.CommitterDate cmd)
  end.

(** The required fields of a command, in the fixed order: the committer
    fields are required only when at least one of them is set. *)
Definition requiredFields (cmd : git2go.MergeCommand) : list Field :=
  [FRepository; FAuthorName; FAuthorMail; FMessage; FOurs; FTheirs] ++
  (if forallb (isMissing cmd) [FCommitterName; FCommitterMail; FCommitterDate]
   then []
   else [FCommitterName; FCommitterMail; FCommitterDate]).

(** The first missing required field, in the fixed order. *)
Definition firstMissing (cmd : git2go.MergeCommand) : option Field :=
  find (isMissing cmd) (requiredFields cmd).

(** * Example data *)

(** A reference store in the manner of git: a create needs a free name, an
    update the expected old value, a delete always passes; the hook accepts
    every batch. *)
Definition gitBackend : updateref.Backend :=
  {| updateref.accepts st op :=
       match op with
       | updateref.OpCreate name _ => bool_decide (st !! name = None)
       | updateref.OpUpdate name oldOID _ => bool_decide (st !! name = Some oldOID)
       | updateref.OpDelete _ => true
       end;
     updateref.hook _ := true |}.

(** A hook that rejects every batch. *)
Definition vetoBackend : updateref.Backend :=
  {| updateref.accepts _ _ := true; updateref.hook _ := false |}.

Definition shaA : string := "aaaaaaaaaaaaaaaaaaaaaaaaaaaaaaaaaaaaaaaa".
Definition shaB : string := "bbbbbbbbbbbbbbbbbbbbbbbbbbbbbbbbbbbbbbbb".
Definition shaC : string := "cccccccccccccccccccccccccccccccccccccccc".
Definition shaD : string := "dddddddddddddddddddddddddddddddddddddddd".

(** The text whose lines are [lines], each ended by a line feed. *)
Definition unlines (lines : list string) : string :=
  List.fold_right (fun line text => line +:+ String "010" text) "" lines.

Fixpoint repeatByte (n : nat) (c : ascii) : string :=
  match n with
  | O => ""
  | S n' => String c (repeatByte n' c)
  end.

(** A line of [bufio.MaxScanTokenSize] bytes. *)
Definition overlongLine : string := repeatByte (64 * 1024) "x".

(** An object map of two lines: a record, then [overlongLine]. *)
Definition overlongMap : string := unlines [shaA +:+ " " +:+ shaB; overlongLine].

(** Two internal references point at [shaA], a branch at [shaB]. *)
Definition exampleRefs : gmap string string :=
  {[ "refs/keep-around/a" := shaA;
     "refs/merge-requests/1/head" := shaA;
     "refs/heads/main" := shaB ]}.

Definition exampleTable : gmap string (list string) :=
  {[ shaA := ["refs/keep-around/a"; "refs/merge-requests/1/head"] ]}.

(** A callback that notes its arguments and never fails. *)
Definition noteCalls : internalrefs.ForEachFunc (list (string * string * bool)) :=
  fun o n p st => (None, st ++ [(o, n, p)]).

(** A callback that notes its arguments and fails on the old OID [bad]. *)
Definition rejectOld (bad : string) : internalrefs.ForEachFunc (list (string * string * bool)) :=
  fun o n p st => (if String.eqb o bad then Some "rejected" else None, st ++ [(o, n, p)]).

Definition exampleWorld : internalrefs.World (list (string * string * bool)) :=
  {| internalrefs.refs := exampleRefs;
     internalrefs.updater := updateref.New false;
     internalrefs.cb := [];
     internalrefs.log := [] |}.

Definition notingCleaner : internalrefs.Cleaner (list (string * string * bool)) :=
  {| internalrefs.forEach := Some noteCalls; internalrefs.table := exampleTable |}.

Definition rejectingCleaner : internalrefs.Cleaner (list (string * string * bool)) :=
  {| internalrefs.forEach := Some (rejectOld shaC); internalrefs.table := exampleTable |}.

Definition silentCleaner : internalrefs.Cleaner (list (string * string * bool)) :=
  {| internalrefs.forEach := None; internalrefs.table := exampleTable |}.

(** Collaborators of a pool for the examples: every step succeeds, except
    that the Git command named [failing] exits with status 128 after writing
    to its standard error; [git fsck] reports two dangling objects; no step
    touches the references. *)
Definition toyCollaborators (failing : string) : objectpool.Collaborators unit :=
  {| objectpool.git cmd _ st :=
       if String.eqb (objectpool.Name cmd) failing then
         ({| objectpool.startErr := None; objectpool.stdout := [];
             objectpool.scanErr := None;
             objectpool.stderr := "fatal: " +:+ failing +:+ " failed";
             objectpool.waitErr := Some "exit status 128" |}, st)
       else if String.eqb (objectpool.Name cmd) "fsck" then
         ({| objectpool.startErr := None;
             objectpool.stdout := ["notice: HEAD points to an unborn branch (master)";
                                   "dangling commit " +:+ shaD;
                                   "dangling blob " +:+ shaC];
             objectpool.scanErr := None; objectpool.stderr := "";
             objectpool.waitErr := None |}, st)
       else
         ({| objectpool.startErr := None; objectpool.stdout := [];
             objectpool.scanErr := None; objectpool.stderr := "";
             objectpool.waitErr := None |}, st);
     objectpool.poolInit st := (None, st);
     objectpool.cleanStaleData st := (None, st);
     objectpool.stats _ st := (None, st);
     objectpool.updaterErr _ := None |}.

(** The same collaborators, except that [updateref.New] fails. *)
Definition noUpdaterCollaborators : objectpool.Collaborators unit :=
  {| objectpool.git := objectpool.git (Collaborators := toyCollaborators "");
     objectpool.poolInit st := (None, st);
     objectpool.cleanStaleData st := (None, st);
     objectpool.stats _ st := (None, st);
     objectpool.updaterErr _ := Some "update-ref: cannot start" |}.

(** What the failing command of [toyCollaborators failing] does. *)
Definition failedOutcome (failing : string) : objectpool.Outcome :=
  {| objectpool.startErr := None; objectpool.stdout := [];
     objectpool.scanErr := None;
     objectpool.stderr := "fatal: " +:+ failing +:+ " failed";
     objectpool.waitErr := Some "exit status 128" |}.

(** A pool whose only reference, fetched from the origin, points at [shaA]. *)
Definition toyPool : objectpool.World unit :=
  {| objectpool.refs := {[ "refs/remotes/origin/heads/main" := shaA ]};
     objectpool.ext := tt;
     objectpool.log := [] |}.

(** The objects of the toy pool: the commit [shaA] and the dangling commit
    [shaD] both refer to [shaB]; [shaC] is a dangling blob. *)
Definition toyObjects : list string := [shaA; shaB; shaC; shaD].

Definition toyLinks (o : string) : list string :=
  if String.eqb o shaA then [shaB]
  else if String.eqb o shaD then [shaB]
  else [].

Definition toyRank (o : string) : nat :=
  if String.eqb o shaA then 1
  else if String.eqb o shaD then 1
  else 0.

(** The request of the tests of the merge command, field by field. *)
Definition request (repository authorName authorMail committerName committerMail : string)
    (committerDate : git2go.Time) (message ours theirs : string) (squash : bool)
  : git2go.MergeCommand :=
  {| git2go.Repository := repository; git2go.AuthorName := authorName;
     git2go.AuthorMail := authorMail; git2go.AuthorDate := git2go.ZeroTime;
     git2go.CommitterName := committerName; git2go.CommitterMail := committerMail;
     git2go.CommitterDate := committerDate; git2go.Message := message;
     git2go.Ours := ours; git2go.Theirs := theirs; git2go.Squash := squash |}.

(** An ObjectID rendering for the examples: the message of the commit and the
    number of its parents. *)
Definition exampleOid (c : git2go.Commit) : string :=
  match c with
  | git2go.mkCommit _ ps _ _ message => message +:+ "/" +:+ itoa (Z.of_nat (length ps))
  end.

Definition johnDoe : git2go.Signature :=
  {| git2go.sigName := "John Doe"; git2go.sigMail := "john.doe@example.com";
     git2go.sigWhen := git2go.Date 1596087950 7200 |}.

(** [cmdtesthelper.BuildCommit]: a commit with the given parents and files. *)
Definition BuildCommit (ps : list git2go.Commit) (files : gmap string string) : git2go.Commit :=
  git2go.mkCommit files ps johnDoe johnDoe "".

(** The lines of a text, each with the line feed that ends it; a text that
    does not end in a line feed has a last line without one. *)
Fixpoint textLines (s : string) : list string :=
  match s with
  | EmptyString => []
  | String c rest =>
      if Ascii.eqb c "010" then String c "" :: textLines rest
      else
        match textLines rest with
        | [] => [String c ""]
        | line :: more => String c line :: more
        end
  end.

(** The number of lines two texts have in common at their beginning. *)
Fixpoint commonPrefix (a b : list string) : nat :=
  match a, b with
  | x :: a', y :: b' => if String.eqb x y then S (commonPrefix a' b') else 0%nat
  | _, _ => 0%nat
  end.

(** The number of lines two texts have in common at their end. *)
Definition commonSuffix (a b : list string) : nat := commonPrefix (rev a) (rev b).

(** A merge of file contents for the examples, by lines.  Each side is taken
    to have replaced one stretch of lines of the base: what lies between the
    lines it has in common with the base at the beginning and at the end.
    When at least one line of the base lies between the two stretches, both
    replacements are made; otherwise the changes are not combined. *)
Definition lineMerge (base ours theirs : string) : option string :=
  let b := textLines base in
  let o := textLines ours in
  let t := textLines theirs in
  let po := commonPrefix b o in
  let so := Nat.min (commonSuffix b o) (Nat.min (length b) (length o) - po) in
  let pt := commonPrefix b t in
  let st := Nat.min (commonSuffix b t) (Nat.min (length b) (length t) - pt) in
  if (length b - so <? pt)%nat then
    Some (String.concat "" (take (length o - so) o ++ drop (length b - so) t))
  else if (length b - st <? po)%nat then
    Some (String.concat "" (take (length t - st) t ++ drop (length b - st) o))
  else None.

(** The history of [TestMerge_squash]: ours and theirs both start from the
    base and change the one file; theirs is two commits long. *)
Definition squashTestBase : git2go.Commit :=
  BuildCommit [] {[ "file.txt" := "b" +:+ String "010" "c" ]}.
Definition squashTestOurs : git2go.Commit :=
  BuildCommit [squashTestBase] {[ "file.txt" := unlines ["a"; "b"] +:+ "c" ]}.
Definition squashTestTheirs1 : git2go.Commit :=
  BuildCommit [squashTestBase] {[ "file.txt" := unlines ["b"; "c"] +:+ "d" ]}.
Definition squashTestTheirs2 : git2go.Commit :=
  BuildCommit [squashTestTheirs1] {[ "file.txt" := unlines ["b"; "c"; "d"] +:+ "e" ]}.

(** The repository of [TestMerge_squash], at [/repo]. *)
Definition squashTestWorld : git2go.World :=
  {| git2go.repos := {[ "/repo" := {[ "ours" := squashTestOurs;
                                       "theirs" := squashTestTheirs2 ]} ]};
     git2go.opened := [] |}.

(** The merge request of [TestMerge_squash], and the same without
    squashing. *)
Definition squashTestRequest (squash : bool) : git2go.MergeCommand :=
  request "/repo" "John Doe" "john.doe@example.com" "" "" git2go.ZeroTime
          "Merge message" "ours" "theirs" squash.

(** A case of [TestMerge_trees]: the files of the base, of ours and of
    theirs, the two switches, and what is expected: the files of the new
    commit, or the conflicting paths. *)
Record TreesCase : Type := mkTreesCase {
  tcBase : gmap string string;
  tcOurs : gmap string string;
  tcTheirs : gmap string string;
  tcWithCommitter : bool;
  tcSquash : bool;
  tcExpected : result (list string) (gmap string string)
}.

(** The cases of [TestMerge_trees], in order (the commit IDs they expect are
    left out). *)
Definition treesTestCases : list TreesCase :=
  let letters := unlines ["a"; "b"; "c"; "d"; "e"; "f"] in
  let trivial := {[ "file" := "a" ]} : gmap string string in
  let base3 := {[ "1" := "foo"; "2" := "bar"; "3" := "qux" ]} : gmap string string in
  let ours3 := {[ "1" := "foo"; "2" := "modified"; "3" := "qux" ]} : gmap string string in
  let theirs3 := {[ "1" := "modified"; "2" := "bar"; "3" := "qux" ]} : gmap string string in
  let both3 := {[ "1" := "modified"; "2" := "modified"; "3" := "qux" ]} : gmap string string in
  [ mkTreesCase trivial trivial trivial false false (Ok trivial);
    mkTreesCase trivial trivial trivial true false (Ok trivial);
    mkTreesCase trivial trivial trivial false true (Ok trivial);
    mkTreesCase {[ "file" := letters ]} {[ "file" := unlines ["0"] +:+ letters ]}
                {[ "file" := letters +:+ unlines ["0"] ]} false false
                (Ok {[ "file" := unlines ["0"] +:+ letters +:+ unlines ["0"] ]});
    mkTreesCase {[ "file" := letters ]} {[ "file" := unlines ["0"] +:+ letters ]}
                {[ "file" := letters +:+ unlines ["0"] ]} false true
                (Ok {[ "file" := unlines ["0"] +:+ letters +:+ unlines ["0"] ]});
    mkTreesCase base3 ours3 theirs3 false false (Ok both3);
    mkTreesCase base3 ours3 theirs3 false true (Ok both3);
    mkTreesCase {[ "1" := "foo" ]} {[ "1" := "bar" ]} {[ "1" := "qux" ]} false false
                (Err ["1"]) ].

(** The repository that [TestMerge_trees] builds for a case, at [/repo]:
    the base, and ours and theirs on top of it. *)
Definition treesTestWorld (tc : TreesCase) : git2go.World :=
  let base := BuildCommit [] (tcBase tc) in
  {| git2go.repos := {[ "/repo" := {[ "ours" := BuildCommit [base] (tcOurs tc);
                                       "theirs" := BuildCommit [base] (tcTheirs tc) ]} ]};
     git2go.opened := [] |}.

(** The merge request of [TestMerge_trees] for a case. *)
Definition treesTestRequest (tc : TreesCase) : git2go.MergeCommand :=
  if tcWithCommitter tc then
    request "/repo" "John Doe" "john.doe@example.com" "Jane Doe" "jane.doe@example.com"
            (git2go.Date 1627623950 7200) "Merge message" "ours" "theirs" (tcSquash tc)
  else
    request "/repo" "John Doe" "john.doe@example.com" "" "" git2go.ZeroTime
            "Merge message" "ours" "theirs" (tcSquash tc).

(** What [TestMerge_trees] looks at after a merge: the files of the commit
    written under the returned ID, or the conflicting paths. *)
Definition mergeOutcome (rw : result git2go.MergeError git2go.MergeResult * git2go.World)
  : option (result (list string) (gmap string string)) :=
  match rw.1 with
  | Ok r =>
      c ← (git2go.repos rw.2 !! "/repo") ≫= (fun repo => repo !! git2go.CommitID r);
      Some (Ok (git2go.tree c))
  | Err (git2go.ErrConflictingFiles files) => Some (Err files)
  | Err _ => None
  end.

(** A second history of the same shape, in which each side adds files of
    its own and leaves [file.txt] alone. *)
Definition squashBase : git2go.Commit := BuildCommit [] {[ "file.txt" := "b" ]}.
Definition squashOurs : git2go.Commit := BuildCommit [squashBase] {[ "file.txt" := "b"; "a.txt" := "a" ]}.
Definition squashTheirs1 : git2go.Commit := BuildCommit [squashBase] {[ "file.txt" := "b"; "d.txt" := "d" ]}.
Definition squashTheirs2 : git2go.Commit :=
  BuildCommit [squashTheirs1] {[ "file.txt" := "b"; "d.txt" := "d"; "e.txt" := "e" ]}.

(** A world with one repository at [/repo], holding those commits. *)
Definition mergeWorld : git2go.World :=
  {| git2go.repos := {[ "/repo" := {[ "ours" := squashOurs; "theirs" := squashTheirs2;
                                       "base" := squashBase ]} ]};
     git2go.opened := [] |}.

(** The message of the error of a run, if it failed. *)
Definition errorText {A} (r : result git2go.MergeError A) : option string :=
  match r with
  | Ok _ => None
  | Err e => Some (git2go.Error e)
  end.

(** The requests of [TestMerge_missingArguments], in order, with [/repo] for
    the path of the test repository. *)
Definition missingArgumentsRequests : list git2go.MergeCommand :=
  [ request "" "" "" "" "" git2go.ZeroTime "" "" "" false;
    request "" "Foo" "foo@example.com" "" "" git2go.ZeroTime "Foo" "HEAD" "HEAD" false;
    request "/repo" "" "foo@example.com" "" "" git2go.ZeroTime "Foo" "HEAD" "HEAD" false;
    request "/repo" "Foo" "" "" "" git2go.ZeroTime "Foo" "HEAD" "HEAD" false;
    request "/repo" "Foo" "foo@example.com" "" "" git2go.ZeroTime "" "HEAD" "HEAD" false;
    request "/repo" "Foo" "foo@example.com" "" "" git2go.ZeroTime "Foo" "" "HEAD" false;
    request "/repo" "Foo" "foo@example.com" "" "" git2go.ZeroTime "Foo" "HEAD" "" false;
    request "/repo" "Foo" "foo@example.com" "Bar" "" git2go.ZeroTime "Foo" "HEAD" "HEAD" false;
    request "/repo" "Foo" "foo@example.com" "" "bar@example.com" git2go.ZeroTime
            "Foo" "HEAD" "HEAD" false;
    request "/repo" "Foo" "foo@example.com" "Bar" "bar@example.com" git2go.ZeroTime
            "Foo" "HEAD" "HEAD" false ].

(** The errors [TestMerge_missingArguments] expects, in order. *)
Definition missingArgumentsExpected : list (option string) :=
  [ Some "merge: invalid parameters: missing repository";
    Some "merge: invalid parameters: missing repository";
    Some "merge: invalid parameters: missing author name";
    Some "merge: invalid parameters: missing author mail";
    Some "merge: invalid parameters: missing message";
    Some "merge: invalid parameters: missing ours";
    Some "merge: invalid parameters: missing theirs";
    Some "merge: invalid parameters: missing committer mail";
    Some "merge: invalid parameters: missing committer name";
    Some "merge: invalid parameters: missing committer date" ].

(** * The criss-cross history of TestMerge_recursive *)

(** The line feed that ends the contents of the test files. *)
Definition nl : string := String "010"%char EmptyString.

(** [fmt.Sprintf("ours-%d\n", i)] and [fmt.Sprintf("theirs-%d\n", i)] *)
Definition oursLine (i : nat) : string := "ours-" +:+ itoa (Z.of_nat i) +:+ nl.
Definition theirsLine (i : nat) : string := "theirs-" +:+ itoa (Z.of_nat i) +:+ nl.

(** A tree of the test: the file [base], and the files [ours] and [theirs]
    when they exist. *)
Definition filesOf (o t : option string) : gmap string string :=
  <[ "base" := "base" +:+ nl ]>
    (match o with Some x => <[ "ours" := x ]> | None => fun m => m end
       (match t with Some y => <[ "theirs" := y ]> | None => fun m => m end ∅)).

(** [base], the root commit of the test. *)
Definition recursiveBase : git2go.Commit := BuildCommit [] (filesOf None None).

(** [ours[i]] and [theirs[i]] of the test: [ours[0]] and [theirs[0]] start
    from [base]; each further pair merges the pair before it, crosswise,
    taking over the file of the other side as it was one step earlier and
    moving its own file one step on. *)
Fixpoint crissCross (i : nat) : git2go.Commit * git2go.Commit :=
  match i with
  | O => (BuildCommit [recursiveBase] (filesOf (Some (oursLine 0)) None),
          BuildCommit [recursiveBase] (filesOf None (Some (theirsLine 0))))
  | S j =>
      let '(o, t) := crissCross j in
      (BuildCommit [o; t] (filesOf (Some (oursLine (S j))) (Some (theirsLine j))),
       BuildCommit [t; o] (filesOf (Some (oursLine j)) (Some (theirsLine (S j)))))
  end.

Definition oursAt (i : nat) : git2go.Commit := (crissCross i).1.
Definition theirsAt (i : nat) : git2go.Commit := (crissCross i).2.

(** The tree of a clean merge of [ours[i]] and [theirs[i]]. *)
Definition cleanTree (i : nat) : gmap string string :=
  filesOf (Some (oursLine i)) (Some (theirsLine i)).

(** The tree of a merge of [ours[i]] and [theirs[i]] with the file [theirs]
    in conflict. *)
Definition conflictTree (i : nat) : gmap string string :=
  filesOf (Some (oursLine i))
          (Some (git2go.markers (Some (theirsLine (pred i))) (Some (theirsLine i)))).

(** The length of the longest line of parents from a commit to a root. *)
Fixpoint height (c : git2go.Commit) : nat :=
  match c with
  | git2go.mkCommit _ ps _ _ _ =>
      S ((fix highest (ps : list git2go.Commit) : nat :=
            match ps with
            | [] => 0%nat
            | p :: ps' => Nat.max (height p) (highest ps')
            end) ps)
  end.

(** A repository at [/repo] in which the revisions [ours] and [theirs] name
    the tips of a criss-cross history of [n] patterns. *)
Definition crissCrossWorld (n : nat) : git2go.World :=
  {| git2go.repos := {[ "/repo" := {[ "ours" := oursAt n; "theirs" := theirsAt n ]} ]};
     git2go.opened := [] |}.

(** The merge request of [TestMerge_recursive]. *)
Definition recursiveRequest : git2go.MergeCommand :=
  request "/repo" "John Doe" "john.doe@example.com" "" "" git2go.ZeroTime
          "Merge message" "ours" "theirs" false.

(** The file-level merge cannot combine two different contents of the file
    [theirs] of the test, each a single line. *)
Definition oneLineConflicts (mergeFile : string -> string -> string -> option string) : Prop :=
  forall base i j, i <> j -> mergeFile base (theirsLine i) (theirsLine j) = None.

(** A criss-cross history of the same shape in which the crosswise merges
    agree: the first pair is the one of the test, and every further pair
    merges the pair before it, crosswise, into the tree with both files. *)
Fixpoint calmCrissCross (i : nat) : git2go.Commit * git2go.Commit :=
  match i with
  | O => (BuildCommit [recursiveBase] (filesOf (Some (oursLine 0)) None),
          BuildCommit [recursiveBase] (filesOf None (Some (theirsLine 0))))
  | S j =>
      let '(o, t) := calmCrissCross j in
      (BuildCommit [o; t] (cleanTree 0), BuildCommit [t; o] (cleanTree 0))
  end.

(** Two tips on top of [calmCrissCross n], merging it crosswise once more:
    ours adds the file [a], theirs adds the file [b]. *)
Definition calmTips (n : nat) : git2go.Commit * git2go.Commit :=
  let '(o, t) := calmCrissCross n in
  (BuildCommit [o; t] (<[ "a" := "a" +:+ nl ]> (cleanTree 0)),
   BuildCommit [t; o] (<[ "b" := "b" +:+ nl ]> (cleanTree 0))).

(** A repository at [/repo] in which the revisions [ours] and [theirs] name
    the tips of that history, of [n + 1] criss-cross patterns. *)
Definition calmWorld (n : nat) : git2go.World :=
  {| git2go.repos := {[ "/repo" := {[ "ours" := (calmTips n).1; "theirs" := (calmTips n).2 ]} ]};
     git2go.opened := [] |}.

(** * Building the cleaner, and the statistics of the pool *)

(** ** command: the handle of a running command *)

Module command.

(** What the caller of [repo.Exec] observes of the [*command.Command] it gets:
    the error of starting the command, what a [bufio.Scanner] makes of its
    standard output, and the error of [cmd.Wait()]. *)
Record Command : Type := mkCommand {
  startErr : option string;
  scanner : bufio.Scanner;
  waitErr : option string
}.

(** What the caller of [command.New] observes of a process that it reads with
    [io.ReadAll]: the error of starting it, the bytes read and the error of
    reading, and the error of [cmd.Wait()]. *)
Record Process : Type := mkProcess {
  procStartErr : option string;
  procOutput : string;
  procReadErr : option string;
  procWaitErr : option string
}.

End command.

(** ** internalrefs: [NewCleaner] and [buildLookupTable] *)

Module cleaner.

(** What [NewCleaner] can return: an error of [repo.Exec], [cmd.Wait],
    [scanner.Err] or [updateref.New], passed through as it is, or
    [fmt.Errorf("failed to parse git refs")]. *)
Inductive error : Type :=
| ErrCollab (err : string)
| ErrParseRefs.

(** [map[string][]git.ReferenceName] *)
Abbreviation Table := (gmap string (list string)) (only parsing).

(** The command of [buildLookupTable].  [InternalRefPrefixes] is
    [git.InternalRefPrefixes], a constant of package git. *)
Definition forEachRefCmd (InternalRefPrefixes : list string) : objectpool.SubCmd :=
  {| objectpool.Name := "for-each-ref";
     objectpool.Flags := [objectpool.ValueFlag "--format" "%(objectname) %(refname)"];
     objectpool.Args := InternalRefPrefixes |}.

(** The loop of [buildLookupTable] over the lines of the command, from the
    table [out] on; the warning it logs before failing is left out. *)
Fixpoint scanRefs (lines : list string) (out : Table) : result error Table :=
  match lines with
  | [] => Ok out
  | line :: rest =>
      match SplitN line " "%char 2 with
      | [p0; p1] =>
          if negb (len p0 =? 40) then Err ErrParseRefs
          else scanRefs rest (<[p0 := default [] (out !! p0) ++ [p1]]> out)
      | _ => Err ErrParseRefs
      end
  end.

(** [func buildLookupTable(ctx, repo) (map[string][]git.ReferenceName, error)];
    [Exec] is [repo.Exec]. *)
Definition buildLookupTable (Exec : objectpool.SubCmd -> command.Command)
    (InternalRefPrefixes : list string) : result error Table :=
  let cmd := Exec (forEachRefCmd InternalRefPrefixes) in
  match command.startErr cmd with
  | Some e => Err (ErrCollab e)
  | None =>
      match scanRefs (bufio.Text (command.scanner cmd)) ∅ with
      | Err e => Err e
      | Ok out =>
          match command.waitErr cmd with
          | Some e => Err (ErrCollab e)
          | None =>
              match bufio.Err (command.scanner cmd) with
              | Some e => Err (ErrCollab e)
              | None => Ok out
              end
          end
      end
  end.

(** [func NewCleaner(ctx, repo, forEach)]: an error, or the cleaner together
    with the updater it points to.  [newErr] is the error of
    [updateref.New(ctx, repo)]. *)
Definition NewCleaner {CB : Type} (Exec : objectpool.SubCmd -> command.Command)
    (InternalRefPrefixes : list string) (newErr : option string)
    (forEach : option (internalrefs.ForEachFunc CB))
  : result error (internalrefs.Cleaner CB * updateref.Updater) :=
  match buildLookupTable Exec InternalRefPrefixes with
  | Err e => Err e
  | Ok table =>
      match newErr with
      | Some e => Err (ErrCollab e)
      | None =>
          Ok ({| internalrefs.forEach := forEach; internalrefs.table := table |},
              updateref.New false)
      end
  end.

End cleaner.

(** ** strconv and bytes, as [sizeDir] uses them *)

Module strconv.

(** [strconv.ErrSyntax] and [strconv.ErrRange] *)
Inductive Kind : Type := ErrSyntax | ErrRange.

(** [*strconv.NumError]; [Cause] is its field [Err]. *)
Record NumError : Type := mkNumError {
  Func : string;
  Num : string;
  Cause : Kind
}.

(** [strconv.IntSize] on a 64-bit platform. *)
Definition IntSize : Z := 64.

(** [maxVal] and [cutoff] of [ParseUint] for base 10 and 64 bits. *)
Definition maxVal : Z := 2 ^ IntSize - 1.
Definition cutoff : Z := maxVal / 10 + 1.

(** [lower(c)]: [c | ('x' - 'X')]. *)
Definition lower (b : Z) : Z := Z.lor b 32.

(** The loop of [ParseUint] over the bytes of a numeral in base 10, from the
    value [n] on. *)
Fixpoint parseDigits (s : string) (n : Z) : result Kind Z :=
  match s with
  | EmptyString => Ok n
  | String c rest =>
      let b := Z.of_N (N_of_ascii c) in
      if (48 <=? b) && (b <=? 57) then
        let d := b - 48 in
        if 10 <=? d then Err ErrSyntax
        else if cutoff <=? n then Err ErrRange
        else
          let n1 := n * 10 + d in
          if maxVal <? n1 then Err ErrRange else parseDigits rest n1
      else if (97 <=? lower b) && (lower b <=? 122) then
        let d := lower b - 97 + 10 in
        if 10 <=? d then Err ErrSyntax
        else if cutoff <=? n then Err ErrRange
        else
          let n1 := n * 10 + d in
          if maxVal <? n1 then Err ErrRange else parseDigits rest n1
      else Err ErrSyntax
  end.

(** [strconv.ParseUint(s, 10, 0)]: the value and the error. *)
Definition ParseUint (s : string) : Z * option NumError :=
  if String.eqb s "" then (0, Some {| Func := "ParseUint"; Num := s; Cause := ErrSyntax |})
  else
    match parseDigits s 0 with
    | Ok n => (n, None)
    | Err ErrSyntax => (0, Some {| Func := "ParseUint"; Num := s; Cause := ErrSyntax |})
    | Err ErrRange => (maxVal, Some {| Func := "ParseUint"; Num := s; Cause := ErrRange |})
    end.

(** [strconv.ParseInt(s, 10, 0)]: the value and the error. *)
Definition ParseInt (s : string) : Z * option NumError :=
  match s with
  | EmptyString => (0, Some {| Func := "ParseInt"; Num := s; Cause := ErrSyntax |})
  | String c rest =>
      let neg := Ascii.eqb c "-" in
      let digits := if Ascii.eqb c "+" || Ascii.eqb c "-" then rest else s in
      let '(un, err) := ParseUint digits in
      match err with
      | Some {| Cause := ErrSyntax |} =>
          (0, Some {| Func := "ParseInt"; Num := s; Cause := ErrSyntax |})
      | _ =>
          let cutoff := 2 ^ (IntSize - 1) in
          if negb neg && (cutoff <=? un) then
            (cutoff - 1, Some {| Func := "ParseInt"; Num := s; Cause := ErrRange |})
          else if neg && (cutoff <? un) then
            (- cutoff, Some {| Func := "ParseInt"; Num := s; Cause := ErrRange |})
          else (if neg then - un else un, None)
      end
  end.

End strconv.

Module bytes.

(** [bytes.Split(s, sep)] for a separator of one byte: the pieces of [s]
    between the occurrences of the separator, all of them. *)
Fixpoint Split (s : string) (sep : ascii) : list string :=
  match s with
  | EmptyString => [EmptyString]
  | String c rest =>
      if Ascii.eqb c sep then EmptyString :: Split rest sep
      else
        match Split rest sep with
        | first :: others => String c first :: others
        | [] => [String c EmptyString]
        end
  end.

End bytes.

(** ** objectpool: [logStats] and [sizeDir] *)

Module poolstats.

(** The horizontal tabulation and the zero byte. *)
Definition tab : ascii := "009"%char.
Definition nul : ascii := "000"%char.

(** What [logStats] can return: an error of a collaborator passed through,
    [fmt.Errorf("malformed du output: %q", sizeLine)], or the error of
    [strconv.ParseInt]. *)
Inductive error : Type :=
| ErrCollab (err : string)
| ErrMalformedDu (sizeLine : string)
| ErrNum (e : strconv.NumError).

(** A value of [logrus.Fields]. *)
Inductive Value : Type :=
| VString (s : string)
| VInt (i : Z).

(** [logrus.Fields] *)
Abbreviation Fields := (gmap string Value) (only parsing).

(** The observable steps of [logStats], in order: a process started with its
    argument vector, a Git command started in the pool, an entry written to
    the log at level Info. *)
Inductive Event : Type :=
| EvRun (argv : list string)
| EvExec (cmd : objectpool.SubCmd)
| EvInfo (msg : string) (fields : Fields).

Section Stats.
(** The collaborators: [command.New] on an argument vector, [o.Repo.Exec],
    [o.FullPath()] and [filepath.Join]. *)
Context (run : list string -> command.Process).
Context (Exec : objectpool.SubCmd -> command.Command).
Context (FullPath : string).
Context (Join : string -> string -> string).

(** [func sizeDir(ctx, dir string) (int64, error)] *)
Definition sizeDir (dir : string) : M (list Event) error Z :=
  fun log =>
    let argv := ["du"; "-sk"; dir] in
    let cmd := run argv in
    let log' := log ++ [EvRun argv] in
    match command.procStartErr cmd with
    | Some e => (Err (ErrCollab e), log')
    | None =>
        let sizeLine := command.procOutput cmd in
        match command.procReadErr cmd with
        | Some e => (Err (ErrCollab e), log')
        | None =>
            match command.procWaitErr cmd with
            | Some e => (Err (ErrCollab e), log')
            | None =>
                match bytes.Split sizeLine tab with
                | [part0; _] =>
                    match strconv.ParseInt part0 with
                    | (_, Some e) => (Err (ErrNum e), log')
                    | (size, None) => (Ok (int64_wrap (size * 1024)), log')
                    end
                | _ => (Err (ErrMalformedDu sizeLine), log')
                end
            end
        end
    end.

(** The entries of the map literal that [logStats] ranges over, in one of
    the two orders in which the iteration can deliver them. *)
Definition sizeKeys (objectsFirst : bool) : list (string * string) :=
  if objectsFirst
  then [("poolObjectsSize", "objects"); ("poolRefsSize", "refs")]
  else [("poolRefsSize", "refs"); ("poolObjectsSize", "objects")].

(** The first loop of [logStats]. *)
Fixpoint measure (entries : list (string * string)) (fields : Fields)
  : M (list Event) error Fields :=
  match entries with
  | [] => ret fields
  | (key, dir) :: rest =>
      (size <- sizeDir (Join FullPath dir) ;;
       measure rest (<[key := VInt size]> fields))%go
  end.

Definition forEachRefCmd : objectpool.SubCmd :=
  {| objectpool.Name := "for-each-ref";
     objectpool.Flags := [objectpool.Flag "--format=%(objecttype)%00%(refname)"];
     objectpool.Args := ["refs/"] |}.

(** [m[key]++] on a [map[string]int]. *)
Definition increment (key : string) (m : gmap string Z) : gmap string Z :=
  <[key := int64_incr (default 0 (m !! key))]> m.

(** The body of the second loop of [logStats] on the counters
    [danglingRefsByType] and [normalRefsByType]. *)
Definition countRef (counts : gmap string Z * gmap string Z) (line : string)
  : gmap string Z * gmap string Z :=
  match SplitN line nul 2 with
  | [objectType; refname] =>
      if String.prefix objectpool.danglingObjectNamespace refname
      then (increment objectType counts.1, counts.2)
      else (counts.1, increment objectType counts.2)
  | _ => counts
  end.

(** The last loop of [logStats]. *)
Definition report (counts : gmap string Z * gmap string Z) (fields : Fields) : Fields :=
  fold_left
    (fun fields key =>
       <["normal." +:+ key +:+ ".ref" := VInt (default 0 (counts.2 !! key))]>
         (<["dangling." +:+ key +:+ ".ref" := VInt (default 0 (counts.1 !! key))]> fields))
    ["blob"; "commit"; "tag"; "tree"] fields.

(** [func (o *ObjectPool) logStats(ctx, when string) error]; [objectsFirst]
    is the order in which the iteration over the map literal delivers its
    two entries. *)
Definition logStats (objectsFirst : bool) (when : string) : M (list Event) error unit :=
  (fields <- measure (sizeKeys objectsFirst) {[ "when" := VString when ]} ;;
   fun log =>
     let forEachRef := Exec forEachRefCmd in
     let log' := log ++ [EvExec forEachRefCmd] in
     match command.startErr forEachRef with
     | Some e => (Err (ErrCollab e), log')
     | None =>
         let counts :=
           fold_left countRef (bufio.Text (command.scanner forEachRef)) (∅, ∅) in
         match bufio.Err (command.scanner forEachRef) with
         | Some e => (Err (ErrCollab e), log')
         | None =>
             match command.waitErr forEachRef with
             | Some e => (Err (ErrCollab e), log')
             | None =>
                 (Ok tt, log' ++ [EvInfo "pool dangling ref stats" (report counts fields)])
             end
         end
     end)%go.

End Stats.

End poolstats.

(** * Vocabulary of the cleaner's table and of the statistics *)

(** A line [<sha> <refname>] that [buildLookupTable] accepts, read: the text
    before the first space, of 40 bytes, and the text after it. *)
Definition listedRef (line : string) : option (string * string) :=
  match cut " " line with
  | Some (sha, name) => if (String.length sha =? 40)%nat then Some (sha, name) else None
  | None => None
  end.

(** The reference names that the lines give for [sha], in order. *)
Definition namesAt (sha : string) (lines : list string) : list string :=
  omap (fun line =>
          match listedRef line with
          | Some (s, name) => if decide (s = sha) then Some name else None
          | None => None
          end) lines.

(** A record of the object map for an unchanged object: twice the same
    OID. *)
Definition isUnchanged (line : string) : bool :=
  match recordOf line with
  | Some (o, n) => bool_decide (o = n)
  | None => false
  end.

(** The object map without the records of unchanged objects. *)
Definition noUnchanged (lines : list string) : list string :=
  List.filter (fun line => negb (isUnchanged line)) lines.

(** The kind of a step of [FetchFromOrigin]: what was called, without its
    arguments and outcome; a Git invocation keeps the name of its command. *)
Inductive Step : Type :=
| SInit
| SCleanStaleData
| SLogStats (when : string)
| SGit (name : string)
| SCreate
| SCommit.

Definition stepOf (ev : objectpool.Event) : Step :=
  match ev with
  | objectpool.EvInit => SInit
  | objectpool.EvCleanStaleData => SCleanStaleData
  | objectpool.EvLogStats when => SLogStats when
  | objectpool.EvExec cmd _ _ => SGit (objectpool.Name cmd)
  | objectpool.EvCreate _ _ => SCreate
  | objectpool.EvCommit _ _ => SCommit
  end.

(** The steps of a complete [FetchFromOrigin] that rescues [k] objects. *)
Definition plan (k : nat) : list Step :=
  [SInit; SCleanStaleData; SLogStats "before fetch"; SGit "fetch"; SGit "fsck"]
  ++ replicate k SCreate
  ++ [SCommit; SLogStats "after fetch"; SGit "pack-refs"; SGit "repack"].

(** A part of a run follows the plans [plans]: the steps it took are the
    beginning of one of them, and all of one of them if it returned without
    error. *)
Definition follows {X A} (plans : list Step -> Prop) (w : objectpool.World X)
    (rw : result objectpool.error A * objectpool.World X) : Prop :=
  exists evs,
    objectpool.log rw.2 = objectpool.log w ++ evs /\
    (exists seg, plans seg /\ map stepOf evs `prefix_of` seg) /\
    (forall a, rw.1 = Ok a -> plans (map stepOf evs)).

(** The plans made of one of [p1] followed by one of [p2]. *)
Definition andThen (p1 p2 : list Step -> Prop) : list Step -> Prop :=
  fun seg => exists s1 s2, seg = s1 ++ s2 /\ p1 s1 /\ p2 s2.

(** The plans of [rescueDanglingObjects]: the scan, the creations, the
    commit. *)
Definition rescuePlans : list Step -> Prop :=
  fun seg => exists k, seg = [SGit "fsck"] ++ replicate k SCreate ++ [SCommit].

(** The statements of [FetchFromOrigin] that can return an error, in the
    order of the source: [o.Init], [origin.Path()], [CleanStaleData],
    [o.logStats] before the fetch, the fetch, [o.rescueDanglingObjects],
    [o.logStats] after the fetch, pack-refs, [o.repackPool]. *)
Definition stages {X} `{updateref.Backend} `{objectpool.Collaborators X}
    (origin : result string string)
  : list (M (objectpool.World X) objectpool.error unit) :=
  [ objectpool.Init;
    match origin with
    | Ok _ => ret tt
    | Err e => fail (objectpool.ErrCollab e)
    end;
    objectpool.CleanStaleData;
    objectpool.logStats "before fetch";
    objectpool.fetch (match origin with Ok path => path | Err _ => "" end);
    objectpool.rescueDanglingObjects;
    objectpool.logStats "after fetch";
    objectpool.packRefs;
    objectpool.repackPool ].

(** Statements run one after the other, up to the first that returns an
    error. *)
Fixpoint runStages {S E} (ms : list (M S E unit)) : M S E unit :=
  match ms with
  | [] => ret tt
  | m :: rest => (m ;;; runStages rest)%go
  end.

(** A step that reported no error, as far as the step shows it: a Git
    invocation that started and exited without error and, for [git fsck],
    whose output was read to its end. *)
Definition succeeded (ev : objectpool.Event) : Prop :=
  match ev with
  | objectpool.EvExec cmd _ out =>
      objectpool.startErr out = None /\ objectpool.waitErr out = None /\
      (objectpool.Name cmd = "fsck" -> objectpool.scanErr out = None)
  | _ => True
  end.

(** A part of a run swallows no error of a Git invocation: if it returns
    without error, every invocation among its steps succeeded. *)
Definition honest {X A} (w : objectpool.World X)
    (rw : result objectpool.error A * objectpool.World X) : Prop :=
  exists evs,
    objectpool.log rw.2 = objectpool.log w ++ evs /\
    (forall a, rw.1 = Ok a -> Forall succeeded evs).

(** The number that the decimal digits [d] stand for, read after the digits
    of [acc]. *)
Fixpoint uintValue (d : Decimal.uint) (acc : Z) : Z :=
  match d with
  | Decimal.Nil => acc
  | Decimal.D0 l => uintValue l (acc * 10 + 0)
  | Decimal.D1 l => uintValue l (acc * 10 + 1)
  | Decimal.D2 l => uintValue l (acc * 10 + 2)
  | Decimal.D3 l => uintValue l (acc * 10 + 3)
  | Decimal.D4 l => uintValue l (acc * 10 + 4)
  | Decimal.D5 l => uintValue l (acc * 10 + 5)
  | Decimal.D6 l => uintValue l (acc * 10 + 6)
  | Decimal.D7 l => uintValue l (acc * 10 + 7)
  | Decimal.D8 l => uintValue l (acc * 10 + 8)
  | Decimal.D9 l => uintValue l (acc * 10 + 9)
  end.

(** How often the byte [c] occurs in [s]. *)
Fixpoint countByte (c : ascii) (s : string) : nat :=
  match s with
  | EmptyString => O
  | String c' s' => ((if Ascii.eqb c' c then 1 else 0) + countByte c s')%nat
  end.

(** Whether [logStats] counts the line for the object type [ty], among the
    references below [refs/dangling/] ([dangling = true]) or among the
    others. *)
Definition refCounted (dangling : bool) (ty : string) (line : string) : bool :=
  match cut poolstats.nul line with
  | Some (t, name) =>
      String.eqb t ty &&
      Bool.eqb (String.prefix objectpool.danglingObjectNamespace name) dangling
  | None => false
  end.

(** How many of the lines [logStats] counts so. *)
Definition countRefs (dangling : bool) (ty : string) (lines : list string) : nat :=
  length (List.filter (refCounted dangling ty) lines).

(** The object types that [logStats] reports. *)
Definition reportedTypes : list string := ["blob"; "commit"; "tag"; "tree"].

(** * Example data for the table and the statistics *)

(** A listing of the internal references of [exampleRefs], as
    [git for-each-ref] prints it for [buildLookupTable]. *)
Definition exampleListing : list string :=
  [shaA +:+ " " +:+ "refs/keep-around/a"; shaA +:+ " " +:+ "refs/merge-requests/1/head"].

Definition examplePrefixes : list string :=
  ["refs/keep-around/"; "refs/merge-requests/"].

(** A repository whose every command prints [exampleListing] and exits
    without error. *)
Definition exampleExec (cmd : objectpool.SubCmd) : command.Command :=
  {| command.startErr := None;
     command.scanner := bufio.mkScanner exampleListing None;
     command.waitErr := None |}.

(** A [du] that finds 12 kilobytes in every directory but the one named
    [bad], for which it prints the path it is given, a path that holds a
    tabulation. *)
Definition exampleDu (argv : list string) : command.Process :=
  {| command.procStartErr := None;
     command.procOutput :=
       if bool_decide (argv = ["du"; "-sk"; "bad" +:+ String poolstats.tab "dir"])
       then "4" +:+ String poolstats.tab ("bad" +:+ String poolstats.tab "dir")
       else "12" +:+ String poolstats.tab "/pool/dir";
     command.procReadErr := None;
     command.procWaitErr := None |}.

(** A pool with a branch, a tag and two rescued objects; the listing of its
    references ends with a line that [logStats] cannot split. *)
Definition exampleRefTypes (cmd : objectpool.SubCmd) : command.Command :=
  {| command.startErr := None;
     command.scanner :=
       bufio.mkScanner
         ["commit" +:+ String poolstats.nul "refs/remotes/origin/heads/main";
          "tag" +:+ String poolstats.nul "refs/remotes/origin/tags/v1";
          "commit" +:+ String poolstats.nul "refs/dangling/" +:+ shaC;
          "blob" +:+ String poolstats.nul "refs/dangling/" +:+ shaD;
          "warning: ignored"] None;
     command.waitErr := None |}.

(** [filepath.Join] on the paths of the examples. *)
Definition exampleJoin (dir name : string) : string := dir +:+ "/" +:+ name.
(** * Properties *)

(** ** The monad *)

Section MonadLaws.
Context {S E : Type}.

Lemma bind_ok {A B} (m : M S E A) (k : A -> M S E B) s a s' :
  m s = (Ok a, s') -> bind m k s = k a s'.
Proof. intros Hm. unfold bind. now rewrite Hm. Qed.

Lemma bind_err {A B} (m : M S E A) (k : A -> M S E B) s e s' :
  m s = (Err e, s') -> bind m k s = (Err e, s').
Proof. intros Hm. unfold bind. now rewrite Hm. Qed.

Lemma bind_ret_l {A B} (a : A) (k : A -> M S E B) s : bind (ret a) k s = k a s.
Proof. reflexivity. Qed.

Lemma bind_assoc {A B C} (m : M S E A) (k : A -> M S E B) (h : B -> M S E C) s :
  bind (bind m k) h s = bind m (fun a => bind (k a) h) s.
Proof.
  unfold bind. destruct (m s) as [[a|e] s1]; [|reflexivity].
  destruct (k a s1) as [[b|e] s2]; reflexivity.
Qed.

Lemma bind_ext {A B} (m : M S E A) (k1 k2 : A -> M S E B) s :
  (forall a s', k1 a s' = k2 a s') -> bind m k1 s = bind m k2 s.
Proof. intros Hk. unfold bind. destruct (m s) as [[a|e] s1]; [apply Hk | reflexivity]. Qed.

(** A relation between the state before and after that every step of a
    computation respects is respected by the whole computation. *)
Lemma bind_preserves {A B} (R : S -> S -> Prop) (m : M S E A) (k : A -> M S E B) :
  (forall s1 s2 s3, R s1 s2 -> R s2 s3 -> R s1 s3) ->
  (forall s, R s (m s).2) ->
  (forall a s, R s (k a s).2) ->
  forall s, R s (bind m k s).2.
Proof.
  intros Htrans Hm Hk s. unfold bind.
  specialize (Hm s). destruct (m s) as [[a|e] s1]; simpl in *; [|assumption].
  eapply Htrans; [exact Hm | apply Hk].
Qed.

Lemma forEachM_preserves {A} (R : S -> S -> Prop) (f : A -> M S E unit) xs :
  (forall s, R s s) ->
  (forall s1 s2 s3, R s1 s2 -> R s2 s3 -> R s1 s3) ->
  (forall x s, R s (f x s).2) ->
  forall s, R s (forEachM f xs s).2.
Proof.
  intros Hrefl Htrans Hf. induction xs as [|x xs IH]; intros s; simpl.
  - apply Hrefl.
  - apply bind_preserves; auto.
Qed.

End MonadLaws.

(** ** Go strings *)

Lemma cut_app sep a b : hasByte sep a = false -> cut sep (a +:+ String sep b) = Some (a, b).
Proof.
  induction a as [|c a IH]; simpl; intros Ha.
  - now rewrite Ascii.eqb_refl.
  - apply orb_false_iff in Ha as [Hc Ha]. rewrite Hc, (IH Ha). reflexivity.
Qed.

Lemma cut_Some sep s a b :
  cut sep s = Some (a, b) -> s = a +:+ String sep b /\ hasByte sep a = false.
Proof.
  revert a. induction s as [|c s IH]; simpl; intros a Hcut; [discriminate|].
  destruct (Ascii.eqb c sep) eqn:Hc.
  - apply Ascii.eqb_eq in Hc. inversion Hcut; subst. split; reflexivity.
  - destruct (cut sep s) as [[a' b']|] eqn:Hs; [|discriminate].
    inversion Hcut; subst. destruct (IH a' eq_refl) as [-> Ha'].
    split; [reflexivity|]. simpl. now rewrite Hc.
Qed.

Lemma cut_None sep s : cut sep s = None -> hasByte sep s = false.
Proof.
  induction s as [|c s IH]; simpl; [reflexivity|].
  destruct (Ascii.eqb c sep); [discriminate|].
  destruct (cut sep s) as [[a b]|]; [discriminate|]. intros _. now apply IH.
Qed.

Lemma SplitN_2_fields a b :
  hasByte " " a = false -> SplitN (a +:+ " " +:+ b) " " 2 = [a; b].
Proof.
  intros Ha. change (a +:+ " " +:+ b) with (a +:+ String " " b).
  cbn [SplitN]. now rewrite (cut_app " " a b Ha).
Qed.

Lemma SplitN_3_fields a b c :
  hasByte " " a = false -> hasByte " " b = false ->
  SplitN (a +:+ " " +:+ b +:+ " " +:+ c) " " 3 = [a; b; c].
Proof.
  intros Ha Hb.
  change (a +:+ " " +:+ b +:+ " " +:+ c) with (a +:+ String " " (b +:+ String " " c)).
  cbn [SplitN].
  rewrite (cut_app " " a (b +:+ String " " c) Ha), (cut_app " " b c Hb). reflexivity.
Qed.

(** ** int64 counters *)

Lemma int64_wrap_small z : - 2 ^ 63 <= z < 2 ^ 63 -> int64_wrap z = z.
Proof. intros Hz. unfold int64_wrap. rewrite Z.mod_small; lia. Qed.

Lemma int64_incr_wrap z : int64_incr (int64_wrap z) = int64_wrap (z + 1).
Proof.
  unfold int64_incr, int64_wrap. f_equal.
  replace (z + 2 ^ 63 + (((z + 2 ^ 63) mod 2 ^ 64 - 2 ^ 63 + 1) - (z + 2 ^ 63)))
    with ((z + 2^63) mod 2^64 - 2^63 + 1) by lia.
  replace ((z + 2 ^ 63) mod 2 ^ 64 - 2 ^ 63 + 1 + 2 ^ 63)
    with ((z + 2 ^ 63) mod 2 ^ 64 + 1) by lia.
  replace (z + 1 + 2 ^ 63) with ((z + 2 ^ 63) + 1) by lia.
  rewrite <- (Zplus_mod_idemp_l (z + 2 ^ 63) 1). reflexivity.
Qed.

(** ** Decimal numbers *)

Lemma hasByte_string_of_uint c d :
  (forall k, In k ["0"; "1"; "2"; "3"; "4"; "5"; "6"; "7"; "8"; "9"]%char -> Ascii.eqb k c = false) ->
  hasByte c (NilEmpty.string_of_uint d) = false.
Proof.
  intros Hc.
  induction d as [|d IH|d IH|d IH|d IH|d IH|d IH|d IH|d IH|d IH|d IH];
    cbn [NilEmpty.string_of_uint hasByte]; [reflexivity|..];
    rewrite IH, Hc; [reflexivity | cbn; tauto ..].
Qed.

(** A byte that is no digit does not occur in the decimal form of a number
    that is not negative. *)
Lemma hasByte_itoa c z :
  0 <= z ->
  (forall k, In k ["0"; "1"; "2"; "3"; "4"; "5"; "6"; "7"; "8"; "9"]%char -> Ascii.eqb k c = false) ->
  hasByte c (itoa z) = false.
Proof.
  intros Hz Hc. unfold itoa. destruct z as [|p|p]; [|  |lia].
  - change (Ascii.eqb "0" c || false = false). rewrite (Hc "0"%char); [reflexivity | cbn; tauto].
  - cbn [Z.to_int NilZero.string_of_int].
    assert (Hs : NilZero.string_of_uint (Pos.to_uint p) = NilEmpty.string_of_uint (Pos.to_uint p))
      by (destruct (Pos.to_uint p) eqn:Hp;
          [now apply DecimalPos.Unsigned.to_uint_nonnil in Hp|reflexivity..]).
    rewrite Hs. now apply hasByte_string_of_uint.
Qed.

(** ** internalrefs: records and lines *)

Section CleanerFacts.
Context {CB : Type} `{updateref.Backend}.
Import internalrefs.

Implicit Types (c : Cleaner CB) (w : World CB) (line : string) (lines : list string).

Lemma header_not_wellFormed : ~ wellFormedRecord filterRepoCommitMapHeader.
Proof.
  intros (o & n & Heq & Ho & Hlo & _).
  assert (Hcut : cut " " filterRepoCommitMapHeader = Some (o, n)).
  { rewrite Heq. change (o +:+ " " +:+ n) with (o +:+ String " " n). now apply cut_app. }
  vm_compute in Hcut. inversion Hcut; subst. discriminate.
Qed.

Lemma applyLine_header c i : applyLine c i filterRepoCommitMapHeader = ret tt.
Proof. reflexivity. Qed.

Lemma len_40 s : (len s =? 40) = true <-> String.length s = 40%nat.
Proof. unfold len. rewrite Z.eqb_eq. lia. Qed.

Lemma applyLine_wellFormed c i oldOID newOID :
  hasByte " " oldOID = false ->
  String.length oldOID = 40%nat -> String.length newOID = 40%nat ->
  applyLine c i (oldOID +:+ " " +:+ newOID) =
    if String.eqb oldOID newOID then ret tt else processEntry c oldOID newOID.
Proof.
  intros Ho Hlo Hln. unfold applyLine.
  destruct (String.eqb_spec (oldOID +:+ " " +:+ newOID) filterRepoCommitMapHeader) as [Hh|_].
  { exfalso. apply header_not_wellFormed. rewrite <- Hh. now exists oldOID, newOID. }
  rewrite (SplitN_2_fields _ _ Ho).
  apply len_40 in Hlo, Hln. now rewrite Hlo, Hln.
Qed.

Lemma applyLine_malformed c i line :
  malformedRecord line -> applyLine c i line = fail (ErrInvalidObjectMap (invalidAtLine i)).
Proof.
  intros [Hh Hwf]. unfold applyLine.
  destruct (String.eqb_spec line filterRepoCommitMapHeader) as [?|_]; [contradiction|].
  cbn [SplitN]. destruct (cut " " line) as [[a b]|] eqn:Hcut; [|reflexivity].
  destruct (len a =? 40) eqn:Ha; [|reflexivity].
  destruct (len b =? 40) eqn:Hb; [|reflexivity].
  exfalso. apply Hwf. apply cut_Some in Hcut as [-> Hsp].
  exists a, b. repeat split; try assumption; now apply len_40.
Qed.

(** Every line is the header, a well-formed record or a malformed record. *)
Lemma line_cases line :
  line = filterRepoCommitMapHeader \/ wellFormedRecord line \/ malformedRecord line.
Proof.
  destruct (String.eqb_spec line filterRepoCommitMapHeader) as [?|Hh]; [now left|right].
  destruct (cut " " line) as [[a b]|] eqn:Hcut.
  - destruct (len a =? 40) eqn:Ha; [destruct (len b =? 40) eqn:Hb|].
    + left. apply cut_Some in Hcut as [-> Hsp]. exists a, b.
      repeat split; try assumption; now apply len_40.
    + right. split; [assumption|]. intros (o & n & -> & Ho & _ & Hn).
      change (o +:+ " " +:+ n) with (o +:+ String " " n) in Hcut.
      rewrite (cut_app _ _ _ Ho) in Hcut. inversion Hcut; subst.
      apply len_40 in Hn. congruence.
    + right. split; [assumption|]. intros (o & n & -> & Ho & Hlo & _).
      change (o +:+ " " +:+ n) with (o +:+ String " " n) in Hcut.
      rewrite (cut_app _ _ _ Ho) in Hcut. inversion Hcut; subst.
      apply len_40 in Hlo. congruence.
  - right. split; [assumption|]. intros (o & n & -> & Ho & _).
    change (o +:+ " " +:+ n) with (o +:+ String " " n) in Hcut.
    rewrite (cut_app _ _ _ Ho) in Hcut. discriminate.
Qed.

(** ** internalrefs: what the loop leaves alone *)

Lemma quiet_refl w : quiet w w.
Proof. repeat split. exists []. split; [now rewrite app_nil_r | intros []]. Qed.

Lemma quiet_trans w1 w2 w3 : quiet w1 w2 -> quiet w2 w3 -> quiet w1 w3.
Proof.
  intros (Hr & Hs & Hd & evs & Hl & Hn) (Hr' & Hs' & Hd' & evs' & Hl' & Hn').
  repeat split; try congruence.
  exists (evs ++ evs'). split.
  - rewrite Hl', Hl. now rewrite app_assoc.
  - rewrite in_app_iff. tauto.
Qed.

Lemma callForEach_quiet (f : ForEachFunc CB) o n p w : quiet w (callForEach f o n p w).2.
Proof.
  unfold callForEach. destruct (f o n p (cb w)) as [[msg|] cb']; simpl;
    (repeat split; eexists; split; [reflexivity|]; intros [?|[]]; discriminate).
Qed.

Lemma updaterDelete_quiet ref w : quiet w (updaterDelete ref w).2.
Proof.
  unfold updaterDelete, updateref.Delete, updateref.stage.
  destruct (updateref.state (updater w)) eqn:Hst; simpl;
    (repeat split; try (symmetry; assumption);
     eexists; split; [reflexivity|]; intros [?|[]]; discriminate).
Qed.

Lemma processEntry_quiet c o n w : quiet w (processEntry c o n w).2.
Proof.
  unfold processEntry. apply bind_preserves.
  - exact quiet_trans.
  - intros s. destruct (forEach c); [apply callForEach_quiet | apply quiet_refl].
  - intros _ s. destruct (negb _); [apply quiet_refl|].
    apply forEachM_preserves;
      [exact quiet_refl | exact quiet_trans | intros; apply updaterDelete_quiet].
Qed.

Lemma applyLine_quiet c i line w : quiet w (applyLine c i line w).2.
Proof.
  unfold applyLine. destruct (String.eqb line _); [apply quiet_refl|].
  destruct (SplitN line " " 2) as [|a [|b [|? ?]]]; try apply quiet_refl.
  destruct (_ || _); [apply quiet_refl|].
  destruct (String.eqb a b); [apply quiet_refl | apply processEntry_quiet].
Qed.

Lemma scanLoop_quiet c lines : forall i w, quiet w (scanLoop c i lines w).2.
Proof.
  induction lines as [|line rest IH]; intros i w; simpl.
  - apply quiet_refl.
  - apply bind_preserves;
      [exact quiet_trans | intros; apply applyLine_quiet | intros; apply IH].
Qed.

Lemma eventsSince_app w w' evs : log w' = log w ++ evs -> eventsSince w w' = evs.
Proof. intros Hl. unfold eventsSince. rewrite Hl. now rewrite drop_app_length. Qed.

Lemma eventsSince_trans w1 w2 w3 :
  quiet w1 w2 -> quiet w2 w3 -> eventsSince w1 w3 = eventsSince w1 w2 ++ eventsSince w2 w3.
Proof.
  intros (_ & _ & _ & evs & Hl & _) (_ & _ & _ & evs' & Hl' & _).
  rewrite (eventsSince_app _ _ _ Hl), (eventsSince_app _ _ _ Hl').
  apply eventsSince_app. rewrite Hl', Hl. now rewrite app_assoc.
Qed.

Lemma quiet_no_commit w w' : quiet w w' -> ~ In EvCommit (eventsSince w w').
Proof. intros (_ & _ & _ & evs & Hl & Hn). now rewrite (eventsSince_app _ _ _ Hl). Qed.

Lemma sound_ret w : sound w (ret tt w).
Proof.
  split; [apply quiet_refl|]. simpl. unfold eventsSince. rewrite drop_all. intros ? ? ? ? [].
Qed.

Lemma sound_fail e w : sound w (fail (A:=unit) e w).
Proof.
  split; [apply quiet_refl|]. simpl. unfold eventsSince. rewrite drop_all. intros ? ? ? ? [].
Qed.

Lemma sound_bind (m : M (World CB) error unit) (k : unit -> M (World CB) error unit) w :
  sound w (m w) -> (forall a w1, sound w1 (k a w1)) -> sound w (bind m k w).
Proof.
  intros [Hq Hf] Hk. unfold bind. destruct (m w) as [[a|e] w1]; simpl in *; [|now split].
  destruct (Hk a w1) as [Hq' Hf']. split.
  - eapply quiet_trans; eassumption.
  - intros o n p msg Hin. rewrite (eventsSince_trans _ _ _ Hq Hq') in Hin.
    apply in_app_iff in Hin as [Hin|Hin].
    + specialize (Hf _ _ _ _ Hin). discriminate.
    + eapply Hf'; eassumption.
Qed.

Lemma sound_callForEach (f : ForEachFunc CB) o n p w : sound w (callForEach f o n p w).
Proof.
  split; [apply callForEach_quiet|].
  unfold callForEach. destruct (f o n p (cb w)) as [[msg|] cb']; simpl;
    (erewrite eventsSince_app by reflexivity);
    intros ? ? ? ? [Heq|[]]; inversion Heq; subst; reflexivity.
Qed.

Lemma sound_updaterDelete ref w : sound w (updaterDelete ref w).
Proof.
  split; [apply updaterDelete_quiet|].
  unfold updaterDelete, updateref.Delete, updateref.stage.
  destruct (updateref.state (updater w)); simpl;
    (erewrite eventsSince_app by reflexivity); intros ? ? ? ? [Heq|[]]; discriminate.
Qed.

Lemma sound_forEachM (f : string -> M (World CB) error unit) xs :
  (forall x w, sound w (f x w)) -> forall w, sound w (forEachM f xs w).
Proof.
  intros Hf. induction xs as [|x xs IH]; intros w; simpl.
  - apply sound_ret.
  - apply sound_bind; [apply Hf | intros _ w1; apply IH].
Qed.

Lemma sound_processEntry c o n w : sound w (processEntry c o n w).
Proof.
  unfold processEntry. apply sound_bind.
  - destruct (forEach c); [apply sound_callForEach | apply sound_ret].
  - intros [] w1. destruct (negb _); [apply sound_ret|].
    apply sound_forEachM. intros; apply sound_updaterDelete.
Qed.

Lemma sound_applyLine c i line w : sound w (applyLine c i line w).
Proof.
  unfold applyLine. destruct (String.eqb line _); [apply sound_ret|].
  destruct (SplitN line " " 2) as [|a [|b [|? ?]]]; try apply sound_fail.
  destruct (_ || _); [apply sound_fail|].
  destruct (String.eqb a b); [apply sound_ret | apply sound_processEntry].
Qed.

Lemma sound_scanLoop c lines : forall i w, sound w (scanLoop c i lines w).
Proof.
  induction lines as [|line rest IH]; intros i w; simpl.
  - apply sound_ret.
  - apply sound_bind; [apply sound_applyLine | intros _ w1; apply IH].
Qed.

(** A malformed record anywhere in the map makes the loop fail. *)
Lemma scanLoop_malformed_fails c lines :
  (exists line, In line lines /\ malformedRecord line) ->
  forall i w, exists e, (scanLoop c i lines w).1 = Err e.
Proof.
  induction lines as [|line rest IH]; intros (bad & Hin & Hbad) i w; [destruct Hin|].
  simpl. unfold bind. destruct (applyLine c i line w) as [[[]|e] w1] eqn:Hstep.
  - destruct Hin as [->|Hin].
    + rewrite (applyLine_malformed _ _ _ Hbad) in Hstep. discriminate.
    + apply IH. now exists bad.
  - now exists e.
Qed.

(** A commit either applies the whole staged batch of an open updater or
    leaves every reference as it was. *)
Lemma Commit_cases (u : updateref.Updater) (st : gmap string string) :
  let '(r, u', st') := updateref.Commit u st in
  (r = Ok tt /\ st' = updateref.applyAll st (updateref.staged u) /\
   updateref.state u = updateref.Open /\ updateref.state u' = updateref.Committed) \/
  ((exists e, r = Err e) /\ st' = st).
Proof.
  unfold updateref.Commit. destruct (updateref.state u) eqn:Hst.
  - destruct (updateref.staged u) as [|op ops] eqn:Hops.
    + left. repeat split.
    + destruct (find _ (op :: ops)) as [bad|].
      * right. split; [eexists|]; reflexivity.
      * destruct (_ || _).
        -- left. repeat split.
        -- right. split; [eexists|]; reflexivity.
  - right. split; [eexists|]; reflexivity.
  - right. split; [eexists|]; reflexivity.
Qed.

(** [c.updater.Commit()] logs one commit; the references are then either
    untouched or the result of applying the whole staged batch. *)
Lemma updaterCommit_spec w :
  log (updaterCommit w).2 = log w ++ [EvCommit] /\
  cb (updaterCommit w).2 = cb w /\
  (((updaterCommit w).1 = Ok tt /\
    refs (updaterCommit w).2 = updateref.applyAll (refs w) (updateref.staged (updater w)) /\
    updateref.state (updater w) = updateref.Open /\
    updateref.state (updater (updaterCommit w).2) = updateref.Committed) \/
   ((exists e, (updaterCommit w).1 = Err e) /\ refs (updaterCommit w).2 = refs w)).
Proof.
  unfold updaterCommit.
  pose proof (Commit_cases (updater w) (refs w)) as Hc.
  destruct (updateref.Commit (updater w) (refs w)) as [[r u'] st'].
  destruct Hc as [(-> & -> & Ho & Hc)|((e & ->) & ->)]; simpl.
  - split; [reflexivity|split; [reflexivity|left]]. repeat split; assumption.
  - split; [reflexivity|split; [reflexivity|right; split; [eexists|]; reflexivity]].
Qed.
Lemma recordOf_Some line o n :
  recordOf line = Some (o, n) <->
  line = o +:+ " " +:+ n /\ hasByte " " o = false /\
  String.length o = 40%nat /\ String.length n = 40%nat.
Proof.
  unfold recordOf. split.
  - destruct (cut " " line) as [[a b]|] eqn:Hcut; [|discriminate].
    destruct (_ && _) eqn:Hl; [|discriminate]. intros Heq; inversion Heq; subst.
    apply cut_Some in Hcut as [-> Hsp]. apply andb_true_iff in Hl as [Ha Hb].
    apply Nat.eqb_eq in Ha, Hb. now repeat split.
  - intros (-> & Ho & Hlo & Hln).
    change (o +:+ " " +:+ n) with (o +:+ String " " n).
    rewrite (cut_app _ _ _ Ho), Hlo, Hln. reflexivity.
Qed.

Lemma recordOf_None line : recordOf line = None <-> ~ wellFormedRecord line.
Proof.
  split.
  - intros Hn (o & n & Hwf). apply (proj2 (recordOf_Some line o n)) in Hwf. congruence.
  - intros Hwf. destruct (recordOf line) as [[o n]|] eqn:Hr; [|reflexivity].
    exfalso. apply Hwf. exists o, n. now apply recordOf_Some.
Qed.


Lemma int64_wrap_0 : int64_wrap 0 = 0.
Proof. reflexivity. Qed.

(** The loop over [pre ++ post] is the loop over [pre], then over [post]
    with the counter advanced by the length of [pre]. *)
Lemma scanLoop_app c pre post : forall z w,
  scanLoop c (int64_wrap z) (pre ++ post) w =
  bind (scanLoop c (int64_wrap z) pre)
       (fun _ => scanLoop c (int64_wrap (z + Z.of_nat (length pre))) post) w.
Proof.
  induction pre as [|line pre IH]; intros z w.
  - simpl. rewrite bind_ret_l. now rewrite Z.add_0_r.
  - cbn [app scanLoop length]. rewrite bind_assoc. apply bind_ext. intros _ w1.
    rewrite int64_incr_wrap, IH.
    replace (z + 1 + Z.of_nat (length pre)) with (z + Z.of_nat (S (length pre))) by lia.
    reflexivity.
Qed.

Lemma forEachM_delete_error refs w e :
  (forEachM updaterDelete refs w).1 = Err e -> exists u, e = ErrUpdater u.
Proof.
  revert w. induction refs as [|ref refs IH]; intros w; simpl; [discriminate|].
  unfold bind. destruct (updaterDelete ref w) as [[[]|e'] w1] eqn:Hd; simpl.
  - apply IH.
  - intros Heq; inversion Heq; subst. unfold updaterDelete in Hd.
    destruct (updateref.Delete ref (updater w)); inversion Hd; subst. now eexists.
Qed.

(** [processEntry] never reports an invalid object map. *)
Lemma processEntry_error c o n w e :
  (processEntry c o n w).1 = Err e -> (exists msg, e = ErrForEach msg) \/ (exists u, e = ErrUpdater u).
Proof.
  unfold processEntry, bind.
  destruct (forEach c) as [f|].
  - unfold callForEach at 1. destruct (f o n _ (cb w)) as [[msg|] cb']; simpl.
    + intros Heq; inversion Heq; subst. left. now eexists.
    + destruct (negb _); simpl; [discriminate|]. intros He. right.
      eapply forEachM_delete_error; exact He.
  - simpl. destruct (negb _); simpl; [discriminate|]. intros He. right.
    eapply forEachM_delete_error; exact He.
Qed.

Lemma applyLine_invalid_inv c i line w msg :
  (applyLine c i line w).1 = Err (ErrInvalidObjectMap msg) ->
  malformedRecord line /\ msg = invalidAtLine i.
Proof.
  destruct (line_cases line) as [->|[(o & n & -> & Ho & Hlo & Hln)|Hbad]].
  - rewrite applyLine_header. discriminate.
  - rewrite (applyLine_wellFormed _ _ _ _ Ho Hlo Hln).
    destruct (String.eqb o n); [discriminate|]. intros He.
    apply processEntry_error in He as [(m & He)|(u & He)]; discriminate.
  - rewrite (applyLine_malformed _ _ _ Hbad). simpl. intros Heq; inversion Heq. now split.
Qed.

(** An invalid-object-map error names the number of lines before the first
    malformed record. *)
Lemma scanLoop_invalid_inv c lines : forall z w msg,
  (scanLoop c (int64_wrap z) lines w).1 = Err (ErrInvalidObjectMap msg) ->
  exists pre bad post,
    lines = pre ++ bad :: post /\ malformedRecord bad /\
    Forall (fun line => ~ malformedRecord line) pre /\
    msg = invalidAtLine (int64_wrap (z + Z.of_nat (length pre))).
Proof.
  induction lines as [|line rest IH]; intros z w msg; simpl; [discriminate|].
  unfold bind. destruct (applyLine c (int64_wrap z) line w) as [[[]|e] w1] eqn:Hstep; simpl.
  - rewrite int64_incr_wrap. intros He.
    destruct (IH _ _ _ He) as (pre & bad & post & -> & Hbad & Hpre & ->).
    exists (line :: pre), bad, post. split; [reflexivity|split; [assumption|split]].
    + constructor; [|assumption]. intros Hm.
      rewrite (applyLine_malformed _ _ _ Hm) in Hstep. discriminate.
    + simpl length. do 2 f_equal. lia.
  - intros Heq; inversion Heq; subst.
    assert (Hs : (applyLine c (int64_wrap z) line w).1 = Err (ErrInvalidObjectMap msg))
      by now rewrite Hstep.
    apply applyLine_invalid_inv in Hs as [Hbad ->].
    exists [], line, rest. split; [reflexivity|split; [assumption|split]].
    + constructor.
    + simpl. now rewrite Z.add_0_r.
Qed.

(** The first malformed record stops the loop with the counter value of its
    line; the world is the one the lines before it produced. *)
Lemma scanLoop_first_malformed c pre bad post w w1 :
  scanLoop c 0 pre w = (Ok tt, w1) -> malformedRecord bad ->
  scanLoop c 0 (pre ++ bad :: post) w =
    (Err (ErrInvalidObjectMap (invalidAtLine (int64_wrap (Z.of_nat (length pre))))), w1).
Proof.
  intros Hpre Hbad. rewrite <- int64_wrap_0 in Hpre |- * at 1.
  rewrite scanLoop_app. rewrite (bind_ok _ _ _ _ _ Hpre). simpl.
  unfold bind. rewrite (applyLine_malformed _ _ _ Hbad). reflexivity.
Qed.

(** The counter only shows in the message of an invalid-object-map error. *)
Lemma applyLine_counter c i j line w :
  (applyLine c i line w).2 = (applyLine c j line w).2 /\
  sameUpToLine (applyLine c i line w).1 (applyLine c j line w).1.
Proof.
  destruct (line_cases line) as [->|[(o & n & -> & Ho & Hlo & Hln)|Hbad]].
  - rewrite !applyLine_header. split; [reflexivity | now left].
  - rewrite !(applyLine_wellFormed _ _ _ _ Ho Hlo Hln). split; [reflexivity | now left].
  - rewrite !(applyLine_malformed _ _ _ Hbad). split; [reflexivity|]. right. now do 2 eexists.
Qed.

Lemma sameUpToLine_Ok_l r : sameUpToLine (Ok tt) r -> r = Ok tt.
Proof. intros [<-|(m1 & m2 & Hd & _)]; [reflexivity | discriminate]. Qed.

Lemma sameUpToLine_Err_l e r : sameUpToLine (Err e) r -> exists e', r = Err e'.
Proof. intros [<-|(m1 & m2 & _ & ->)]; now eexists. Qed.

(** Header lines have no effect on the world the loop produces, wherever
    they stand, and none on its outcome but for the line number. *)
Lemma scanLoop_noHeaders c lines : forall i j w,
  (scanLoop c i lines w).2 = (scanLoop c j (noHeaders lines) w).2 /\
  sameUpToLine (scanLoop c i lines w).1 (scanLoop c j (noHeaders lines) w).1.
Proof.
  induction lines as [|line rest IH]; intros i j w.
  - simpl. split; [reflexivity | now left].
  - destruct (decide (line = filterRepoCommitMapHeader)) as [->|Hne].
    + unfold noHeaders. rewrite filter_cons_False by (intros Hn; now apply Hn).
      fold (noHeaders rest).
      cbn [scanLoop]. rewrite applyLine_header, bind_ret_l. apply IH.
    + unfold noHeaders. rewrite filter_cons_True by assumption. fold (noHeaders rest).
      cbn [scanLoop]. unfold bind.
      destruct (applyLine_counter c i j line w) as [Hw Hr].
      destruct (applyLine c i line w) as [[[]|e] w1], (applyLine c j line w) as [r2 w2];
        simpl in Hw, Hr; subst w2.
      * apply sameUpToLine_Ok_l in Hr as ->. apply IH.
      * destruct (sameUpToLine_Err_l _ _ Hr) as [e' ->]. simpl. split; [reflexivity | exact Hr].
Qed.

(** ** internalrefs: the steps of a run with an open updater *)

Lemma updaterDelete_open ref w :
  updateref.state (updater w) = updateref.Open ->
  (updaterDelete ref w).1 = Ok tt /\
  log (updaterDelete ref w).2 = log w ++ [EvDelete ref] /\
  updateref.state (updater (updaterDelete ref w).2) = updateref.Open.
Proof.
  intros Ho. unfold updaterDelete, updateref.Delete, updateref.stage. rewrite Ho.
  simpl. repeat split.
Qed.

Lemma forEachM_delete_open rs : forall w,
  updateref.state (updater w) = updateref.Open ->
  (forEachM updaterDelete rs w).1 = Ok tt /\
  log (forEachM updaterDelete rs w).2 = log w ++ map EvDelete rs /\
  updateref.state (updater (forEachM updaterDelete rs w).2) = updateref.Open.
Proof.
  induction rs as [|ref rs IH]; intros w Ho; simpl.
  - repeat split; [now rewrite app_nil_r | assumption].
  - destruct (updaterDelete_open ref w Ho) as (Hr & Hl & Ho').
    unfold bind. destruct (updaterDelete ref w) as [r w1]; simpl in *; subst r.
    destruct (IH w1 Ho') as (Hr' & Hl' & Ho'').
    repeat split; [assumption | | assumption].
    rewrite Hl', Hl. now rewrite <- app_assoc.
Qed.

(** With a callback and an open updater, an entry either runs its whole
    block, or stops at the failed call of the callback. *)
Lemma processEntry_open_trace c f o n w :
  forEach c = Some f -> updateref.state (updater w) = updateref.Open ->
  ((processEntry c o n w).1 = Ok tt /\
   log (processEntry c o n w).2 = log w ++ entryBlock c (o, n) /\
   updateref.state (updater (processEntry c o n w).2) = updateref.Open) \/
  (exists msg,
     (processEntry c o n w).1 = Err (ErrForEach msg) /\
     log (processEntry c o n w).2 = log w ++ [EvForEach o n (isPresent c o) (Some msg)]).
Proof.
  intros Hf Ho. unfold processEntry. rewrite Hf. unfold bind, callForEach.
  fold (isPresent c o). fold (refsOf c o).
  destruct (f o n (isPresent c o) (cb w)) as [[msg|] cb'].
  - right. exists msg. split; reflexivity.
  - left. unfold entryBlock. cbn [fst snd].
    destruct (isPresent c o) eqn:Hp; cbn [negb].
    + match goal with |- context [forEachM updaterDelete _ ?w0] =>
        destruct (forEachM_delete_open (refsOf c o) w0 Ho) as (Hr & Hl & Ho') end.
      repeat split; [assumption | | assumption].
      rewrite Hl. simpl. now rewrite <- app_assoc.
    + assert (refsOf c o = []) as ->.
      { unfold refsOf. unfold isPresent in Hp. apply bool_decide_eq_false in Hp.
        destruct (table c !! o) eqn:Ht; [|reflexivity]. exfalso. apply Hp. now eexists. }
      simpl. repeat split. assumption.
Qed.

Lemma entriesOf_header rest :
  entriesOf (filterRepoCommitMapHeader :: rest) = entriesOf rest.
Proof. cbn [entriesOf]. now rewrite decide_True. Qed.

Lemma entriesOf_malformed line rest : malformedRecord line -> entriesOf (line :: rest) = [].
Proof.
  intros [Hh Hwf]. cbn [entriesOf]. rewrite decide_False by assumption.
  apply recordOf_None in Hwf. now rewrite Hwf.
Qed.

Lemma entriesOf_record o n rest :
  hasByte " " o = false -> String.length o = 40%nat -> String.length n = 40%nat ->
  entriesOf ((o +:+ " " +:+ n) :: rest) =
    if String.eqb o n then entriesOf rest else (o, n) :: entriesOf rest.
Proof.
  intros Ho Hlo Hln. cbn [entriesOf].
  rewrite decide_False.
  2:{ intros Hh. apply header_not_wellFormed. rewrite <- Hh. now exists o, n. }
  rewrite (proj2 (recordOf_Some _ o n)) by now repeat split.
  destruct (String.eqb_spec o n), (decide (o = n)); congruence.
Qed.

(** The steps of the loop: the blocks of the entries, in order, up to the
    first failure. *)
Lemma scanLoop_trace c f lines :
  forEach c = Some f -> forall i w,
  updateref.state (updater w) = updateref.Open ->
  exists evs,
    log (scanLoop c i lines w).2 = log w ++ evs /\
    loopOutcome c lines (scanLoop c i lines w).1 evs.
Proof.
  intros Hf. induction lines as [|line rest IH]; intros i w Ho.
  - exists []. split; [simpl; now rewrite app_nil_r | left; now split].
  - cbn [scanLoop].
    destruct (line_cases line) as [->|[(o & n & -> & Hsp & Hlo & Hln)|Hbad]].
    + rewrite applyLine_header, bind_ret_l.
      destruct (IH (int64_incr i) w Ho) as (evs & Hl & Hout). exists evs. split; [exact Hl|].
      unfold loopOutcome in *. now rewrite entriesOf_header.
    + unfold loopOutcome. rewrite (entriesOf_record _ _ _ Hsp Hlo Hln).
      unfold bind. rewrite (applyLine_wellFormed _ _ _ _ Hsp Hlo Hln).
      destruct (String.eqb o n).
      { apply (IH (int64_incr i) w Ho). }
      destruct (processEntry_open_trace c f o n w Hf Ho)
        as [(Hr & Hl & Ho')|(msg & Hr & Hl)];
        destruct (processEntry c o n w) as [r w1]; simpl in Hr, Hl; subst r.
      * destruct (IH (int64_incr i) w1 Ho') as (evs & Hl' & Hout).
        exists (entryBlock c (o, n) ++ evs). split.
        { rewrite Hl', Hl. now rewrite <- app_assoc. }
        destruct Hout as [(-> & ->)|[(pre & e & post & msg & -> & -> & ->)|(msg & -> & ->)]].
        -- left. split; reflexivity.
        -- right; left. exists ((o, n) :: pre), e, post, msg.
           split; [reflexivity|split; [|reflexivity]].
           unfold entryBlocks. simpl. now rewrite <- app_assoc.
        -- right; right. exists msg. split; reflexivity.
      * exists [EvForEach o n (isPresent c o) (Some msg)]. split; [exact Hl|].
        right; left. exists [], (o, n), (entriesOf rest), msg. repeat split.
    + unfold bind. rewrite (applyLine_malformed _ _ _ Hbad). simpl.
      exists []. split; [now rewrite app_nil_r|].
      right; right. eexists. split; [reflexivity|]. now rewrite (entriesOf_malformed _ _ Hbad).
Qed.

End CleanerFacts.

(** ** internalrefs: the claims *)

Section CleanerClaims.
Context {CB : Type} `{updateref.Backend}.
Import internalrefs.

Implicit Types (c : Cleaner CB) (w : World CB) (line : string) (lines : list string).
Implicit Types (err : option string).

(** Over the lines that the scanner delivers, [ApplyObjectMap] is all or
    nothing, whatever the scanner's own error [err].  If one of these lines
    is malformed, or the callback returned an error at some line of the run,
    the operation returns an error, every reference is as before, the
    updater is in the state it was in and no commit was attempted, whatever
    was staged for earlier lines.  And a commit is attempted (or a reference
    changes) only when the loop went through all these lines without error:
    then it is the single, last step of the run and the references are
    either untouched or the result of applying the whole staged batch at
    once. *)
Lemma ApplyObjectMap_all_or_nothing c lines err w :
  let rw := ApplyObjectMap c (bufio.mkScanner lines err) w in
  (((exists line, In line lines /\ malformedRecord line) \/
    (exists o n p msg, In (EvForEach o n p (Some msg)) (eventsSince w rw.2))) ->
   (exists e, rw.1 = Err e) /\
   refs rw.2 = refs w /\
   updateref.state (updater rw.2) = updateref.state (updater w) /\
   ~ In EvCommit (eventsSince w rw.2)) /\
  ((In EvCommit (eventsSince w rw.2) \/ refs rw.2 <> refs w) ->
   exists w1,
     scanLoop c 0 lines w = (Ok tt, w1) /\
     eventsSince w rw.2 = eventsSince w w1 ++ [EvCommit] /\
     ~ In EvCommit (eventsSince w w1) /\
     (refs rw.2 = refs w \/
      refs rw.2 = updateref.applyAll (refs w) (updateref.staged (updater w1)))).
Proof.
  intros rw. subst rw. unfold ApplyObjectMap, bind; cbn [bufio.Text].
  pose proof (sound_scanLoop c lines 0 w) as [Hq Hf].
  pose proof (scanLoop_malformed_fails c lines) as Hbad.
  destruct (scanLoop c 0 lines w) as [[[]|e] w1] eqn:Hloop; simpl in *.
  - (* the loop consumed the whole map *)
    pose proof (updaterCommit_spec w1) as (Hlog & _ & Hrefs).
    assert (Hq' := Hq). destruct Hq' as (Hr1 & _ & _ & evs & Hl1 & Hn1).
    assert (Hev : eventsSince w (updaterCommit w1).2 = eventsSince w w1 ++ [EvCommit]).
    { rewrite (eventsSince_app _ _ _ Hl1). apply eventsSince_app.
      rewrite Hlog, Hl1. now rewrite app_assoc. }
    split.
    + intros [Hm|(o & n & p & msg & Hin)].
      * destruct (Hbad Hm 0 w) as [e He]. rewrite Hloop in He. discriminate.
      * rewrite Hev in Hin. apply in_app_iff in Hin as [Hin|[Heq|[]]]; [|discriminate].
        specialize (Hf _ _ _ _ Hin). discriminate.
    + intros _. exists w1. split; [reflexivity|]. split; [exact Hev|].
      split; [now apply quiet_no_commit|].
      destruct Hrefs as [(_ & Hr & _)|(_ & Hr)]; rewrite Hr, Hr1; auto.
  - (* the loop stopped on an error *)
    destruct Hq as (Hr1 & Hs1 & Hd1 & evs & Hl1 & Hn1).
    rewrite (eventsSince_app _ _ _ Hl1). split.
    + intros _. split; [now exists e|]. repeat split; assumption.
    + intros [Hin|Hne]; contradiction.
Qed.

(** C4, amended.  When the scanner delivers a malformed record and the lines
    before the first one were processed without error, [ApplyObjectMap] fails
    with the invalid object map error whose message is "object map invalid at
    line k", where k is the number of lines that precede the offending
    record: the first line of the map is line 0, and header lines and
    unchanged entries are counted. *)
Theorem ApplyObjectMap_invalid_line c pre bad post err w w1 :
  scanLoop c 0 pre w = (Ok tt, w1) ->
  malformedRecord bad ->
  Z.of_nat (length pre) < 2 ^ 63 ->
  ApplyObjectMap c (bufio.mkScanner (pre ++ bad :: post) err) w =
    (Err (ErrInvalidObjectMap ("object map invalid at line " +:+ itoa (Z.of_nat (length pre)))),
     w1).
Proof.
  intros Hpre Hbad Hlen. unfold ApplyObjectMap; cbn [bufio.Text].
  erewrite bind_err by (apply scanLoop_first_malformed; eassumption).
  rewrite int64_wrap_small by lia. reflexivity.
Qed.


(** C10.  A line equal to the commit-map header is skipped wherever it stands
    and however often it occurs: the run on the map and the run on the map
    without its header lines end in the same world (references, updater,
    callback state, steps taken) and with the same outcome, except for the
    line number of an invalid-object-map error.  The skipped header lines
    advance the counter: a malformed record that follows lines processed
    without error is reported with the number of all the lines before it,
    header lines included, while the same map without its header lines
    reports the number of the remaining lines before it; and an
    invalid-object-map error is always such a report. *)
Theorem header_lines_skipped_and_counted c lines err w :
  (ApplyObjectMap c (bufio.mkScanner lines err) w).2 = (ApplyObjectMap c (bufio.mkScanner (noHeaders lines) err) w).2 /\
  sameUpToLine (ApplyObjectMap c (bufio.mkScanner lines err) w).1 (ApplyObjectMap c (bufio.mkScanner (noHeaders lines) err) w).1 /\
  (forall msg,
     (ApplyObjectMap c (bufio.mkScanner lines err) w).1 = Err (ErrInvalidObjectMap msg) ->
     exists pre bad post,
       lines = pre ++ bad :: post /\ malformedRecord bad /\
       Forall (fun line => ~ malformedRecord line) pre /\
       msg = invalidAtLine (int64_wrap (Z.of_nat (length pre)))) /\
  (forall pre bad post,
     lines = pre ++ bad :: post -> malformedRecord bad ->
     (scanLoop c 0 pre w).1 = Ok tt ->
     (ApplyObjectMap c (bufio.mkScanner lines err) w).1
       = Err (ErrInvalidObjectMap (invalidAtLine (int64_wrap (Z.of_nat (length pre))))) /\
     (ApplyObjectMap c (bufio.mkScanner (noHeaders lines) err) w).1
       = Err (ErrInvalidObjectMap
                (invalidAtLine (int64_wrap (Z.of_nat (length (noHeaders pre)))))) /\
     length pre = (length (noHeaders pre)
                   + length (List.filter (String.eqb filterRepoCommitMapHeader) pre))%nat) /\
  (forall bad post k,
     lines = repeat filterRepoCommitMapHeader k ++ bad :: post -> malformedRecord bad ->
     ApplyObjectMap c (bufio.mkScanner lines err) w
       = (Err (ErrInvalidObjectMap (invalidAtLine (int64_wrap (Z.of_nat k)))), w)).
Proof.
  assert (Hfirst : forall pre bad post w1,
            scanLoop c 0 pre w = (Ok tt, w1) -> malformedRecord bad ->
            ApplyObjectMap c (bufio.mkScanner (pre ++ bad :: post) err) w
              = (Err (ErrInvalidObjectMap (invalidAtLine (int64_wrap (Z.of_nat (length pre))))),
                 w1)).
  { intros pre bad post w1 Hpre Hbad. unfold ApplyObjectMap; cbn [bufio.Text].
    now erewrite bind_err by (apply scanLoop_first_malformed; eassumption). }
  split; [|split; [|split; [|split]]].
  - unfold ApplyObjectMap, bind; cbn [bufio.Text].
    destruct (scanLoop_noHeaders c lines 0 0 w) as [Hw Hr].
    destruct (scanLoop c 0 lines w) as [[[]|e] w1],
             (scanLoop c 0 (noHeaders lines) w) as [r2 w2]; simpl in Hw, Hr; subst w2.
    + now apply sameUpToLine_Ok_l in Hr as ->.
    + now destruct (sameUpToLine_Err_l _ _ Hr) as [e' ->].
  - unfold ApplyObjectMap, bind; cbn [bufio.Text].
    destruct (scanLoop_noHeaders c lines 0 0 w) as [Hw Hr].
    destruct (scanLoop c 0 lines w) as [[[]|e] w1],
             (scanLoop c 0 (noHeaders lines) w) as [r2 w2]; simpl in Hw, Hr; subst w2.
    + apply sameUpToLine_Ok_l in Hr as ->. now left.
    + destruct (sameUpToLine_Err_l _ _ Hr) as [e' ->]. exact Hr.
  - unfold ApplyObjectMap, bind; cbn [bufio.Text].
    pose proof (scanLoop_invalid_inv c lines 0 w) as Hinv. rewrite int64_wrap_0 in Hinv.
    destruct (scanLoop c 0 lines w) as [[[]|e] w1]; simpl in Hinv.
    + intros msg He. pose proof (updaterCommit_spec w1) as (_ & _ & [(Hok & _)|((e & Herr) & _)]).
      * rewrite Hok in He. discriminate.
      * unfold updaterCommit in He.
        destruct (updateref.Commit (updater w1) (refs w1)) as [[[[]|e'] u'] st']; discriminate.
    + intros msg Heq. apply Hinv. exact Heq.
  - intros pre bad post -> Hbad Hpre.
    destruct (scanLoop c 0 pre w) as [r w1] eqn:Hloop. cbn [fst] in Hpre. subst r.
    split; [now rewrite (Hfirst pre bad post w1 Hloop Hbad)|]. split.
    + destruct (scanLoop_noHeaders c pre 0 0 w) as [Hw Hr]. rewrite Hloop in Hw, Hr.
      destruct (scanLoop c 0 (noHeaders pre) w) as [r2 w2] eqn:Hloop2. cbn [fst snd] in Hw, Hr.
      apply sameUpToLine_Ok_l in Hr. subst r2 w2.
      assert (Hsplit : noHeaders (pre ++ bad :: post) = noHeaders pre ++ bad :: noHeaders post).
      { unfold noHeaders. rewrite filter_app, filter_cons_True by apply Hbad. reflexivity. }
      rewrite Hsplit. now rewrite (Hfirst (noHeaders pre) bad (noHeaders post) w1 Hloop2 Hbad).
    + clear. induction pre as [|line pre IH]; [reflexivity|]. unfold noHeaders in *.
      cbn [List.filter]. destruct (String.eqb_spec filterRepoCommitMapHeader line) as [<-|Hne].
      * rewrite filter_cons_False by (intros Hn; now apply Hn). cbn [length]. lia.
      * rewrite filter_cons_True by congruence. cbn [length]. lia.
  - intros bad post k -> Hbad.
    assert (Hheaders : scanLoop c 0 (repeat filterRepoCommitMapHeader k) w = (Ok tt, w)).
    { generalize 0. induction k as [|k IH]; intros i; [reflexivity|].
      cbn [repeat scanLoop]. rewrite applyLine_header, bind_ret_l. apply IH. }
    rewrite (Hfirst _ bad post w Hheaders Hbad). now rewrite repeat_length.
Qed.

End CleanerClaims.

Lemma malformed_garbage : malformedRecord "garbage".
Proof. split; [discriminate | now apply recordOf_None]. Qed.

Example entriesOf_example :
  entriesOf [internalrefs.filterRepoCommitMapHeader; shaA +:+ " " +:+ shaB;
             shaC +:+ " " +:+ shaC; internalrefs.filterRepoCommitMapHeader;
             shaC +:+ " " +:+ shaD; "garbage"; shaD +:+ " " +:+ shaA]
  = [(shaA, shaB); (shaC, shaD)].
Proof. reflexivity. Qed.

(** Lines end at a line feed, a carriage return before it is dropped, and a
    last line needs no line feed. *)
Example NewScanner_example :
  bufio.NewScanner (unlines [shaA +:+ " " +:+ shaB +:+ String "013" ""; ""] +:+ "garbage")
  = bufio.mkScanner [shaA +:+ " " +:+ shaB; ""; "garbage"] None.
Proof. reflexivity. Qed.

(** The header, a record, the header again, then an empty line: the empty
    line is the fourth line, and is reported as line 3. *)
Example header_counted_example :
  (internalrefs.ApplyObjectMap (H:=gitBackend) notingCleaner
     (bufio.NewScanner
        (unlines [internalrefs.filterRepoCommitMapHeader; shaA +:+ " " +:+ shaB;
                  internalrefs.filterRepoCommitMapHeader; ""]))
     exampleWorld).1
  = Err (internalrefs.ErrInvalidObjectMap "object map invalid at line 3").
Proof. reflexivity. Qed.

(** A malformed record after a valid one, and a callback error after a
    processed entry, leave the references as they were. *)
Example ApplyObjectMap_all_or_nothing_example :
  ((exists e, (internalrefs.ApplyObjectMap (H:=gitBackend) notingCleaner
                 (bufio.mkScanner [shaA +:+ " " +:+ shaB; "garbage"] None)
                 exampleWorld).1 = Err e) /\
   internalrefs.refs (internalrefs.ApplyObjectMap (H:=gitBackend) notingCleaner
                 (bufio.mkScanner [shaA +:+ " " +:+ shaB; "garbage"] None)
                 exampleWorld).2 = exampleRefs) /\
  ((exists e, (internalrefs.ApplyObjectMap (H:=gitBackend) rejectingCleaner
                 (bufio.mkScanner [shaA +:+ " " +:+ shaB; shaC +:+ " " +:+ shaD] None)
                 exampleWorld).1 = Err e) /\
   internalrefs.refs (internalrefs.ApplyObjectMap (H:=gitBackend) rejectingCleaner
                 (bufio.mkScanner [shaA +:+ " " +:+ shaB; shaC +:+ " " +:+ shaD] None)
                 exampleWorld).2 = exampleRefs).
Proof.
  split.
  - destruct (proj1 (ApplyObjectMap_all_or_nothing (H:=gitBackend) notingCleaner
                       [shaA +:+ " " +:+ shaB; "garbage"] None exampleWorld))
      as (He & Hr & _).
    + left. exists "garbage". split; [right; left; reflexivity | exact malformed_garbage].
    + split; [exact He | exact Hr].
  - destruct (proj1 (ApplyObjectMap_all_or_nothing (H:=gitBackend) rejectingCleaner
                       [shaA +:+ " " +:+ shaB; shaC +:+ " " +:+ shaD] None exampleWorld))
      as (He & Hr & _).
    + right. exists shaC, shaD, false, "rejected". vm_compute. auto 10.
    + split; [exact He | exact Hr].
Qed.

(** C1.  [ApplyObjectMap] is not atomic on every object map.  On the map
    [overlongMap], a valid record followed by a line longer than the
    scanner's buffer, the scanner delivers the first record and then stops
    with [bufio.ErrTooLong]; the second line is a malformed record of the map
    (a single field); the run nevertheless commits the deletions staged for
    the first record, the two internal references are gone, and the
    operation reports success. *)
Theorem ApplyObjectMap_commits_after_scanner_error :
  let scanner := bufio.NewScanner overlongMap in
  let rw := internalrefs.ApplyObjectMap (H:=gitBackend) silentCleaner scanner exampleWorld in
  bufio.Text scanner = [shaA +:+ " " +:+ shaB] /\
  bufio.Err scanner = Some bufio.ErrTooLong /\
  malformedRecord overlongLine /\
  rw.1 = Ok tt /\
  In internalrefs.EvCommit (internalrefs.log rw.2) /\
  internalrefs.refs exampleWorld !! "refs/keep-around/a" = Some shaA /\
  internalrefs.refs rw.2 !! "refs/keep-around/a" = None /\
  internalrefs.refs rw.2 !! "refs/merge-requests/1/head" = None.
Proof.
  assert (Hs : bufio.NewScanner overlongMap
               = bufio.mkScanner [shaA +:+ " " +:+ shaB] (Some bufio.ErrTooLong))
    by (vm_compute; reflexivity).
  cbv zeta. rewrite Hs. cbn [bufio.Text bufio.Err].
  split; [reflexivity|]. split; [reflexivity|].
  split.
  { split.
    - intros Heq. apply (f_equal (String.get 0)) in Heq. vm_compute in Heq. discriminate Heq.
    - apply recordOf_None. vm_compute. reflexivity. }
  vm_compute. repeat split; auto.
Qed.

(** C4 as stated fails: a map whose first line is malformed is reported as
    invalid at line 0, not at line 1. *)
Lemma ApplyObjectMap_line_number_counterexample :
  malformedRecord "garbage" /\
  (internalrefs.ApplyObjectMap (H:=gitBackend) silentCleaner
     (bufio.NewScanner (unlines ["garbage"])) exampleWorld).1
    = Err (internalrefs.ErrInvalidObjectMap "object map invalid at line 0") /\
  (internalrefs.ApplyObjectMap (H:=gitBackend) silentCleaner
     (bufio.NewScanner (unlines ["garbage"])) exampleWorld).1
    <> Err (internalrefs.ErrInvalidObjectMap (internalrefs.invalidAtLine 1)).
Proof.
  split; [exact malformed_garbage|]. split; [reflexivity|].
  vm_compute. intros Heq. discriminate Heq.
Qed.

Lemma ApplyObjectMap_invalid_line_witness :
  internalrefs.ApplyObjectMap (H:=gitBackend) notingCleaner
    (bufio.mkScanner
       ([internalrefs.filterRepoCommitMapHeader; shaA +:+ " " +:+ shaB]
          ++ "garbage" :: [shaC +:+ " " +:+ shaD]) None) exampleWorld
  = (Err (internalrefs.ErrInvalidObjectMap "object map invalid at line 2"),
     (internalrefs.scanLoop notingCleaner 0
        [internalrefs.filterRepoCommitMapHeader; shaA +:+ " " +:+ shaB] exampleWorld).2).
Proof.
  apply (ApplyObjectMap_invalid_line (H:=gitBackend) notingCleaner
           [internalrefs.filterRepoCommitMapHeader; shaA +:+ " " +:+ shaB]
           "garbage" [shaC +:+ " " +:+ shaD] None exampleWorld).
  - reflexivity.
  - exact malformed_garbage.
  - simpl. lia.
Defined.


(** ** objectpool: the steps of a fetch *)

Section PoolFacts.
Context {X : Type} `{updateref.Backend} `{objectpool.Collaborators X}.
Import objectpool.

Implicit Types (w : World X).

Lemma bind_Ok_inv {S E A B} (m : M S E A) (k : A -> M S E B) s b s' :
  bind m k s = (Ok b, s') -> exists a s1, m s = (Ok a, s1) /\ k a s1 = (Ok b, s').
Proof.
  unfold bind. destruct (m s) as [[a|e] s1]; [|discriminate]. intros Hk. now exists a, s1.
Qed.

Lemma executions_app name evs1 evs2 :
  executions name (evs1 ++ evs2) = (executions name evs1 + executions name evs2)%nat.
Proof. unfold executions. now rewrite List.filter_app, length_app. Qed.

Lemma poolEventsSince_app w w' evs : log w' = log w ++ evs -> poolEventsSince w w' = evs.
Proof. intros Hl. unfold poolEventsSince. rewrite Hl. now rewrite drop_app_length. Qed.

Lemma tracks_weaken {A} nf nr nf' nr' w (rw : result error A * World X) :
  (nf <= nf')%nat -> (nr <= nr')%nat -> tracks nf nr w rw -> tracks nf' nr' w rw.
Proof.
  intros Hf Hr (evs & Hl & Hnf & Hnr & Hfe & Hre).
  exists evs. repeat split; try assumption; lia.
Qed.

Lemma tracks_bind {A B} nf nr nf' nr' (m : M (World X) error A) (k : A -> M (World X) error B) w :
  tracks nf nr w (m w) -> (forall a w1, tracks nf' nr' w1 (k a w1)) ->
  tracks (nf + nf') (nr + nr') w (bind m k w).
Proof.
  intros (evs & Hl & Hnf & Hnr & Hfe & Hre) Hk. unfold bind.
  destruct (m w) as [[a|e] w1]; simpl in *.
  - destruct (Hk a w1) as (evs' & Hl' & Hnf' & Hnr' & Hfe' & Hre').
    exists (evs ++ evs'). simpl. split; [rewrite Hl', Hl; now rewrite app_assoc|].
    rewrite !executions_app. split; [lia|split; [lia|split]].
    + intros cmd opts out err Hin Hn Hfail. apply in_app_iff in Hin as [Hin|Hin].
      * specialize (Hfe _ _ _ _ Hin Hn Hfail). discriminate.
      * eapply Hfe'; eassumption.
    + intros cmd opts out err Hin Hn Hfail. apply in_app_iff in Hin as [Hin|Hin].
      * specialize (Hre _ _ _ _ Hin Hn Hfail). discriminate.
      * eapply Hre'; eassumption.
  - exists evs. simpl. split; [assumption|]. split; [lia|split; [lia|split]].
    + intros cmd opts out err Hin Hn Hfail. specialize (Hfe _ _ _ _ Hin Hn Hfail).
      inversion Hfe. reflexivity.
    + intros cmd opts out err Hin Hn Hfail. specialize (Hre _ _ _ _ Hin Hn Hfail).
      inversion Hre. reflexivity.
Qed.

Lemma executions_none name evs :
  Forall (fun ev => invokes name ev = false) evs -> executions name evs = 0%nat.
Proof.
  intros Hall. unfold executions. induction Hall as [|ev evs' Hev _ IH]; simpl.
  - reflexivity.
  - now rewrite Hev.
Qed.

(** A part that invokes neither [fetch] nor [repack]. *)
Lemma tracks_none {A} w (rw : result error A * World X) evs :
  log rw.2 = log w ++ evs -> Forall (fun ev => invokes "fetch" ev = false) evs ->
  Forall (fun ev => invokes "repack" ev = false) evs -> tracks 0 0 w rw.
Proof.
  intros Hl Hf Hr. exists evs. split; [assumption|].
  rewrite (executions_none _ _ Hf), (executions_none _ _ Hr). split; [lia|split; [lia|split]].
  - intros cmd opts out err Hin Hn _. rewrite List.Forall_forall in Hf.
    specialize (Hf _ Hin). simpl in Hf. rewrite Hn in Hf. discriminate.
  - intros cmd opts out err Hin Hn _. rewrite List.Forall_forall in Hr.
    specialize (Hr _ Hin). simpl in Hr. rewrite Hn in Hr. discriminate.
Qed.

Lemma tracks_ret {A} (a : A) w : tracks 0 0 w (ret (E:=error) a w).
Proof. apply (tracks_none _ _ []); [simpl; now rewrite app_nil_r | constructor | constructor]. Qed.

Lemma tracks_fail {A} e w : tracks 0 0 w (fail (A:=A) e w).
Proof. apply (tracks_none _ _ []); [simpl; now rewrite app_nil_r | constructor | constructor]. Qed.

Lemma collab_log ev f w : log (collab ev f w).2 = log w ++ [ev].
Proof.
  unfold collab. destruct (f (refs w, ext w)) as [[e|] [refs' ext']]; reflexivity.
Qed.

Lemma tracks_collab ev f w :
  invokes "fetch" ev = false -> invokes "repack" ev = false -> tracks 0 0 w (collab ev f w).
Proof.
  intros Hf Hr. apply (tracks_none _ _ [ev]); [apply collab_log | |]; repeat constructor; assumption.
Qed.

Lemma Exec_log cmd opts w :
  log (Exec cmd opts w).2 = log w ++ [EvExec cmd opts (git cmd opts (refs w, ext w)).1].
Proof.
  unfold Exec. destruct (git cmd opts (refs w, ext w)) as [out [refs' ext']].
  destruct (startErr out); reflexivity.
Qed.

Lemma ExecAndWait_spec cmd opts w :
  let out := (git cmd opts (refs w, ext w)).1 in
  log (ExecAndWait cmd opts w).2 = log w ++ [EvExec cmd opts out] /\
  (ExecAndWait cmd opts w).1.1 = failure out /\
  (In WithStderr opts -> (ExecAndWait cmd opts w).1.2 = stderr out).
Proof.
  unfold ExecAndWait, failure. destruct (git cmd opts (refs w, ext w)) as [out [refs' ext']].
  simpl. repeat split. intros Hin.
  assert (existsb (fun o => match o with WithStderr => true | _ => false end) opts = true) as ->;
    [|reflexivity].
  apply existsb_exists. exists WithStderr. now split.
Qed.

Lemma tracks_fetch path w : tracks 1 0 w (fetch path w).
Proof.
  unfold fetch.
  destruct (ExecAndWait_spec (fetchCmd path) [WithRefTxHook; WithStderr] w) as (Hl & He & Hb).
  specialize (Hb (or_intror (or_introl eq_refl))).
  destruct (ExecAndWait _ _ w) as [[err text] w1]; simpl in *. subst err text.
  set (out := (git (fetchCmd path) [WithRefTxHook; WithStderr] (refs w, ext w)).1) in *.
  exists [EvExec (fetchCmd path) [WithRefTxHook; WithStderr] out].
  split; [destruct (failure out); exact Hl|].
  split; [reflexivity|split; [unfold executions; simpl; lia|split]].
  - intros cmd opts out' err [Heq|[]] _ Hfail. inversion Heq; subst out'.
    rewrite Hfail. reflexivity.
  - intros cmd opts out' err [Heq|[]] Hn _. inversion Heq; subst cmd. discriminate Hn.
Qed.

Lemma tracks_repackPool w : tracks 0 1 w (repackPool w).
Proof.
  unfold repackPool.
  destruct (ExecAndWait_spec repackCmd [WithConfig repackConfig] w) as (Hl & He & _).
  destruct (ExecAndWait _ _ w) as [[err text] w1]; simpl in *. subst err.
  set (out := (git repackCmd [WithConfig repackConfig] (refs w, ext w)).1) in *.
  exists [EvExec repackCmd [WithConfig repackConfig] out].
  split; [destruct (failure out); exact Hl|].
  split; [unfold executions; simpl; lia|split; [reflexivity|split]].
  - intros cmd opts out' err [Heq|[]] Hn _. inversion Heq; subst cmd. discriminate Hn.
  - intros cmd opts out' err [Heq|[]] _ Hfail. inversion Heq; subst out'.
    rewrite Hfail. reflexivity.
Qed.

Lemma tracks_packRefs w : tracks 0 0 w (packRefs w).
Proof.
  unfold packRefs.
  destruct (ExecAndWait_spec packRefsCmd [] w) as (Hl & _ & _).
  destruct (ExecAndWait _ _ w) as [[[err|] text] w1]; simpl in *;
    (eapply tracks_none; [exact Hl | |]; repeat constructor).
Qed.

Lemma tracks_Exec_fsck w : tracks 0 0 w (Exec fsckCmd [] w).
Proof. eapply tracks_none; [apply Exec_log | |]; repeat constructor. Qed.

(** ** objectpool: rescuing dangling objects *)

Lemma SplitN_3 line :
  SplitN line " " 3 =
    match cut " " line with
    | None => [line]
    | Some (a, tail) =>
        match cut " " tail with
        | None => [a; tail]
        | Some (b, c) => [a; b; c]
        end
    end.
Proof.
  cbn [SplitN]. destruct (cut " " line) as [[a tail]|]; [|reflexivity].
  destruct (cut " " tail) as [[b c]|]; reflexivity.
Qed.

(** A line [dangling <type> <oid>] of the scan is among the rescued. *)
Lemma danglingOids_line lines ty oid :
  hasByte " " ty = false ->
  In ("dangling " +:+ ty +:+ " " +:+ oid) lines -> In oid (danglingOids lines).
Proof.
  intros Hty. induction lines as [|line rest IH]; [intros []|]. intros [->|Hin].
  - cbn [danglingOids].
    change ("dangling " +:+ ty +:+ " " +:+ oid) with ("dangling" +:+ String " " (ty +:+ String " " oid)).
    rewrite (cut_app " " "dangling" _ eq_refl), (cut_app " " ty oid Hty). now left.
  - specialize (IH Hin). cbn [danglingOids].
    destruct (cut " " line) as [[word tail]|]; [|exact IH].
    destruct (cut " " tail) as [[b c]|]; [|exact IH].
    destruct (String.eqb word "dangling"); [now right | exact IH].
Qed.

(** The loop stages one creation per dangling line; with an open updater it
    cannot fail, and it touches neither the references nor the rest of the
    world. *)
Lemma stageDangling_open lines : forall u w,
  updateref.state u = updateref.Open ->
  exists u',
    (stageDangling lines u w).1 = Ok u' /\
    updateref.state u' = updateref.Open /\
    updateref.disabledTransactions u' = updateref.disabledTransactions u /\
    updateref.staged u' = updateref.staged u ++ createOps (danglingOids lines) /\
    log (stageDangling lines u w).2 = log w ++ createEvents (danglingOids lines) /\
    refs (stageDangling lines u w).2 = refs w /\
    ext (stageDangling lines u w).2 = ext w.
Proof.
  induction lines as [|line rest IH]; intros u w Ho.
  - exists u. simpl. rewrite !app_nil_r. repeat split; assumption.
  - cbn [stageDangling danglingOids]. rewrite SplitN_3.
    destruct (cut " " line) as [[word tail]|]; [|apply IH; assumption].
    destruct (cut " " tail) as [[b oid]|]; [|apply IH; assumption].
    destruct (String.eqb word "dangling"); cbn [negb]; [|apply IH; assumption].
    unfold updateref.Create, updateref.stage. rewrite Ho.
    match goal with |- context [stageDangling rest ?u1 ?w1] =>
      destruct (IH u1 w1 eq_refl) as (u' & Hr & Ho' & Hd & Hs & Hl & Hrefs & Hext) end.
    exists u'. simpl in *. repeat split; try assumption.
    + rewrite Hs. now rewrite <- app_assoc.
    + rewrite Hl. now rewrite <- app_assoc.
Qed.

(** Whatever the updater, the loop takes no step but creations. *)
Lemma stageDangling_log lines : forall u w,
  exists evs,
    log (stageDangling lines u w).2 = log w ++ evs /\
    Forall (fun ev => exists ref oid, ev = EvCreate ref oid) evs.
Proof.
  induction lines as [|line rest IH]; intros u w.
  - exists []. simpl. split; [now rewrite app_nil_r | constructor].
  - cbn [stageDangling]. rewrite SplitN_3.
    destruct (cut " " line) as [[word tail]|]; [|apply IH].
    destruct (cut " " tail) as [[b oid]|]; [|apply IH].
    destruct (String.eqb word "dangling"); cbn [negb]; [|apply IH].
    destruct (updateref.Create _ oid u) as [u1|e].
    + match goal with |- context [stageDangling rest u1 ?w1] =>
        destruct (IH u1 w1) as (evs & Hl & Hall) end.
      eexists (_ :: evs). split.
      * rewrite Hl. simpl. rewrite <- app_assoc. reflexivity.
      * constructor; [now do 2 eexists | assumption].
    + eexists [_]. simpl. split; [reflexivity|]. constructor; [now do 2 eexists | constructor].
Qed.

Lemma tracks_stageDangling lines u w : tracks 0 0 w (stageDangling lines u w).
Proof.
  destruct (stageDangling_log lines u w) as (evs & Hl & Hall).
  eapply tracks_none; [exact Hl | |];
    (eapply Forall_impl; [exact Hall|]; intros ev (ref & oid & ->); reflexivity).
Qed.

Lemma commit_log u w :
  log (commit u w).2 =
    log w ++ [EvCommit (updateref.disabledTransactions u) (updateref.staged u)] /\
  ext (commit u w).2 = ext w.
Proof.
  unfold commit. destruct (updateref.Commit u (refs w)) as [[[[]|e] u'] refs']; split; reflexivity.
Qed.

Lemma tracks_commit u w : tracks 0 0 w (commit u w).
Proof. eapply tracks_none; [apply commit_log | |]; repeat constructor. Qed.

(** Creating the updater either fails with the error of [updateref.New] or
    gives an open updater with transactions disabled; the world is as it
    was. *)
Lemma newUpdater_cases w :
  (exists e, updaterErr (refs w, ext w) = Some e /\ newUpdater w = (Err (ErrCollab e), w)) \/
  (updaterErr (refs w, ext w) = None /\ newUpdater w = (Ok (updateref.New true), w)).
Proof.
  unfold newUpdater. destruct (updaterErr (refs w, ext w)) as [e|].
  - left. exists e. split; reflexivity.
  - right. split; reflexivity.
Qed.

Lemma tracks_newUpdater w : tracks 0 0 w (newUpdater w).
Proof.
  destruct (newUpdater_cases w) as [(e & _ & ->)|(_ & ->)];
    [apply tracks_fail | apply tracks_ret].
Qed.

Lemma tracks_rescue w : tracks 0 0 w (rescueDanglingObjects w).
Proof.
  unfold rescueDanglingObjects.
  apply (tracks_bind 0 0 0 0); [apply tracks_Exec_fsck|]. intros fsck w1.
  apply (tracks_bind 0 0 0 0); [apply tracks_newUpdater|]. intros u0 w1'.
  apply (tracks_bind 0 0 0 0); [apply tracks_stageDangling|]. intros u w2.
  destruct (scanErr fsck); [apply tracks_fail|].
  destruct (waitErr fsck); [apply tracks_fail | apply tracks_commit].
Qed.

(** The whole of [FetchFromOrigin] invokes [fetch] and [repack] at most once
    each, and returns their failures as described by [tracks]. *)
Lemma tracks_FetchFromOrigin origin w : tracks 1 1 w (FetchFromOrigin origin w).
Proof.
  unfold FetchFromOrigin.
  apply (tracks_bind 0 0 1 1); [apply tracks_collab; reflexivity|]. intros _ w1.
  apply (tracks_bind 0 0 1 1); [destruct origin; [apply tracks_ret | apply tracks_fail]|].
  intros path w2.
  apply (tracks_bind 0 0 1 1); [apply tracks_collab; reflexivity|]. intros _ w3.
  apply (tracks_bind 0 0 1 1); [apply tracks_collab; reflexivity|]. intros _ w4.
  apply (tracks_bind 1 0 0 1); [apply tracks_fetch|]. intros _ w5.
  apply (tracks_bind 0 0 0 1); [apply tracks_rescue|]. intros _ w6.
  apply (tracks_bind 0 0 0 1); [apply tracks_collab; reflexivity|]. intros _ w7.
  apply (tracks_bind 0 0 0 1); [apply tracks_packRefs|]. intros _ w8.
  apply tracks_repackPool.
Qed.

Lemma danglingRef_inj a b : danglingRef a = danglingRef b -> a = b.
Proof. unfold danglingRef, danglingObjectNamespace. simpl. intros Heq. now inversion Heq. Qed.

(** After the batch of creations is applied, every rescued object has its
    reference. *)
Lemma applyAll_createOps oids oid : forall st : gmap string string,
  st !! danglingRef oid = Some oid \/ In oid oids ->
  updateref.applyAll st (createOps oids) !! danglingRef oid = Some oid.
Proof.
  unfold updateref.applyAll. induction oids as [|o oids IH]; intros st Hin; simpl.
  - destruct Hin as [Hst|[]]. exact Hst.
  - apply IH. destruct (decide (o = oid)) as [->|Hne].
    + left. apply lookup_insert_eq.
    + destruct Hin as [Hst|[Heq|Hin]]; [|contradiction|now right].
      left. rewrite lookup_insert_ne; [exact Hst|].
      intros Heq. apply Hne. now apply danglingRef_inj.
Qed.

(** A successful rescue: one scan, one creation per dangling object staged in
    one updater with transactions disabled, one commit of the whole batch;
    afterwards every dangling object of the scan has its reference. *)
Lemma rescue_Ok w w1 :
  rescueDanglingObjects w = (Ok tt, w1) ->
  let out := (git fsckCmd [] (refs w, ext w)).1 in
  let oids := danglingOids (stdout out) in
  log w1 = log w ++ [EvExec fsckCmd [] out] ++ createEvents oids ++
                    [EvCommit true (createOps oids)] /\
  refs w1 = updateref.applyAll (git fsckCmd [] (refs w, ext w)).2.1 (createOps oids) /\
  (forall oid, In oid oids -> refs w1 !! danglingRef oid = Some oid).
Proof.
  unfold rescueDanglingObjects. intros Hrun.
  apply bind_Ok_inv in Hrun as (fsck & wa & Hexec & Hrun).
  apply bind_Ok_inv in Hrun as (u0 & wa' & Hnew & Hrun).
  destruct (newUpdater_cases wa) as [(e & _ & Hn)|(_ & Hn)];
    rewrite Hn in Hnew; inversion Hnew; subst u0 wa'; clear Hnew Hn.
  apply bind_Ok_inv in Hrun as (u & wb & Hstage & Hrun).
  assert (Hfsck : fsck = (git fsckCmd [] (refs w, ext w)).1 /\
                  log wa = log w ++ [EvExec fsckCmd [] fsck] /\
                  refs wa = (git fsckCmd [] (refs w, ext w)).2.1).
  { unfold Exec in Hexec. destruct (git fsckCmd [] (refs w, ext w)) as [out [refs' ext']].
    destruct (startErr out); inversion Hexec; subst. repeat split; reflexivity. }
  destruct Hfsck as (<- & Hla & <-).
  destruct (stageDangling_open (stdout fsck) (updateref.New true) wa eq_refl)
    as (u' & Hr & Ho & Hd & Hs & Hl & Hrefs & Hext).
  rewrite Hstage in Hr, Hl, Hrefs, Hext. simpl in Hr, Hl, Hrefs, Hext.
  inversion Hr; subst u'. simpl in Hs, Hd.
  destruct (scanErr fsck); [discriminate|]. destruct (waitErr fsck); [discriminate|].
  unfold commit in Hrun.
  pose proof (Commit_cases u (refs wb)) as Hc.
  destruct (updateref.Commit u (refs wb)) as [[r u''] refs'].
  destruct r as [[]|e]; inversion Hrun; subst w1. simpl.
  destruct Hc as [(_ & -> & _)|((e & He) & _)]; [|discriminate].
  rewrite Hs, Hrefs. simpl. split; [|split].
  - rewrite Hl, Hla, Hd. now rewrite <- !app_assoc.
  - reflexivity.
  - intros oid Hin. apply applyAll_createOps. now right.
Qed.

Lemma collab_refs ev f w : refs (collab ev f w).2 = (f (refs w, ext w)).2.1.
Proof.
  unfold collab. destruct (f (refs w, ext w)) as [[e|] [refs' ext']]; reflexivity.
Qed.

Lemma ExecAndWait_refs cmd opts w :
  refs (ExecAndWait cmd opts w).2 = (git cmd opts (refs w, ext w)).2.1.
Proof.
  unfold ExecAndWait. destruct (git cmd opts (refs w, ext w)) as [out [refs' ext']]. reflexivity.
Qed.

(** A successful fetch, step by step; when the steps after the rescue keep
    the references, the references at the end are those the rescue left. *)
Lemma FetchFromOrigin_Ok origin w w' :
  FetchFromOrigin origin w = (Ok tt, w') ->
  exists w0 w1 outP outR,
    upToFetch origin w = (Ok tt, w0) /\
    rescueDanglingObjects w0 = (Ok tt, w1) /\
    log w' = log w1 ++ [EvLogStats "after fetch"; EvExec packRefsCmd [] outP;
                        EvExec repackCmd [WithConfig repackConfig] outR] /\
    (keepsReferences -> refs w' = refs w1).
Proof.
  unfold FetchFromOrigin. intros Hrun.
  apply bind_Ok_inv in Hrun as ([] & wa & Ha & Hrun).
  apply bind_Ok_inv in Hrun as (path & wb & Hb & Hrun).
  apply bind_Ok_inv in Hrun as ([] & wc & Hc & Hrun).
  apply bind_Ok_inv in Hrun as ([] & wd & Hd & Hrun).
  apply bind_Ok_inv in Hrun as ([] & w0 & He & Hrun).
  apply bind_Ok_inv in Hrun as ([] & w1 & Hf & Hrun).
  apply bind_Ok_inv in Hrun as ([] & wg & Hg & Hrun).
  apply bind_Ok_inv in Hrun as ([] & wh & Hh & Hrun).
  pose proof (collab_log (EvLogStats "after fetch") (stats "after fetch") w1) as Hlg.
  pose proof (collab_refs (EvLogStats "after fetch") (stats "after fetch") w1) as Hrg.
  unfold logStats in Hg. rewrite Hg in Hlg, Hrg.
  destruct (ExecAndWait_spec packRefsCmd [] wg) as (Hlh & _).
  pose proof (ExecAndWait_refs packRefsCmd [] wg) as Hrh.
  unfold packRefs in Hh.
  destruct (ExecAndWait packRefsCmd _ wg) as [[[err|] text'] wh']; inversion Hh; subst wh'.
  destruct (ExecAndWait_spec repackCmd [WithConfig repackConfig] wh) as (Hli & _).
  pose proof (ExecAndWait_refs repackCmd [WithConfig repackConfig] wh) as Hri.
  unfold repackPool in Hrun.
  destruct (ExecAndWait repackCmd _ wh) as [[[err|] text''] wi]; inversion Hrun; subst wi.
  simpl in *. exists w0, w1. do 2 eexists. split; [|split; [exact Hf|split]].
  - unfold upToFetch.
    rewrite (bind_ok _ _ _ _ _ Ha), (bind_ok _ _ _ _ _ Hb), (bind_ok _ _ _ _ _ Hc),
            (bind_ok _ _ _ _ _ Hd). exact He.
  - rewrite Hli, Hlh, Hlg. now rewrite <- !app_assoc.
  - intros (Hks & Hkp & Hkr). rewrite Hri, Hkr, Hrh, Hkp, Hrg, Hks. reflexivity.
Qed.

Lemma upToFetch_Ok origin w w0 :
  upToFetch origin w = (Ok tt, w0) ->
  exists path outF,
    origin = Ok path /\ failure outF = None /\
    log w0 = log w ++ [EvInit; EvCleanStaleData; EvLogStats "before fetch";
                       EvExec (fetchCmd path) [WithRefTxHook; WithStderr] outF].
Proof.
  unfold upToFetch. intros Hrun.
  apply bind_Ok_inv in Hrun as ([] & wa & Ha & Hrun).
  apply bind_Ok_inv in Hrun as (path & wb & Hb & Hrun).
  apply bind_Ok_inv in Hrun as ([] & wc & Hc & Hrun).
  apply bind_Ok_inv in Hrun as ([] & wd & Hd & He).
  destruct origin as [p|e]; [|discriminate]. inversion Hb; subst p wb.
  pose proof (collab_log EvInit poolInit w) as Hla. unfold Init in Ha. rewrite Ha in Hla.
  pose proof (collab_log EvCleanStaleData cleanStaleData wa) as Hlc.
  unfold CleanStaleData in Hc. rewrite Hc in Hlc.
  pose proof (collab_log (EvLogStats "before fetch") (stats "before fetch") wc) as Hld.
  unfold logStats in Hd. rewrite Hd in Hld.
  destruct (ExecAndWait_spec (fetchCmd path) [WithRefTxHook; WithStderr] wd) as (Hle & Hfail & _).
  unfold fetch in He.
  destruct (ExecAndWait (fetchCmd path) _ wd) as [[[err|] text] w0']; inversion He; subst w0'.
  simpl in *. do 2 eexists. split; [reflexivity|]. split; [symmetry; exact Hfail|].
  rewrite Hle, Hld, Hlc, Hla. now rewrite <- !app_assoc.
Qed.

(** ** The object graph of the pool *)

Lemma reaches_snoc (links : string -> list string) a p o : reaches links a p -> In o (links p) -> reaches links a o.
Proof.
  induction 1 as [q|a b c Hab _ IH]; intros Ho.
  - eapply reaches_step; [exact Ho | apply reaches_refl].
  - eapply reaches_step; [exact Hab | now apply IH].
Qed.

Lemma referrer_dec (objects : list string) (links : string -> list string) (o : string) :
  {p | In p objects /\ In o (links p)} + {forall p, In p objects -> ~ In o (links p)}.
Proof.
  induction objects as [|q objects [(p & Hp & Ho)|Hnone]].
  - right. intros p [].
  - left. exists p. split; [now right | exact Ho].
  - destruct (in_dec string_dec o (links q)) as [Hin|Hnin].
    + left. exists q. split; [now left | exact Hin].
    + right. intros p [<-|Hp]; [exact Hnin | now apply Hnone].
Qed.

Lemma pointed_dec (rs : gmap string string) (o : string) :
  {name | rs !! name = Some o} + {forall name, rs !! name <> Some o}.
Proof.
  destruct (decide (Exists (fun kv => kv.2 = o) (map_to_list rs))) as [Hex|Hnex].
  - left. apply Exists_exists in Hex.
    destruct (list_find (fun kv => kv.2 = o) (map_to_list rs)) as [[i [name t]]|] eqn:Hfind.
    + apply list_find_Some in Hfind as (Hi & Ht & _). simpl in Ht. subst t.
      exists name. apply elem_of_map_to_list. eapply list_elem_of_lookup_2. exact Hi.
    + exfalso. apply list_find_None in Hfind. destruct Hex as (kv & Hkv & Ho).
      rewrite Forall_forall in Hfind. now apply (Hfind kv).
  - right. intros name Hname. apply Hnex. apply Exists_exists.
    exists (name, o). split; [now apply elem_of_map_to_list | reflexivity].
Qed.

(** In a finite acyclic object graph every object can be reached from an
    object a reference points at, or from a dangling object. *)
Lemma object_has_root (objects : list string) (links : string -> list string) (rank : string -> nat)
    (rs : gmap string string) (bound : nat) :
  (forall o c, In o objects -> In c (links o) -> (rank c < rank o)%nat) ->
  (forall o, In o objects -> (rank o < bound)%nat) ->
  forall n o, In o objects -> (bound <= rank o + n)%nat ->
    (exists name target, rs !! name = Some target /\ reaches links target o) \/
    (exists d, In d objects /\ isDangling objects links rs d /\ reaches links d o).
Proof.
  intros Hrank Hbound. induction n as [|n IH]; intros o Ho Hn.
  - specialize (Hbound o Ho). lia.
  - destruct (referrer_dec objects links o) as [(p & Hp & Hop)|Hnone].
    + specialize (Hrank p o Hp Hop).
      destruct (IH p Hp ltac:(lia)) as [(name & t & Hname & Hreach)|(d & Hd & Hdang & Hreach)].
      * left. exists name, t. split; [exact Hname | eapply reaches_snoc; eassumption].
      * right. exists d. split; [exact Hd|]. split; [exact Hdang | eapply reaches_snoc; eassumption].
    + destruct (pointed_dec rs o) as [(name & Hname)|Hnot].
      * left. exists name, o. split; [exact Hname | apply reaches_refl].
      * right. exists o. split; [exact Ho|]. split; [now split | apply reaches_refl].
Qed.

(** Applying the batch of creations keeps every reference that was there,
    when the rescue namespace is sound. *)
Lemma applyAll_createOps_keeps oids name target : forall st : gmap string string,
  danglingNamespaceSound st -> st !! name = Some target ->
  updateref.applyAll st (createOps oids) !! name = Some target.
Proof.
  unfold updateref.applyAll. induction oids as [|o oids IH]; intros st Hsound Hst; simpl.
  - exact Hst.
  - apply IH.
    + intros oid t. destruct (decide (danglingRef o = danglingRef oid)) as [Heq|Hne].
      * rewrite Heq, lookup_insert_eq. intros Ht; inversion Ht; subst.
        now apply danglingRef_inj.
      * rewrite lookup_insert_ne by assumption. apply Hsound.
    + destruct (decide (danglingRef o = name)) as [<-|Hne].
      * rewrite lookup_insert_eq. f_equal. symmetry. eapply Hsound. exact Hst.
      * now rewrite lookup_insert_ne.
Qed.

End PoolFacts.

(** ** objectpool: the claims *)

Section PoolClaims.
Context {X : Type} `{updateref.Backend} `{objectpool.Collaborators X}.
Import objectpool.

Implicit Types (w : World X).

(** C6.  A successful [FetchFromOrigin] ran the rescue right after the fetch,
    and the rescue succeeded: one connectivity-only scan, then one creation
    [refs/dangling/<oid>] per object the scan reports dangling, all staged in
    one updater built with transactions disabled, then one commit of the
    whole batch, and no other reference transaction in the rest of the run.
    The steps after the rescue (logStats, pack-refs, repack) keep the
    references; so when [FetchFromOrigin] has returned, every reported object
    has its reference.  Hence, if the scan reports every dangling object of
    the (finite, acyclic) object graph of the pool and the rescue namespace
    is sound, then after the fetch every object of the pool can be reached
    from a reference that was there at the scan, such as the ones the fetch
    wrote below the origin namespace, or from a reference of the rescue
    namespace. *)
Theorem FetchFromOrigin_rescues_dangling origin w w' :
  keepsReferences ->
  FetchFromOrigin origin w = (Ok tt, w') ->
  exists w0 w1,
    upToFetch origin w = (Ok tt, w0) /\
    rescueDanglingObjects w0 = (Ok tt, w1) /\
    let scan := git fsckCmd [] (refs w0, ext w0) in
    let oids := danglingOids (stdout scan.1) in
    poolEventsSince w0 w1 =
      [EvExec fsckCmd [] scan.1] ++ createEvents oids ++ [EvCommit true (createOps oids)] /\
    (exists outP outR,
       poolEventsSince w1 w' =
         [EvLogStats "after fetch"; EvExec packRefsCmd [] outP;
          EvExec repackCmd [WithConfig repackConfig] outR]) /\
    refs w' = updateref.applyAll scan.2.1 (createOps oids) /\
    (forall ty oid,
       hasByte " " ty = false ->
       In ("dangling " +:+ ty +:+ " " +:+ oid) (stdout scan.1) ->
       refs w' !! danglingRef oid = Some oid) /\
    (forall (objects : list string) (links : string -> list string)
            (rank : string -> nat) (bound : nat),
       (forall o c, In o objects -> In c (links o) -> (rank c < rank o)%nat) ->
       (forall o, In o objects -> (rank o < bound)%nat) ->
       danglingNamespaceSound scan.2.1 ->
       fsckReportsDangling objects links scan.2.1 (stdout scan.1) ->
       forall o, In o objects ->
         exists name target,
           refs w' !! name = Some target /\ reaches links target o /\
           (scan.2.1 !! name = Some target \/ name = danglingRef target)).
Proof.
  intros Hkeep Hrun.
  destruct (FetchFromOrigin_Ok _ _ _ Hrun)
    as (w0 & w1 & outP & outR & Hpre & Hresc & Hlog & Hsame).
  specialize (Hsame Hkeep).
  exists w0, w1. split; [exact Hpre|]. split; [exact Hresc|].
  destruct (rescue_Ok _ _ Hresc) as (Hl1 & Hrefs & Hcreated).
  cbv zeta in *. rewrite Hsame. split; [now apply poolEventsSince_app|].
  split; [exists outP, outR; now apply poolEventsSince_app|]. split; [exact Hrefs|]. split.
  - intros ty oid Hty Hin. apply Hcreated. eapply danglingOids_line; eassumption.
  - intros objects links rank bound Hrank Hbound Hsound Hfsck o Ho.
    destruct (object_has_root objects links rank (git fsckCmd [] (refs w0, ext w0)).2.1
                bound Hrank Hbound bound o Ho ltac:(lia))
      as [(name & target & Hname & Hreach)|(d & Hd & Hdang & Hreach)].
    + exists name, target. split; [|split; [exact Hreach | now left]].
      rewrite Hrefs. now apply applyAll_createOps_keeps.
    + destruct (Hfsck d Hd Hdang) as (ty & Hty & Hline).
      exists (danglingRef d), d. split; [|split; [exact Hreach | now right]].
      apply Hcreated. eapply danglingOids_line; eassumption.
Qed.

(** C7, amended.  A failed fetch inside [FetchFromOrigin] is returned wrapped
    by [helper.ErrInternalf] together with the standard-error text of that
    invocation.  A failed repack is returned as the bare error of the
    invocation: no standard-error text is captured for it.  Neither command
    is invoked more than once in a run. *)
Theorem FetchFromOrigin_failures origin w :
  let rw := FetchFromOrigin origin w in
  let evs := poolEventsSince w rw.2 in
  (forall cmd opts out err,
     In (EvExec cmd opts out) evs -> Name cmd = "fetch" -> failure out = Some err ->
     rw.1 = Err (ErrInternalf err (stderr out)) /\
     stderrOf (ErrInternalf err (stderr out)) = Some (stderr out)) /\
  (forall cmd opts out err,
     In (EvExec cmd opts out) evs -> Name cmd = "repack" -> failure out = Some err ->
     rw.1 = Err (ErrCollab err) /\ stderrOf (ErrCollab err) = None) /\
  (executions "fetch" evs <= 1)%nat /\
  (executions "repack" evs <= 1)%nat.
Proof.
  intros rw evs. subst rw evs.
  destruct (tracks_FetchFromOrigin origin w) as (evs & Hl & Hnf & Hnr & Hfe & Hre).
  rewrite (poolEventsSince_app _ _ _ Hl). split; [|split; [|split; assumption]].
  - intros cmd opts out err Hin Hn Hfail. split; [eapply Hfe; eassumption | reflexivity].
  - intros cmd opts out err Hin Hn Hfail. split; [eapply Hre; eassumption | reflexivity].
Qed.

End PoolClaims.

(** C7 as stated fails: when the repack exits with status 128 after writing
    to its standard error, the error returned is the bare exit error, and it
    carries none of that text. *)
Lemma FetchFromOrigin_repack_stderr_counterexample :
  let rw := objectpool.FetchFromOrigin (H0:=toyCollaborators "repack") (H:=gitBackend)
              (Ok "/origin.git") toyPool in
  exists cmd opts out,
    In (objectpool.EvExec cmd opts out) (poolEventsSince toyPool rw.2) /\
    objectpool.Name cmd = "repack" /\
    failure out = Some "exit status 128" /\
    objectpool.stderr out = "fatal: repack failed" /\
    rw.1 = Err (objectpool.ErrCollab "exit status 128") /\
    forall e, rw.1 = Err e -> stderrOf e <> Some (objectpool.stderr out).
Proof.
  exists objectpool.repackCmd, [objectpool.WithConfig objectpool.repackConfig],
         (failedOutcome "repack").
  split; [|split; [|split; [|split; [|split]]]].
  - vm_compute. do 10 right. left. reflexivity.
  - reflexivity.
  - reflexivity.
  - reflexivity.
  - reflexivity.
  - intros e He. vm_compute in He. inversion He; subst e. discriminate.
Qed.

Lemma FetchFromOrigin_failures_witness :
  (objectpool.FetchFromOrigin (H0:=toyCollaborators "fetch") (H:=gitBackend)
     (Ok "/origin.git") toyPool).1
  = Err (objectpool.ErrInternalf "exit status 128" "fatal: fetch failed").
Proof.
  destruct (FetchFromOrigin_failures (H0:=toyCollaborators "fetch") (H:=gitBackend)
              (Ok "/origin.git") toyPool) as (Hfetch & _).
  apply (Hfetch (objectpool.fetchCmd "/origin.git")
                [objectpool.WithRefTxHook; objectpool.WithStderr]
                (failedOutcome "fetch") "exit status 128").
  - vm_compute. do 3 right. left. reflexivity.
  - reflexivity.
  - reflexivity.
Defined.

Lemma toyPool_fetch_succeeds :
  exists w', objectpool.FetchFromOrigin (H0:=toyCollaborators "") (H:=gitBackend)
               (Ok "/origin.git") toyPool = (Ok tt, w').
Proof. eexists. vm_compute. reflexivity. Qed.

Lemma toyPool_upToFetch w0 :
  upToFetch (H:=toyCollaborators "") (Ok "/origin.git") toyPool = (Ok tt, w0) ->
  objectpool.refs w0 = {[ "refs/remotes/origin/heads/main" := shaA ]}.
Proof. intros Hpre. vm_compute in Hpre. inversion Hpre. vm_compute. reflexivity. Qed.

Lemma toyPool_scan (rs : gmap string string) (x : unit) :
  objectpool.git (Collaborators:=toyCollaborators "") objectpool.fsckCmd [] (rs, x)
  = ({| objectpool.startErr := None;
        objectpool.stdout := ["notice: HEAD points to an unborn branch (master)";
                              "dangling commit " +:+ shaD; "dangling blob " +:+ shaC];
        objectpool.scanErr := None; objectpool.stderr := "";
        objectpool.waitErr := None |}, (rs, x)).
Proof. reflexivity. Qed.

Lemma toyPool_keepsReferences : keepsReferences (H:=toyCollaborators "").
Proof. repeat split. Qed.

Lemma FetchFromOrigin_rescues_dangling_witness :
  exists w' : objectpool.World unit,
    objectpool.FetchFromOrigin (H0:=toyCollaborators "") (H:=gitBackend)
      (Ok "/origin.git") toyPool = (Ok tt, w') /\
    objectpool.refs w' !! danglingRef shaD = Some shaD /\
    objectpool.refs w' !! danglingRef shaC = Some shaC /\
    forall o, In o toyObjects ->
      exists name target,
        objectpool.refs w' !! name = Some target /\ reaches toyLinks target o.
Proof.
  destruct toyPool_fetch_succeeds as [w' Hrun].
  destruct (FetchFromOrigin_rescues_dangling (H0:=toyCollaborators "") (H:=gitBackend)
              (Ok "/origin.git") toyPool w' toyPool_keepsReferences Hrun)
    as (w0 & w1 & Hpre & _ & _ & _ & _ & Hcreated & Hgraph).
  apply toyPool_upToFetch in Hpre. rewrite toyPool_scan in Hcreated, Hgraph.
  cbn [fst snd objectpool.stdout] in Hcreated, Hgraph. rewrite Hpre in Hgraph.
  exists w'. split; [exact Hrun|]. split; [|split].
  - apply (Hcreated "commit" shaD); [reflexivity | right; left; reflexivity].
  - apply (Hcreated "blob" shaC); [reflexivity | right; right; left; reflexivity].
  - intros o Ho.
    destruct (Hgraph toyObjects toyLinks toyRank 2%nat) with (o := o)
      as (name & target & Hname & Hreach & _).
    + intros p c Hp Hc.
      destruct Hp as [<-|[<-|[<-|[<-|[]]]]]; vm_compute in Hc;
        try contradiction; destruct Hc as [<-|[]]; vm_compute; lia.
    + intros p Hp. destruct Hp as [<-|[<-|[<-|[<-|[]]]]]; vm_compute; lia.
    + intros oid target Hl.
      apply lookup_singleton_Some in Hl as [Hl _]. discriminate Hl.
    + intros p Hp [Hnoref Hnoname].
      destruct Hp as [<-|[<-|[<-|[<-|[]]]]].
      * exfalso. apply (Hnoname "refs/remotes/origin/heads/main"). apply lookup_singleton_eq.
      * exfalso. apply (Hnoref shaA); [now left | left; reflexivity].
      * exists "blob". split; [reflexivity | right; right; left; reflexivity].
      * exists "commit". split; [reflexivity | right; left; reflexivity].
    + exact Ho.
    + exists name, target. split; assumption.
Defined.

(** ** git2go: trees *)

Section MergeFacts.
Import git2go.
Context (mergeFile : string -> string -> string -> option string).

Local Abbreviation resolve3 := (git2go.resolve3 mergeFile).
Local Abbreviation mergeTrees := (git2go.mergeTrees mergeFile).
Local Abbreviation mergeSides := (git2go.mergeSides mergeFile).
Local Abbreviation mergeCommits := (git2go.mergeCommits mergeFile).

Implicit Types (base ours theirs : gmap string string).

Lemma lookup_joined base ours theirs p :
  joined base ours theirs !! p =
    match base !! p, ours !! p, theirs !! p with
    | None, None, None => None
    | b, o, t => Some (b, o, t)
    end.
Proof.
  unfold joined. rewrite !lookup_merge.
  destruct (base !! p), (ours !! p), (theirs !! p); reflexivity.
Qed.

Lemma resolve3_None : resolve3 None None None = (None, false).
Proof. reflexivity. Qed.

Lemma resolve3_unchanged_theirs o t : resolve3 t o t = (o, false).
Proof.
  unfold git2go.resolve3. destruct (decide (o = t)) as [->|Hot]; [reflexivity|].
  rewrite decide_False by congruence. now rewrite decide_True.
Qed.

Lemma resolve3_unchanged_ours o t : resolve3 o o t = (t, false).
Proof.
  unfold git2go.resolve3. destruct (decide (o = t)) as [->|Hot]; [reflexivity|].
  now rewrite decide_True.
Qed.

(** Two different changes that the merge of the file contents cannot combine
    are a conflict. *)
Lemma resolve3_conflict b x y :
  x <> y -> b <> Some x -> b <> Some y -> mergeFile (default "" b) x y = None ->
  resolve3 b (Some x) (Some y) = (Some (markers (Some x) (Some y)), true).
Proof.
  intros Hxy Hbx Hby Hm. unfold git2go.resolve3.
  rewrite !decide_False by congruence. now rewrite Hm.
Qed.

(** The merged tree, path by path. *)
Lemma lookup_mergeTrees base ours theirs p :
  (mergeTrees base ours theirs).1 !! p = (resolve3 (base !! p) (ours !! p) (theirs !! p)).1.
Proof.
  unfold git2go.mergeTrees. cbn [fst]. rewrite lookup_omap, lookup_joined.
  destruct (base !! p), (ours !! p), (theirs !! p); reflexivity.
Qed.

(** The conflicting paths are those where the three-way merge of the blobs
    reports a conflict. *)
Lemma conflicts_mergeTrees base ours theirs p :
  In p (mergeTrees base ours theirs).2 <->
  (resolve3 (base !! p) (ours !! p) (theirs !! p)).2 = true.
Proof.
  unfold git2go.mergeTrees. cbn [snd]. rewrite <- list_elem_of_In, merge_sort_Permutation.
  rewrite list_elem_of_fmap. split.
  - intros ([q [[b o] t]] & -> & Hin). apply list_elem_of_In, filter_In in Hin as [Hin Hc].
    apply list_elem_of_In, elem_of_map_to_list in Hin. rewrite lookup_joined in Hin. simpl in *.
    destruct (base !! q), (ours !! q), (theirs !! q); inversion Hin; subst; exact Hc.
  - intros Hc. exists (p, (base !! p, ours !! p, theirs !! p)). split; [reflexivity|].
    apply list_elem_of_In, filter_In. split; [|exact Hc].
    apply list_elem_of_In, elem_of_map_to_list. rewrite lookup_joined.
    destruct (base !! p), (ours !! p), (theirs !! p); try reflexivity. discriminate Hc.
Qed.

Lemma NoDup_map_fst_filter {A B} (P : A * B -> bool) (l : list (A * B)) :
  NoDup (map fst l) -> NoDup (map fst (List.filter P l)).
Proof.
  induction l as [|x l IH]; simpl; intros Hnd; [constructor|].
  apply NoDup_cons in Hnd as [Hx Hnd]. destruct (P x); simpl; [|now apply IH].
  apply NoDup_cons. split; [|now apply IH].
  intros Hin. apply Hx. apply list_elem_of_In in Hin. apply list_elem_of_In.
  apply in_map_iff in Hin as (y & Hy & Hin). apply in_map_iff. exists y. split; [exact Hy|].
  now apply filter_In in Hin as [Hin _].
Qed.

Lemma NoDup_conflicts base ours theirs : NoDup (mergeTrees base ours theirs).2.
Proof.
  unfold git2go.mergeTrees. cbn [snd]. rewrite merge_sort_Permutation.
  apply NoDup_map_fst_filter. apply NoDup_fst_map_to_list.
Qed.

(** A list without repetition whose only possible member is absent is
    empty; with exactly one member it is that member. *)
Lemma NoDup_nil_iff {A} (l : list A) : (forall x, ~ In x l) -> l = [].
Proof. destruct l as [|x l]; [reflexivity|]. intros Hn. exfalso. apply (Hn x). now left. Qed.

Lemma NoDup_singleton_iff {A} (l : list A) a :
  NoDup l -> (forall x, In x l <-> x = a) -> l = [a].
Proof.
  intros Hnd Hin. destruct l as [|x l].
  - exfalso. now apply (proj2 (Hin a)).
  - assert (x = a) as -> by (apply Hin; now left).
    apply NoDup_cons in Hnd as [Hx Hnd]. f_equal. apply NoDup_nil_iff.
    intros y Hy. assert (y = a) as -> by (apply Hin; now right).
    apply Hx. now apply list_elem_of_In.
Qed.

(** Identical trees on both sides merge to that tree, without conflict,
    whatever the base. *)
Lemma mergeTrees_same base t : mergeTrees base t t = (t, []).
Proof.
  rewrite (surjective_pairing (mergeTrees base t t)). f_equal.
  - apply map_eq. intros p. rewrite lookup_mergeTrees. unfold git2go.resolve3.
    now rewrite decide_True.
  - apply NoDup_nil_iff. intros p Hin. apply conflicts_mergeTrees in Hin.
    unfold git2go.resolve3 in Hin. rewrite decide_True in Hin by reflexivity. discriminate.
Qed.

Lemma mergeSides_same limit fuel level one two :
  sideTree one = sideTree two -> mergeSides limit fuel level one two = (sideTree one, []).
Proof.
  intros Heq. destruct fuel; cbn [git2go.mergeSides]; rewrite <- Heq; apply mergeTrees_same.
Qed.

(** With a single merge base, the merge is the three-way merge of the trees
    against the tree of that base. *)
Lemma mergeCommits_one_base limit (o t b : Commit) :
  mergeBases (sideOf o) (sideOf t) = [b] ->
  mergeCommits limit o t = mergeTrees (tree b) (tree o) (tree t).
Proof.
  intros Hbase. unfold git2go.mergeCommits. cbn [git2go.mergeSides]. rewrite Hbase. reflexivity.
Qed.

(** ** git2go: validation *)

Lemma verify_firstMissing cmd :
  verify cmd = (fun f => "missing " +:+ fieldName f) <$> firstMissing cmd.
Proof.
  unfold verify, firstMissing, requiredFields. cbn [app find isMissing forallb].
  change (isMissing cmd FCommitterName) with (String.eqb (CommitterName cmd) "").
  change (isMissing cmd FCommitterMail) with (String.eqb (CommitterMail cmd) "").
  change (isMissing cmd FCommitterDate) with (IsZero (CommitterDate cmd)).
  destruct (String.eqb (Repository cmd) ""); [reflexivity|].
  destruct (String.eqb (AuthorName cmd) ""); [reflexivity|].
  destruct (String.eqb (AuthorMail cmd) ""); [reflexivity|].
  destruct (String.eqb (Message cmd) ""); [reflexivity|].
  destruct (String.eqb (Ours cmd) ""); [reflexivity|].
  destruct (String.eqb (Theirs cmd) ""); [reflexivity|].
  destruct (String.eqb (CommitterName cmd) "") eqn:Hn,
           (String.eqb (CommitterMail cmd) "") eqn:Hm,
           (IsZero (CommitterDate cmd)) eqn:Hd;
    cbn [negb orb andb find isMissing]; rewrite ?Hn, ?Hm, ?Hd; reflexivity.
Qed.

End MergeFacts.

(** ** git2go: the claims *)

Section MergeClaims.
Import git2go.
Context (mergeFile : string -> string -> string -> option string).
Context (oidString : Commit -> string) (MergeRecursionLimit : nat).

Local Abbreviation Merge := (git2go.Merge mergeFile oidString MergeRecursionLimit).
Local Abbreviation mergeCommits := (git2go.mergeCommits mergeFile MergeRecursionLimit).

(** C2.  A command with a missing required field fails validation with the
    error naming the first missing field in the fixed order (repository,
    author name, author mail, message, ours, theirs, then, only when some
    committer field is set, committer name, committer mail, committer date),
    and the world is untouched: no repository was opened.  With nothing
    missing, a path that holds no repository fails, after validation, with
    the distinct could-not-open-repository error. *)
Theorem Merge_validation_order cmd w :
  (forall f, firstMissing cmd = Some f ->
     Merge cmd w = (Err (ErrInvalidParameters ("missing " +:+ fieldName f)), w) /\
     Error (ErrInvalidParameters ("missing " +:+ fieldName f))
       = "merge: invalid parameters: missing " +:+ fieldName f) /\
  (firstMissing cmd = None -> repos w !! Repository cmd = None ->
     (Merge cmd w).1 = Err (ErrOpenRepository (Repository cmd)) /\
     opened (Merge cmd w).2 = opened w ++ [Repository cmd] /\
     forall missing, ErrOpenRepository (Repository cmd) <> ErrInvalidParameters missing).
Proof.
  unfold git2go.Merge. rewrite verify_firstMissing. split.
  - intros f ->. split; reflexivity.
  - intros -> Hnone. cbn [fmap option_fmap option_map]. unfold bind, openRepository.
    rewrite Hnone. repeat split. intros missing. discriminate.
Qed.

(** C8.  A merge of two revisions that resolve returns a commit exactly when
    the merge of the two commits leaves no path in conflict, and fails with
    the conflicting paths otherwise.  The commit is written to the
    repository under the ObjectID returned.  Its parents are exactly [ours]
    when squashing, so that beyond the new commit its history is the history
    of ours and theirs is not recorded, and exactly [ours], [theirs], in that
    order, otherwise.  In both modes its tree is the merged tree of ours and
    theirs: a squash keeps the content changes of theirs, and with a single
    merge base every path that ours left as the base has it carries the blob
    of theirs.  Conversely, whenever [Merge] returns a commit, it is such a
    commit. *)
Theorem Merge_parents cmd w :
  (forall repo ours theirs,
     verify cmd = None ->
     repos w !! Repository cmd = Some repo ->
     repo !! Ours cmd = Some ours -> repo !! Theirs cmd = Some theirs ->
     match (mergeCommits ours theirs).2 with
     | [] =>
         exists commit,
           (Merge cmd w).1 = Ok {| CommitID := oidString commit |} /\
           repos (Merge cmd w).2 !! Repository cmd = Some (<[oidString commit := commit]> repo) /\
           parents commit = (if Squash cmd then [ours] else [ours; theirs]) /\
           tree commit = (mergeCommits ours theirs).1 /\
           (Squash cmd = true -> ancestors commit = commit :: ancestors ours) /\
           (forall base p,
              mergeBases (sideOf ours) (sideOf theirs) = [base] ->
              tree ours !! p = tree base !! p -> tree commit !! p = tree theirs !! p)
     | conflicts => (Merge cmd w).1 = Err (ErrConflictingFiles conflicts)
     end) /\
  (forall r w',
     Merge cmd w = (Ok r, w') ->
     exists repo ours theirs commit,
       repos w !! Repository cmd = Some repo /\
       repo !! Ours cmd = Some ours /\
       repo !! Theirs cmd = Some theirs /\
       CommitID r = oidString commit /\
       repos w' !! Repository cmd = Some (<[oidString commit := commit]> repo) /\
       parents commit = (if Squash cmd then [ours] else [ours; theirs]) /\
       tree commit = (mergeCommits ours theirs).1 /\
       (mergeCommits ours theirs).2 = []).
Proof.
  split.
  - intros repo ours theirs Hv Hrepo Hours Htheirs.
    unfold git2go.Merge. rewrite Hv.
    unfold bind, openRepository, resolve, writeCommit, modify, ret, fail.
    rewrite Hrepo, Hours, Htheirs.
    destruct (mergeCommits ours theirs) as [merged [|p conflicts]] eqn:Hm; [|reflexivity].
    cbn [fst snd repos]. eexists. split; [reflexivity|].
    split; [now rewrite lookup_alter_eq, Hrepo|]. cbn [parents tree].
    split; [reflexivity|]. split; [reflexivity|]. split.
    + intros ->. cbn [ancestors]. now rewrite app_nil_r.
    + intros base p Hbase Hp.
      rewrite (mergeCommits_one_base mergeFile MergeRecursionLimit _ _ _ Hbase) in Hm.
      apply (f_equal fst) in Hm. cbn [fst] in Hm. rewrite <- Hm, lookup_mergeTrees, <- Hp.
      now rewrite resolve3_unchanged_ours.
  - intros r w'. unfold git2go.Merge. destruct (verify cmd); [discriminate|].
    unfold bind, openRepository, resolve, writeCommit, modify, ret, fail.
    destruct (repos w !! Repository cmd) as [repo|] eqn:Hrepo; [|discriminate].
    destruct (repo !! Ours cmd) as [ours|] eqn:Hours; [|discriminate].
    destruct (repo !! Theirs cmd) as [theirs|] eqn:Htheirs; [|discriminate].
    destruct (mergeCommits ours theirs) as [merged [|p conflicts]] eqn:Hm; [|discriminate].
    intros Hrun. inversion Hrun; subst r w'. clear Hrun.
    exists repo, ours, theirs. eexists.
    repeat split; try eassumption; try reflexivity; try (rewrite Hm; reflexivity).
    cbn [repos]. now rewrite lookup_alter_eq, Hrepo.
Qed.

(** C9.  For a valid command whose ours and theirs carry the same tree, in
    any two worlds in which the repository resolves [ours] and [theirs] to
    the same two commits, both runs succeed (no conflict) and return the same
    ObjectID: that of a commit whose tree is the shared tree, whatever the
    merge base. *)
Theorem Merge_identical_trees_deterministic cmd w1 w2 repo1 repo2 ours theirs :
  verify cmd = None ->
  repos w1 !! Repository cmd = Some repo1 ->
  repos w2 !! Repository cmd = Some repo2 ->
  repo1 !! Ours cmd = Some ours -> repo2 !! Ours cmd = Some ours ->
  repo1 !! Theirs cmd = Some theirs -> repo2 !! Theirs cmd = Some theirs ->
  tree ours = tree theirs ->
  exists commit,
    (Merge cmd w1).1 = Ok {| CommitID := oidString commit |} /\
    (Merge cmd w2).1 = Ok {| CommitID := oidString commit |} /\
    tree commit = tree ours.
Proof.
  intros Hv Hr1 Hr2 Ho1 Ho2 Ht1 Ht2 Htree.
  unfold git2go.Merge. rewrite Hv.
  unfold bind, openRepository, resolve, writeCommit, modify, ret, fail.
  rewrite Hr1, Hr2, Ho1, Ho2, Ht1, Ht2.
  unfold git2go.mergeCommits.
  rewrite (mergeSides_same mergeFile _ _ _ (sideOf ours) (sideOf theirs) Htree).
  eexists. split; [reflexivity|]. split; reflexivity.
Qed.

End MergeClaims.

(** The table of [TestMerge_missingArguments]. *)
Example TestMerge_missingArguments :
  map (fun cmd => errorText (git2go.Merge lineMerge exampleOid 20 cmd mergeWorld).1)
      missingArgumentsRequests
  = missingArgumentsExpected.
Proof. reflexivity. Qed.

(** [TestMerge_invalidRepositoryPath] *)
Example TestMerge_invalidRepositoryPath :
  errorText (git2go.Merge lineMerge exampleOid 20
               (request "/does/not/exist" "Foo" "foo@example.com" "" "" git2go.ZeroTime
                        "Foo" "HEAD" "HEAD" false) mergeWorld).1
  = Some "merge: could not open repository: /does/not/exist".
Proof. reflexivity. Qed.

Lemma Merge_validation_order_witness :
  git2go.Merge lineMerge exampleOid 20
    (request "/repo" "Foo" "foo@example.com" "" "bar@example.com" git2go.ZeroTime
             "" "HEAD" "" false) mergeWorld
  = (Err (git2go.ErrInvalidParameters "missing message"), mergeWorld) /\
  (git2go.Merge lineMerge exampleOid 20
     (request "/does/not/exist" "Foo" "foo@example.com" "" "" git2go.ZeroTime
              "Foo" "HEAD" "HEAD" false) mergeWorld).1
  = Err (git2go.ErrOpenRepository "/does/not/exist").
Proof.
  split.
  - apply (proj1 (Merge_validation_order lineMerge exampleOid 20 _ mergeWorld) FMessage). reflexivity.
  - refine (proj1 (proj2 (Merge_validation_order lineMerge exampleOid 20
                              (request "/does/not/exist" "Foo" "foo@example.com" "" ""
                                       git2go.ZeroTime "Foo" "HEAD" "HEAD" false)
                              mergeWorld) _ _)); reflexivity.
Defined.

(** The cases of [TestMerge_trees], with the merge by lines: the files of
    the new commit, or the conflicting paths, are those the test expects. *)
Example TestMerge_trees :
  map (fun tc => mergeOutcome (git2go.Merge lineMerge exampleOid 20 (treesTestRequest tc)
                                 (treesTestWorld tc)))
      treesTestCases
  = map (fun tc => Some (tcExpected tc)) treesTestCases.
Proof. vm_compute. reflexivity. Qed.

(** [TestMerge_squash], with the merge by lines: the squash merge returns a
    commit whose only parent is ours, which does not descend from theirs, and
    whose file holds the lines of both sides; without squashing the commit
    has the two parents, and the same file. *)
Lemma Merge_parents_witness :
  (exists commit : git2go.Commit,
     (git2go.Merge lineMerge exampleOid 20 (squashTestRequest true) squashTestWorld).1
       = Ok {| git2go.CommitID := exampleOid commit |} /\
     git2go.repos (git2go.Merge lineMerge exampleOid 20 (squashTestRequest true)
                     squashTestWorld).2 !! "/repo"
       = Some (<[ exampleOid commit := commit ]>
                 {[ "ours" := squashTestOurs; "theirs" := squashTestTheirs2 ]}) /\
     git2go.parents commit = [squashTestOurs] /\
     git2go.tree commit = {[ "file.txt" := unlines ["a"; "b"; "c"; "d"] +:+ "e" ]} /\
     ~ In squashTestTheirs2 (git2go.ancestors commit)) /\
  (exists commit : git2go.Commit,
     (git2go.Merge lineMerge exampleOid 20 (squashTestRequest false) squashTestWorld).1
       = Ok {| git2go.CommitID := exampleOid commit |} /\
     git2go.parents commit = [squashTestOurs; squashTestTheirs2] /\
     git2go.tree commit = {[ "file.txt" := unlines ["a"; "b"; "c"; "d"] +:+ "e" ]}).
Proof.
  assert (Hm : git2go.mergeCommits lineMerge 20 squashTestOurs squashTestTheirs2
               = ({[ "file.txt" := unlines ["a"; "b"; "c"; "d"] +:+ "e" ]}, []))
    by (vm_compute; reflexivity).
  split.
  - pose proof (proj1 (Merge_parents lineMerge exampleOid 20 (squashTestRequest true)
                         squashTestWorld)
                  {[ "ours" := squashTestOurs; "theirs" := squashTestTheirs2 ]}
                  squashTestOurs squashTestTheirs2
                  eq_refl eq_refl eq_refl eq_refl) as Hrun.
    rewrite Hm in Hrun. cbn [fst snd] in Hrun.
    destruct Hrun as (commit & Hid & Hrepos & Hparents & Htree & Hhist & _).
    exists commit. split; [exact Hid|]. split; [exact Hrepos|].
    split; [exact Hparents|]. split; [exact Htree|].
    rewrite (Hhist eq_refl). intros [Heq|Hin].
    + apply (f_equal git2go.parents) in Heq. rewrite Hparents in Heq.
      revert Heq. apply (bool_decide_eq_false_1 _). vm_compute. reflexivity.
    + apply list_elem_of_In in Hin. revert Hin.
      apply (bool_decide_eq_false_1 _). vm_compute. reflexivity.
  - pose proof (proj1 (Merge_parents lineMerge exampleOid 20 (squashTestRequest false)
                         squashTestWorld)
                  {[ "ours" := squashTestOurs; "theirs" := squashTestTheirs2 ]}
                  squashTestOurs squashTestTheirs2
                  eq_refl eq_refl eq_refl eq_refl) as Hrun.
    rewrite Hm in Hrun. cbn [fst snd] in Hrun.
    destruct Hrun as (commit & Hid & _ & Hparents & Htree & _).
    exists commit. split; [exact Hid|]. split; [exact Hparents | exact Htree].
Defined.

Lemma Merge_identical_trees_deterministic_witness :
  let cmd := request "/repo" "John Doe" "john.doe@example.com" "" "" git2go.ZeroTime
                     "Merge message" "base" "base" false in
  exists commit : git2go.Commit,
    (git2go.Merge lineMerge exampleOid 20 cmd mergeWorld).1
      = Ok {| git2go.CommitID := exampleOid commit |} /\
    (git2go.Merge lineMerge exampleOid 20 cmd (git2go.Merge lineMerge exampleOid 20 cmd mergeWorld).2).1
      = Ok {| git2go.CommitID := exampleOid commit |} /\
    git2go.tree commit = {[ "file.txt" := "b" ]}.
Proof.
  intros cmd.
  destruct (Merge_identical_trees_deterministic lineMerge exampleOid 20 cmd mergeWorld
              (git2go.Merge lineMerge exampleOid 20 cmd mergeWorld).2
              {[ "ours" := squashOurs; "theirs" := squashTheirs2; "base" := squashBase ]}
              (<[ "Merge message/2" := git2go.mkCommit {[ "file.txt" := "b" ]}
                                         [squashBase; squashBase]
                                         {| git2go.sigName := "John Doe";
                                            git2go.sigMail := "john.doe@example.com";
                                            git2go.sigWhen := git2go.ZeroTime |}
                                         {| git2go.sigName := "John Doe";
                                            git2go.sigMail := "john.doe@example.com";
                                            git2go.sigWhen := git2go.ZeroTime |}
                                         "Merge message" ]>
                 {[ "ours" := squashOurs; "theirs" := squashTheirs2; "base" := squashBase ]})
              squashBase squashBase)
    as (commit & H1 & H2 & Htree);
    try (vm_compute; reflexivity).
  exists commit. split; [exact H1|]. split; [exact H2|]. exact Htree.
Defined.

(** ** git2go: histories *)

Section Histories.
Import git2go.

Lemma Commit_parents_ind (P : Commit -> Prop) :
  (forall c, Forall P (parents c) -> P c) -> forall c, P c.
Proof.
  intros Hstep. fix IH 1. intros [t ps a cm m]. apply Hstep. cbn [parents].
  induction ps as [|p ps IHps]; constructor; [apply IH | exact IHps].
Qed.

Lemma ancestors_eq c : ancestors c = c :: concat (map ancestors (parents c)).
Proof.
  destruct c as [t ps a cm m]. cbn [ancestors parents]. f_equal.
  induction ps as [|p ps IHps]; [reflexivity|]. cbn [map concat]. now rewrite <- IHps.
Qed.

Lemma height_eq c : height c = S (foldr Nat.max 0%nat (map height (parents c))).
Proof.
  destruct c as [t ps a cm m]. cbn [height parents]. f_equal.
  induction ps as [|p ps IHps]; [reflexivity|]. cbn [map foldr]. now rewrite <- IHps.
Qed.

Lemma height_parent c p : In p (parents c) -> (height p < height c)%nat.
Proof.
  rewrite (height_eq c). induction (parents c) as [|q qs IH]; [intros []|].
  cbn [map foldr]. intros [->|Hin]; [lia|]. specialize (IH Hin). lia.
Qed.

(** Beyond the commit itself, its history holds only lower commits. *)
Lemma history_lower c c' :
  In c' (concat (map ancestors (parents c))) -> (height c' < height c)%nat.
Proof.
  revert c'. induction c as [c IH] using Commit_parents_ind. intros c' Hin.
  apply in_concat in Hin as (l & Hl & Hin). apply in_map_iff in Hl as (p & <- & Hp).
  pose proof (height_parent c p Hp) as Hlt.
  rewrite ancestors_eq in Hin. destruct Hin as [<-|Hin]; [exact Hlt|].
  rewrite List.Forall_forall in IH. specialize (IH p Hp c' Hin). lia.
Qed.

Lemma ancestors_height c c' : In c' (ancestors c) -> (height c' <= height c)%nat.
Proof.
  rewrite ancestors_eq. intros [<-|Hin]; [lia|]. apply history_lower in Hin. lia.
Qed.

Lemma ancestors_same_height c c' : In c' (ancestors c) -> height c' = height c -> c' = c.
Proof.
  rewrite ancestors_eq. intros [<-|Hin] Hh; [reflexivity|]. apply history_lower in Hin. lia.
Qed.

Lemma ancestors_self c : In c (ancestors c).
Proof. rewrite ancestors_eq. now left. Qed.

Lemma filter_all {A} (f : A -> bool) l : (forall x, In x l -> f x = true) -> List.filter f l = l.
Proof.
  induction l as [|x l IH]; intros Hall; [reflexivity|]. simpl.
  rewrite (Hall x (or_introl eq_refl)). f_equal. apply IH. intros y Hy. apply Hall. now right.
Qed.

Lemma filter_none {A} (f : A -> bool) l : (forall x, In x l -> f x = false) -> List.filter f l = [].
Proof.
  induction l as [|x l IH]; intros Hall; [reflexivity|]. simpl.
  rewrite (Hall x (or_introl eq_refl)). apply IH. intros y Hy. apply Hall. now right.
Qed.

(** Two different commits of the same height that merged the same two
    commits, crosswise, have exactly these two as merge bases, the first
    parent of the first side first. *)
Lemma mergeBases_crossed a b x y :
  parents a = [x; y] -> parents b = [y; x] -> a <> b -> x <> y -> height x = height y ->
  mergeBases (sideOf a) (sideOf b) = [x; y].
Proof.
  intros Ha Hb Hab Hxy Hh. unfold mergeBases, history, sideOf. cbn [sideHeads map concat].
  rewrite !app_nil_r.
  assert (Hha : height a = S (height x)).
  { rewrite (height_eq a), Ha. cbn [map foldr]. lia. }
  assert (Hhb : height b = S (height x)).
  { rewrite (height_eq b), Hb. cbn [map foldr]. lia. }
  rewrite (ancestors_eq a), Ha. cbn [map concat]. rewrite app_nil_r.
  assert (Hanb : forall c, In c (ancestors b) <-> c = b \/ In c (ancestors y ++ ancestors x)).
  { intros c. rewrite (ancestors_eq b), Hb. cbn [map concat]. rewrite app_nil_r. simpl.
    split; intros [H|H]; auto. }
  (* the common ancestors *)
  cbn [List.filter]. rewrite bool_decide_eq_false_2.
  2:{ intros Hin. apply list_elem_of_In in Hin. apply Hab.
      apply ancestors_same_height; [exact Hin | congruence]. }
  rewrite (filter_all (fun c => bool_decide (c ∈ ancestors b))).
  2:{ intros c Hc. apply bool_decide_eq_true_2, list_elem_of_In, Hanb. right.
      rewrite in_app_iff in *. tauto. }
  set (commons := ancestors x ++ ancestors y).
  assert (Hlow : forall c, In c commons -> (height c <= height x)%nat).
  { intros c Hc. unfold commons in Hc. apply in_app_iff in Hc as [Hc|Hc];
      apply ancestors_height in Hc; lia. }
  assert (Htop : forall z, In z commons -> height z = height x ->
            forallb (fun c' => bool_decide (c' = z) || negb (bool_decide (z ∈ ancestors c')))
                    commons = true).
  { intros z Hz Hhz. apply forallb_forall. intros c' Hc'.
    destruct (decide (c' = z)) as [->|Hne].
    - now rewrite bool_decide_eq_true_2.
    - rewrite (bool_decide_eq_false_2 _ Hne). cbn [orb]. apply negb_true_iff.
      apply bool_decide_eq_false_2. intros Hin. apply list_elem_of_In in Hin. apply Hne.
      symmetry. apply ancestors_same_height; [exact Hin|].
      pose proof (ancestors_height _ _ Hin). specialize (Hlow c' Hc'). lia. }
  assert (Hrest : forall z, In z commons ->
            forall c, In c (concat (map ancestors (parents z))) ->
            forallb (fun c' => bool_decide (c' = c) || negb (bool_decide (c ∈ ancestors c')))
                    commons = false).
  { intros z Hz c Hc. apply not_true_is_false. intros Hall.
    rewrite forallb_forall in Hall. specialize (Hall z Hz).
    pose proof (history_lower _ _ Hc) as Hlt.
    rewrite bool_decide_eq_false_2 in Hall by (intros ->; lia). cbn [orb] in Hall.
    apply negb_true_iff, bool_decide_eq_false in Hall. apply Hall, list_elem_of_In.
    rewrite ancestors_eq. now right. }
  assert (Hx : In x commons) by (apply in_app_iff; left; apply ancestors_self).
  assert (Hy : In y commons) by (apply in_app_iff; right; apply ancestors_self).
  unfold commons at 2. rewrite List.filter_app, (ancestors_eq x), (ancestors_eq y).
  cbn [List.filter]. rewrite (Htop x Hx eq_refl), (Htop y Hy (eq_sym Hh)).
  rewrite (filter_none _ _ (Hrest x Hx)), (filter_none _ _ (Hrest y Hy)).
  cbn [app remove_dups].
  destruct (decide_rel elem_of x [y]) as [Hin|_].
  { apply list_elem_of_singleton in Hin. contradiction. }
  destruct (decide_rel elem_of y []) as [Hin|_]; [|reflexivity].
  now apply not_elem_of_nil in Hin.
Qed.

End Histories.

(** ** The criss-cross history *)

Section CrissCross.
Import git2go.
Context (mergeFile : string -> string -> string -> option string).
Hypothesis Hlines : oneLineConflicts mergeFile.

Local Abbreviation resolve3 := (git2go.resolve3 mergeFile).
Local Abbreviation mergeTrees := (git2go.mergeTrees mergeFile).
Local Abbreviation mergeSides := (git2go.mergeSides mergeFile).

Lemma lookup_filesOf o t p :
  filesOf o t !! p =
    if decide (p = "base") then Some ("base" +:+ nl)
    else if decide (p = "ours") then o
    else if decide (p = "theirs") then t
    else None.
Proof.
  unfold filesOf.
  destruct (decide (p = "base")) as [->|Hb]; [apply lookup_insert_eq|].
  rewrite lookup_insert_ne by congruence.
  destruct (decide (p = "ours")) as [->|Ho].
  { destruct o, t; rewrite ?lookup_insert_eq, ?lookup_insert_ne, ?lookup_empty by discriminate;
      reflexivity. }
  destruct (decide (p = "theirs")) as [->|Ht].
  { destruct o, t; rewrite ?lookup_insert_eq, ?lookup_insert_ne, ?lookup_empty by discriminate;
      reflexivity. }
  destruct o, t; rewrite ?lookup_insert_ne, ?lookup_empty by congruence; reflexivity.
Qed.

(** The merge of three trees of the test, when the file [ours] merges
    cleanly. *)
Lemma mergeTrees_filesOf bo bt oo ot to tt :
  (resolve3 bo oo to).2 = false ->
  mergeTrees (filesOf bo bt) (filesOf oo ot) (filesOf to tt) =
    (filesOf (resolve3 bo oo to).1 (resolve3 bt ot tt).1,
     if (resolve3 bt ot tt).2 then ["theirs"] else []).
Proof.
  intros Hours.
  rewrite (surjective_pairing (mergeTrees (filesOf bo bt) (filesOf oo ot) (filesOf to tt))).
  assert (Hlookup : forall p,
            resolve3 (filesOf bo bt !! p) (filesOf oo ot !! p) (filesOf to tt !! p) =
              if decide (p = "base") then (Some ("base" +:+ nl), false)
              else if decide (p = "ours") then resolve3 bo oo to
              else if decide (p = "theirs") then resolve3 bt ot tt
              else (None, false)).
  { intros p. rewrite !lookup_filesOf.
    destruct (decide (p = "base")); [apply resolve3_unchanged_ours|].
    destruct (decide (p = "ours")); [reflexivity|].
    destruct (decide (p = "theirs")); reflexivity. }
  f_equal.
  - apply map_eq. intros p. rewrite lookup_mergeTrees, Hlookup, lookup_filesOf.
    destruct (decide (p = "base")); [reflexivity|].
    destruct (decide (p = "ours")); [reflexivity|].
    destruct (decide (p = "theirs")); reflexivity.
  - assert (Hin : forall p, In p (mergeTrees (filesOf bo bt) (filesOf oo ot) (filesOf to tt)).2
                    <-> p = "theirs" /\ (resolve3 bt ot tt).2 = true).
    { intros p. rewrite conflicts_mergeTrees, Hlookup.
      destruct (decide (p = "base")) as [->|]; [split; [discriminate|intros [? _]; discriminate]|].
      destruct (decide (p = "ours")) as [->|];
        [rewrite Hours; split; [discriminate|intros [? _]; discriminate]|].
      destruct (decide (p = "theirs")) as [->|]; [tauto|].
      split; [discriminate | tauto]. }
    destruct (resolve3 bt ot tt).2.
    + apply NoDup_singleton_iff; [apply NoDup_conflicts|]. intros p. rewrite Hin. tauto.
    + apply NoDup_nil_iff. intros p Hp. apply Hin in Hp as [_ Hp]. discriminate.
Qed.

Lemma crissCross_S j :
  oursAt (S j) = BuildCommit [oursAt j; theirsAt j]
                   (filesOf (Some (oursLine (S j))) (Some (theirsLine j))) /\
  theirsAt (S j) = BuildCommit [theirsAt j; oursAt j]
                     (filesOf (Some (oursLine j)) (Some (theirsLine (S j)))).
Proof.
  unfold oursAt, theirsAt. cbn [crissCross]. destruct (crissCross j) as [o t]. split; reflexivity.
Qed.

Lemma height_crissCross j :
  height (oursAt j) = (j + 2)%nat /\ height (theirsAt j) = (j + 2)%nat.
Proof.
  induction j as [|j [IHo IHt]]; [split; reflexivity|].
  destruct (crissCross_S j) as [-> ->]. rewrite !height_eq. cbn [BuildCommit parents map foldr].
  rewrite IHo, IHt. lia.
Qed.

Lemma crissCross_apart j : oursAt j <> theirsAt j.
Proof.
  induction j as [|j IH].
  - intros Heq. apply (f_equal tree) in Heq.
    change (filesOf (Some (oursLine 0)) None = filesOf None (Some (theirsLine 0))) in Heq.
    apply (f_equal (fun m : gmap string string => m !! "ours")) in Heq.
    rewrite !lookup_filesOf in Heq. discriminate Heq.
  - destruct (crissCross_S j) as [-> ->]. intros Heq. inversion Heq. contradiction.
Qed.

Lemma tree_crissCross j :
  tree (oursAt j) = filesOf (Some (oursLine j))
                      (match j with O => None | S i => Some (theirsLine i) end) /\
  tree (theirsAt j) = filesOf (match j with O => None | S i => Some (oursLine i) end)
                        (Some (theirsLine j)).
Proof.
  destruct j as [|j]; [split; reflexivity|]. destruct (crissCross_S j) as [-> ->].
  split; reflexivity.
Qed.

Lemma mergeBases_crissCross j :
  mergeBases (sideOf (oursAt (S j))) (sideOf (theirsAt (S j))) = [oursAt j; theirsAt j].
Proof.
  destruct (height_crissCross j) as [Ho Ht].
  apply mergeBases_crossed.
  - now destruct (crissCross_S j) as [-> _].
  - now destruct (crissCross_S j) as [_ ->].
  - apply crissCross_apart.
  - apply crissCross_apart.
  - congruence.
Qed.

Lemma mergeBases_root :
  mergeBases (sideOf (oursAt 0)) (sideOf (theirsAt 0)) = [recursiveBase].
Proof. vm_compute. reflexivity. Qed.

(** *** The contents of the files *)

Lemma itoa_inj x y : itoa x = itoa y -> x = y.
Proof.
  unfold itoa. intros Heq. apply DecimalZ.to_int_inj.
  assert (Hnn : forall z, Z.to_int z <> Decimal.Pos Decimal.Nil /\
                          Z.to_int z <> Decimal.Neg Decimal.Nil).
  { intros [|p|p]; simpl; split; try discriminate; intros Hp; inversion Hp as [Hq];
      now apply DecimalPos.Unsigned.to_uint_nonnil in Hq. }
  apply (f_equal NilZero.int_of_string) in Heq.
  rewrite !NilZero.isi in Heq by apply Hnn. now inversion Heq.
Qed.

Lemma append_nl_inj s1 s2 : s1 +:+ nl = s2 +:+ nl -> s1 = s2.
Proof.
  revert s2. induction s1 as [|c s1 IH]; intros [|d s2]; simpl; intros Heq.
  - reflexivity.
  - inversion Heq as [[Hc Hs]]. destruct s2; discriminate.
  - inversion Heq as [[Hc Hs]]. destruct s1; discriminate.
  - inversion Heq as [[Hc Hs]]. f_equal. now apply IH.
Qed.

Lemma theirsLine_inj a b : theirsLine a = theirsLine b -> a = b.
Proof.
  unfold theirsLine. intros Heq. apply (inj (String.app "theirs-")) in Heq.
  apply append_nl_inj, itoa_inj in Heq. lia.
Qed.

Lemma markers_not_theirsLine o t k : markers o t <> theirsLine k.
Proof. unfold markers, theirsLine. simpl. discriminate. Qed.

(** *** One level of the recursion *)

Lemma mergeSides_root L fuel level :
  mergeSides L fuel level (sideOf (oursAt 0)) (sideOf (theirsAt 0)) = (cleanTree 0, []).
Proof.
  assert (Hbase : mergeTrees (tree recursiveBase) (tree (oursAt 0)) (tree (theirsAt 0))
                  = (cleanTree 0, [])).
  { change (tree recursiveBase) with (filesOf None None).
    destruct (tree_crissCross 0) as [-> ->].
    rewrite mergeTrees_filesOf by (now rewrite resolve3_unchanged_theirs).
    now rewrite resolve3_unchanged_theirs, resolve3_unchanged_ours. }
  destruct fuel; cbn [git2go.mergeSides]; rewrite mergeBases_root; exact Hbase.
Qed.

Lemma mergeSides_step L fuel level j :
  mergeSides L fuel level (sideOf (oursAt (S j))) (sideOf (theirsAt (S j))) =
    mergeTrees
      (match fuel with
       | O => tree (oursAt j)
       | S fuel' =>
           if (L <? S level)%nat then tree (oursAt j)
           else (mergeSides L fuel' (S (S level)) (sideOf (oursAt j)) (sideOf (theirsAt j))).1
       end)
      (tree (oursAt (S j))) (tree (theirsAt (S j))).
Proof.
  destruct fuel; cbn [git2go.mergeSides]; rewrite mergeBases_crissCross; [reflexivity|].
  destruct (L <? S level)%nat; reflexivity.
Qed.

(** With the first candidate as base, the file [theirs] is in conflict. *)
Lemma mergeTrees_first_candidate j :
  mergeTrees (tree (oursAt j)) (tree (oursAt (S j))) (tree (theirsAt (S j)))
  = (conflictTree (S j), ["theirs"]).
Proof.
  destruct (tree_crissCross (S j)) as [-> ->]. destruct (tree_crissCross j) as [-> _].
  rewrite mergeTrees_filesOf by (now rewrite resolve3_unchanged_theirs).
  rewrite resolve3_unchanged_theirs, resolve3_conflict; [reflexivity | | | |].
  - intros Heq. apply theirsLine_inj in Heq. lia.
  - destruct j; [discriminate|]. intros Heq. apply (inj Some), theirsLine_inj in Heq. lia.
  - destruct j; [discriminate|]. intros Heq. apply (inj Some), theirsLine_inj in Heq. lia.
  - apply Hlines. lia.
Qed.

(** With the clean virtual base, the merge is clean. *)
Lemma mergeTrees_clean_base j :
  mergeTrees (cleanTree j) (tree (oursAt (S j))) (tree (theirsAt (S j)))
  = (cleanTree (S j), []).
Proof.
  destruct (tree_crissCross (S j)) as [-> ->]. unfold cleanTree.
  rewrite mergeTrees_filesOf by (now rewrite resolve3_unchanged_theirs).
  now rewrite resolve3_unchanged_theirs, resolve3_unchanged_ours.
Qed.

(** With a virtual base that holds conflict markers in [theirs], the file
    [theirs] is in conflict again. *)
Lemma mergeTrees_conflicted_base j :
  mergeTrees (conflictTree j) (tree (oursAt (S j))) (tree (theirsAt (S j)))
  = (conflictTree (S j), ["theirs"]).
Proof.
  destruct (tree_crissCross (S j)) as [-> ->]. unfold conflictTree.
  rewrite mergeTrees_filesOf by (now rewrite resolve3_unchanged_theirs).
  rewrite resolve3_unchanged_theirs, resolve3_conflict; [reflexivity | | | |].
  - intros Heq. apply theirsLine_inj in Heq. lia.
  - intros Heq. apply (inj Some) in Heq. now apply markers_not_theirsLine in Heq.
  - intros Heq. apply (inj Some) in Heq. now apply markers_not_theirsLine in Heq.
  - apply Hlines. lia.
Qed.

(** The recursive merge of the tips of [j] criss-cross patterns, entered at
    recursion level [level]: clean when the levels it needs, two for each
    pattern, stay within the limit; otherwise the file [theirs] is in
    conflict. *)
Lemma mergeSides_crissCross L j : forall fuel level,
  (L + 1 <= fuel + level)%nat -> (level <= L + 1)%nat ->
  mergeSides L fuel level (sideOf (oursAt j)) (sideOf (theirsAt j)) =
    if decide (level + 2 * j <= L + 1)%nat then (cleanTree j, [])
    else (conflictTree j, ["theirs"]).
Proof.
  induction j as [|j IH]; intros fuel level Hfuel Hlevel.
  - rewrite mergeSides_root. now rewrite decide_True by lia.
  - rewrite mergeSides_step. destruct fuel as [|fuel].
    + rewrite decide_False by lia. apply mergeTrees_first_candidate.
    + destruct (Nat.ltb_spec L (S level)) as [Hlt|Hge].
      * rewrite decide_False by lia. apply mergeTrees_first_candidate.
      * rewrite (IH fuel (S (S level))) by lia.
        destruct (decide (S (S level) + 2 * j <= L + 1)%nat) as [Hok|Hno].
        -- rewrite decide_True by lia. apply mergeTrees_clean_base.
        -- rewrite decide_False by lia. apply mergeTrees_conflicted_base.
Qed.

End CrissCross.

(** ** git2go: the recursion limit *)

Section RecursionLimit.
Import git2go.
Context (mergeFile : string -> string -> string -> option string).
Context (oidString : Commit -> string).

Local Abbreviation Merge := (git2go.Merge mergeFile oidString).
Local Abbreviation mergeCommits := (git2go.mergeCommits mergeFile).

Lemma mergeCommits_crissCross L n :
  oneLineConflicts mergeFile ->
  mergeCommits L (oursAt n) (theirsAt n) =
    if decide (2 * n <= L + 1)%nat then (cleanTree n, []) else (conflictTree n, ["theirs"]).
Proof.
  intros Hlines. unfold git2go.mergeCommits.
  rewrite (mergeSides_crissCross mergeFile Hlines) by lia. reflexivity.
Qed.

Lemma Merge_crissCross L n :
  (Merge L recursiveRequest (crissCrossWorld n)).1 =
    match mergeCommits L (oursAt n) (theirsAt n) with
    | (_, (_ :: _) as conflicts) => Err (ErrConflictingFiles conflicts)
    | (merged, []) =>
        Ok {| CommitID :=
                oidString (mkCommit merged [oursAt n; theirsAt n]
                             {| sigName := "John Doe"; sigMail := "john.doe@example.com";
                                sigWhen := ZeroTime |}
                             {| sigName := "John Doe"; sigMail := "john.doe@example.com";
                                sigWhen := ZeroTime |}
                             "Merge message") |}
    end.
Proof.
  unfold git2go.Merge. change (verify recursiveRequest) with (@None string). cbv iota.
  unfold bind, openRepository, resolve, writeCommit, modify, ret, fail.
  change (Repository recursiveRequest) with "/repo".
  change (Ours recursiveRequest) with "ours". change (Theirs recursiveRequest) with "theirs".
  unfold crissCrossWorld. cbn [repos]. rewrite lookup_singleton_eq.
  rewrite lookup_insert_eq, lookup_insert_ne, lookup_singleton_eq by discriminate.
  destruct (mergeCommits L (oursAt n) (theirsAt n)) as [merged [|p conflicts]]; reflexivity.
Qed.


End RecursionLimit.

(** ** The merge by lines of the examples *)

Lemma commonPrefix_le_r a b : (commonPrefix a b <= length b)%nat.
Proof.
  revert b. induction a as [|x a IH]; intros [|y b]; cbn [commonPrefix length]; try lia.
  destruct (String.eqb x y); [specialize (IH b)|]; lia.
Qed.

(** Two different single lines are never combined, whatever the base. *)
Lemma lineMerge_single_lines base x y :
  textLines x = [x] -> textLines y = [y] -> x <> y -> lineMerge base x y = None.
Proof.
  intros Hx Hy Hxy. unfold lineMerge. rewrite Hx, Hy. cbn [length].
  destruct (textLines base) as [|z [|z' b]] eqn:Hb.
  - reflexivity.
  - unfold commonSuffix. cbn [rev app commonPrefix length].
    destruct (String.eqb_spec z x) as [Hzx|Hzx], (String.eqb_spec z y) as [Hzy|Hzy];
      try congruence; reflexivity.
  - pose proof (commonPrefix_le_r (z :: z' :: b) [x]) as Hpx.
    pose proof (commonPrefix_le_r (z :: z' :: b) [y]) as Hpy.
    cbn [length] in *.
    rewrite (proj2 (Nat.ltb_ge _ _)) by lia. rewrite (proj2 (Nat.ltb_ge _ _)) by lia.
    reflexivity.
Qed.

Lemma textLines_line s :
  hasByte "010" s = false -> textLines (s +:+ nl) = [s +:+ nl].
Proof.
  induction s as [|c s IH]; [reflexivity|]. cbn [hasByte]. intros Hs.
  apply orb_false_iff in Hs as [Hc Hs]. change (String c s +:+ nl) with (String c (s +:+ nl)).
  cbn [textLines]. now rewrite Hc, (IH Hs).
Qed.

Lemma textLines_theirsLine i : textLines (theirsLine i) = [theirsLine i].
Proof.
  unfold theirsLine. change ("theirs-" +:+ itoa (Z.of_nat i) +:+ nl)
    with (("theirs-" +:+ itoa (Z.of_nat i)) +:+ nl) at 1.
  rewrite textLines_line; [reflexivity|].
  cbn [String.append hasByte Ascii.eqb Bool.eqb orb andb]. apply hasByte_itoa; [lia|].
  intros k Hk. cbn in Hk. repeat destruct Hk as [<-|Hk]; try reflexivity. contradiction.
Qed.

Lemma lineMerge_oneLineConflicts : oneLineConflicts lineMerge.
Proof.
  intros base i j Hij. apply lineMerge_single_lines; try apply textLines_theirsLine.
  intros Heq. apply Hij. now apply theirsLine_inj.
Qed.


(** One pattern within a limit of 1, two patterns beyond it, by evaluation
    of the engine. *)
Example crissCross_evaluated :
  (exists id, (git2go.Merge lineMerge exampleOid 1 recursiveRequest (crissCrossWorld 1)).1
              = Ok id) /\
  (git2go.Merge lineMerge exampleOid 1 recursiveRequest (crissCrossWorld 2)).1
    = Err (git2go.ErrConflictingFiles ["theirs"]).
Proof. split; [eexists|]; vm_compute; reflexivity. Qed.


(** * Further properties *)

(** ** internalrefs: the lookup table *)

Section LookupFacts.
Import cleaner.

Implicit Types (line sha name : string) (lines : list string) (out table : Table).

Lemma listedRef_Some line sha name :
  listedRef line = Some (sha, name) <->
  line = sha +:+ " " +:+ name /\ hasByte " " sha = false /\ String.length sha = 40%nat.
Proof.
  unfold listedRef. split.
  - destruct (cut " " line) as [[a b]|] eqn:Hcut; [|discriminate].
    destruct (String.length a =? 40)%nat eqn:Hlen; [|discriminate].
    intros [= -> ->]. apply cut_Some in Hcut as [-> Ha].
    apply Nat.eqb_eq in Hlen. auto.
  - intros (-> & Hs & Hlen).
    change (sha +:+ " " +:+ name) with (sha +:+ String " " name).
    rewrite (cut_app " " sha name Hs), Hlen. reflexivity.
Qed.

Lemma SplitN_2 line :
  SplitN line " " 2 = match cut " " line with
                      | Some (a, b) => [a; b]
                      | None => [line]
                      end.
Proof. cbn [SplitN]. destruct (cut " " line) as [[a b]|]; reflexivity. Qed.

(** One turn of the loop of [buildLookupTable]. *)
Lemma scanRefs_cons line lines out :
  scanRefs (line :: lines) out =
    match listedRef line with
    | Some (sha, name) => scanRefs lines (<[sha := default [] (out !! sha) ++ [name]]> out)
    | None => Err ErrParseRefs
    end.
Proof.
  cbn [scanRefs]. rewrite SplitN_2. unfold listedRef.
  destruct (cut " " line) as [[a b]|]; [|reflexivity].
  unfold len. destruct (String.length a =? 40)%nat eqn:Hlen.
  - apply Nat.eqb_eq in Hlen. rewrite Hlen. reflexivity.
  - apply Nat.eqb_neq in Hlen.
    replace (Z.of_nat (String.length a) =? 40) with false; [reflexivity|].
    symmetry. apply Z.eqb_neq. lia.
Qed.

Lemma namesAt_cons sha line lines :
  namesAt sha (line :: lines) =
    match listedRef line with
    | Some (s, name) => if decide (s = sha) then name :: namesAt sha lines else namesAt sha lines
    | None => namesAt sha lines
    end.
Proof.
  unfold namesAt. cbn [omap list_omap].
  destruct (listedRef line) as [[s name]|]; [|reflexivity].
  destruct (decide (s = sha)); reflexivity.
Qed.

(** The loop appends to each key the names listed for it, and fails on the
    first line that does not parse. *)
Lemma scanRefs_Ok lines : forall out table,
  scanRefs lines out = Ok table ->
  Forall (fun line => is_Some (listedRef line)) lines /\
  (forall sha, default [] (table !! sha) = default [] (out !! sha) ++ namesAt sha lines) /\
  ((forall sha names, out !! sha = Some names -> names <> []) ->
   forall sha names, table !! sha = Some names -> names <> []).
Proof.
  induction lines as [|line lines IH]; intros out table.
  - intros [= <-]. split; [constructor|]. split; [|auto].
    intros sha. cbn. now rewrite app_nil_r.
  - rewrite scanRefs_cons. destruct (listedRef line) as [[s name]|] eqn:Hl; [|discriminate].
    intros Hrun. destruct (IH _ _ Hrun) as (Hall & Hnames & Hne).
    split; [constructor; [rewrite Hl; eexists; reflexivity | exact Hall]|]. split.
    + intros sha. rewrite Hnames, namesAt_cons, Hl.
      destruct (decide (s = sha)) as [->|Hs].
      * rewrite lookup_insert_eq. cbn [default from_option id]. now rewrite <- app_assoc.
      * now rewrite lookup_insert_ne.
    + intros Hout. apply Hne. intros sha names.
      destruct (decide (s = sha)) as [->|Hs].
      * rewrite lookup_insert_eq. intros [= <-]. now destruct (default [] (out !! sha)).
      * rewrite lookup_insert_ne by assumption. apply Hout.
Qed.

Lemma scanRefs_all_listed lines : forall out,
  Forall (fun line => is_Some (listedRef line)) lines -> exists table, scanRefs lines out = Ok table.
Proof.
  induction lines as [|line lines IH]; intros out Hall.
  - now eexists.
  - inversion Hall as [|? ? [[s name] Hl] Hrest]; subst.
    rewrite scanRefs_cons, Hl. now apply IH.
Qed.

Lemma scanRefs_not_listed lines : forall out,
  Exists (fun line => listedRef line = None) lines -> scanRefs lines out = Err ErrParseRefs.
Proof.
  induction lines as [|line lines IH]; intros out Hex.
  - inversion Hex.
  - rewrite scanRefs_cons. destruct (listedRef line) as [[s name]|] eqn:Hl; [|reflexivity].
    apply IH. inversion Hex as [? ? Hnone|]; subst; [congruence | assumption].
Qed.

Lemma scanRefs_error lines out e : scanRefs lines out = Err e -> e = ErrParseRefs.
Proof.
  revert out. induction lines as [|line lines IH]; intros out; [discriminate|].
  rewrite scanRefs_cons. destruct (listedRef line) as [[s name]|]; [apply IH | now intros [= <-]].
Qed.

Lemma In_namesAt sha name lines :
  In name (namesAt sha lines) <->
  hasByte " " sha = false /\ String.length sha = 40%nat /\ In (sha +:+ " " +:+ name) lines.
Proof.
  induction lines as [|line lines IH].
  - cbn. tauto.
  - rewrite namesAt_cons. destruct (listedRef line) as [[s n]|] eqn:Hl.
    + apply listedRef_Some in Hl as (-> & Hs & Hlen).
      destruct (decide (s = sha)) as [->|Hne].
      * cbn [In]. rewrite IH. split.
        -- intros [->|(_ & _ & Hin)]; auto.
        -- intros (_ & _ & [Heq|Hin]); [|right; auto].
           left. change (sha +:+ " " +:+ n) with (sha +:+ String " " n) in Heq.
           change (sha +:+ " " +:+ name) with (sha +:+ String " " name) in Heq.
           apply (f_equal (cut " ")) in Heq. rewrite !cut_app in Heq by assumption. congruence.
      * rewrite IH. cbn [In]. split; [intros (? & ? & ?); auto|].
        intros (Hsha & Hlen' & [Heq|Hin]); [|auto]. exfalso. apply Hne.
        change (s +:+ " " +:+ n) with (s +:+ String " " n) in Heq.
        change (sha +:+ " " +:+ name) with (sha +:+ String " " name) in Heq.
        apply (f_equal (cut " ")) in Heq. rewrite !cut_app in Heq by assumption. congruence.
    + rewrite IH. cbn [In]. split; [intros (? & ? & ?); auto|].
      intros (Hsha & Hlen & [Heq|Hin]); [|auto]. exfalso.
      assert (Hsome : listedRef line = Some (sha, name)) by (apply listedRef_Some; auto).
      congruence.
Qed.

End LookupFacts.

(** ** internalrefs: what the loop stages *)

Section StagingFacts.
Context {CB : Type} `{updateref.Backend}.
Import internalrefs.

Implicit Types (c : Cleaner CB) (w : World CB) (line : string) (lines : list string).

Lemma forEachM_delete_staged rs : forall w,
  updateref.state (updater w) = updateref.Open ->
  updateref.staged (updater (forEachM updaterDelete rs w).2)
    = updateref.staged (updater w) ++ map updateref.OpDelete rs.
Proof.
  induction rs as [|ref rs IH]; intros w Ho; cbn [forEachM map].
  - unfold ret. cbn. now rewrite app_nil_r.
  - destruct (updaterDelete_open ref w Ho) as (Hr & _ & Ho').
    assert (Hs : updateref.staged (updater (updaterDelete ref w).2)
                 = updateref.staged (updater w) ++ [updateref.OpDelete ref]).
    { unfold updaterDelete, updateref.Delete, updateref.stage. rewrite Ho. reflexivity. }
    unfold bind. destruct (updaterDelete ref w) as [r w1]; cbn [fst snd] in *; subst r.
    rewrite (IH w1 Ho'), Hs, <- app_assoc. reflexivity.
Qed.

Lemma callForEach_updater (f : ForEachFunc CB) o n p w :
  updater (callForEach f o n p w).2 = updater w /\ refs (callForEach f o n p w).2 = refs w.
Proof.
  unfold callForEach. destruct (f o n p (cb w)) as [[msg|] cb']; split; reflexivity.
Qed.

Lemma processEntry_staged c o n w w1 :
  updateref.state (updater w) = updateref.Open ->
  processEntry c o n w = (Ok tt, w1) ->
  updateref.staged (updater w1)
    = updateref.staged (updater w) ++ map updateref.OpDelete (refsOf c o) /\
  updateref.state (updater w1) = updateref.Open.
Proof.
  intros Ho. unfold processEntry, bind, refsOf.
  assert (Hstep : forall w0 : World CB,
            updater w0 = updater w ->
            (if negb (bool_decide (is_Some (table c !! o))) then ret tt
             else forEachM updaterDelete (default [] (table c !! o))) w0 = (Ok tt, w1) ->
            updateref.staged (updater w1)
              = updateref.staged (updater w) ++ map updateref.OpDelete (default [] (table c !! o)) /\
            updateref.state (updater w1) = updateref.Open).
  { intros w0 Hu. destruct (table c !! o) as [rs|] eqn:Ht; cbn [default from_option id].
    - rewrite bool_decide_eq_true_2 by now eexists. cbn [negb].
      intros Hrun. rewrite <- Hu in Ho |- *.
      pose proof (forEachM_delete_staged rs w0 Ho) as Hs.
      destruct (forEachM_delete_open rs w0 Ho) as (_ & _ & Ho').
      rewrite Hrun in Hs, Ho'. auto.
    - rewrite bool_decide_eq_false_2 by (intros [x Hx]; discriminate). cbn [negb].
      intros [= <-]. rewrite Hu, app_nil_r. auto. }
  destruct (forEach c) as [f|].
  - pose proof (callForEach_updater f o n (bool_decide (is_Some (table c !! o))) w) as [Hu _].
    destruct (callForEach f o n (bool_decide (is_Some (table c !! o))) w) as [[[]|e] w0];
      [|discriminate].
    apply Hstep. exact Hu.
  - unfold ret at 1. apply Hstep. reflexivity.
Qed.

(** A loop that ends without error met no malformed record, and staged, in
    order, the deletion of every reference that the table lists for the old
    OID of each entry. *)
Lemma scanLoop_staged c lines : forall i w w1,
  updateref.state (updater w) = updateref.Open ->
  scanLoop c i lines w = (Ok tt, w1) ->
  updateref.staged (updater w1)
    = updateref.staged (updater w)
      ++ map updateref.OpDelete (flat_map (fun e => refsOf c e.1) (entriesOf lines)) /\
  updateref.state (updater w1) = updateref.Open /\
  List.Forall (fun line => ~ malformedRecord line) lines.
Proof.
  induction lines as [|line rest IH]; intros i w w1 Ho.
  - intros [= <-]. cbn. rewrite app_nil_r. auto.
  - cbn [scanLoop].
    destruct (line_cases line) as [->|[(o & n & -> & Hso & Hlo & Hln)|Hbad]].
    + rewrite applyLine_header, bind_ret_l, entriesOf_header. intros Hrun.
      destruct (IH _ _ _ Ho Hrun) as (Hs & Ho' & Hall). repeat split; try assumption.
      constructor; [|exact Hall]. intros [Hne _]. now apply Hne.
    + assert (Hwf : ~ malformedRecord (o +:+ " " +:+ n)).
      { intros [_ Hn]. apply Hn. exists o, n. auto. }
      rewrite (applyLine_wellFormed _ _ _ _ Hso Hlo Hln), (entriesOf_record _ _ _ Hso Hlo Hln).
      destruct (String.eqb o n).
      * rewrite bind_ret_l. intros Hrun.
        destruct (IH _ _ _ Ho Hrun) as (Hs & Ho' & Hall). repeat split; try assumption.
        now constructor.
      * unfold bind. destruct (processEntry c o n w) as [[[]|e] w0] eqn:Hp; [|discriminate].
        intros Hrun. destruct (processEntry_staged _ _ _ _ _ Ho Hp) as [Hs0 Ho0].
        destruct (IH _ _ _ Ho0 Hrun) as (Hs & Ho' & Hall).
        split; [|split; [assumption | now constructor]].
        rewrite Hs, Hs0. cbn [flat_map fst]. rewrite map_app, <- app_assoc. reflexivity.
    + rewrite (applyLine_malformed _ _ _ Hbad). unfold bind, fail. discriminate.
Qed.

Lemma record_inj o n o' n' :
  hasByte " " o = false -> hasByte " " o' = false ->
  o +:+ " " +:+ n = o' +:+ " " +:+ n' -> o = o' /\ n = n'.
Proof.
  intros Ho Ho' Heq.
  change (o +:+ " " +:+ n) with (o +:+ String " " n) in Heq.
  change (o' +:+ " " +:+ n') with (o' +:+ String " " n') in Heq.
  apply (f_equal (cut " ")) in Heq. rewrite !cut_app in Heq by assumption.
  now inversion Heq.
Qed.

(** The entries of a map free of malformed records are its records with two
    different OIDs. *)
Lemma In_entriesOf lines o n :
  List.Forall (fun line => ~ malformedRecord line) lines ->
  In (o, n) (entriesOf lines) <->
  In (o +:+ " " +:+ n) lines /\ hasByte " " o = false /\
  String.length o = 40%nat /\ String.length n = 40%nat /\ o <> n.
Proof.
  induction 1 as [|line rest Hline Hrest IH].
  - cbn. tauto.
  - destruct (line_cases line) as [->|[(o' & n' & -> & Hso & Hlo & Hln)|Hbad]];
      [| |contradiction].
    + rewrite entriesOf_header, IH. cbn [In]. split; [intros (? & ?); auto|].
      intros ([Heq|Hin] & Hso & Hlo & Hln & Hne); [|auto].
      exfalso. apply header_not_wellFormed. exists o, n. auto.
    + rewrite (entriesOf_record _ _ _ Hso Hlo Hln).
      destruct (String.eqb o' n') eqn:Heqb.
      * apply String.eqb_eq in Heqb as ->. rewrite IH. cbn [In].
        split; [intros (? & ?); auto|].
        intros ([Heq|Hin] & Hso' & Hlo' & Hln' & Hne); [|auto].
        exfalso. apply Hne. destruct (record_inj _ _ _ _ Hso Hso' Heq). congruence.
      * apply String.eqb_neq in Heqb. cbn [In]. rewrite IH. split.
        -- intros [[= <- <-]|(? & ?)]; auto 10.
        -- intros ([Heq|Hin] & Hso' & Hlo' & Hln' & Hne); [|auto 10].
           left. destruct (record_inj _ _ _ _ Hso Hso' Heq). congruence.
Qed.

Lemma applyAll_deletes names name : forall st : gmap string string,
  (In name names -> updateref.applyAll st (map updateref.OpDelete names) !! name = None) /\
  (~ In name names ->
   updateref.applyAll st (map updateref.OpDelete names) !! name = st !! name).
Proof.
  unfold updateref.applyAll.
  induction names as [|x names IH]; intros st; cbn [map fold_left In].
  - split; [contradiction | reflexivity].
  - destruct (IH (updateref.apply st (updateref.OpDelete x))) as [IHin IHout].
    cbn [updateref.apply] in *. split.
    + intros [->|Hin].
      * destruct (in_dec String.string_dec name names) as [Hin|Hnin]; [now apply IHin|].
        rewrite IHout by assumption. apply lookup_delete_eq.
      * now apply IHin.
    + intros Hnot. rewrite IHout by tauto. apply lookup_delete_ne. tauto.
Qed.

Lemma applyLine_unchanged c i line : isUnchanged line = true -> applyLine c i line = ret tt.
Proof.
  unfold isUnchanged. destruct (recordOf line) as [[o n]|] eqn:Hrec; [|discriminate].
  intros Heq. apply bool_decide_eq_true in Heq as <-.
  apply recordOf_Some in Hrec as (-> & Hso & Hlo & Hln).
  rewrite (applyLine_wellFormed _ _ _ _ Hso Hlo Hln), String.eqb_refl. reflexivity.
Qed.

(** Records of unchanged objects have no effect on the world the loop
    produces, and none on its outcome but for the line number. *)
Lemma scanLoop_noUnchanged c lines : forall i j w,
  (scanLoop c i lines w).2 = (scanLoop c j (noUnchanged lines) w).2 /\
  sameUpToLine (scanLoop c i lines w).1 (scanLoop c j (noUnchanged lines) w).1.
Proof.
  induction lines as [|line rest IH]; intros i j w.
  - cbn. split; [reflexivity | now left].
  - unfold noUnchanged. cbn [List.filter]. fold (noUnchanged rest).
    destruct (isUnchanged line) eqn:Hu; cbn [negb].
    + cbn [scanLoop]. rewrite (applyLine_unchanged _ _ _ Hu), bind_ret_l. apply IH.
    + cbn [scanLoop]. unfold bind.
      destruct (applyLine_counter c i j line w) as [Hw Hr].
      destruct (applyLine c i line w) as [[[]|e] w1], (applyLine c j line w) as [r2 w2];
        simpl in Hw, Hr; subst w2.
      * apply sameUpToLine_Ok_l in Hr as ->. apply IH.
      * destruct (sameUpToLine_Err_l _ _ Hr) as [e' ->]. simpl. split; [reflexivity | exact Hr].
Qed.

End StagingFacts.

(** ** internalrefs: building the table and cleaning with it *)

Section LookupClaims.
Import cleaner.

(** What a table that [buildLookupTable] returned holds. *)
Lemma buildLookupTable_Ok Exec prefixes table :
  buildLookupTable Exec prefixes = Ok table ->
  let lines := bufio.Text (command.scanner (Exec (forEachRefCmd prefixes))) in
  Forall (fun line => is_Some (listedRef line)) lines /\
  (forall sha, default [] (table !! sha) = namesAt sha lines) /\
  (forall sha names, table !! sha = Some names -> names <> []).
Proof.
  intros Hrun lines. unfold buildLookupTable in Hrun. cbv zeta in Hrun. fold lines in Hrun.
  destruct (command.startErr _); [discriminate|].
  destruct (scanRefs _ ∅) as [out|e] eqn:Hscan; [|discriminate].
  assert (table = out) as ->.
  { destruct (command.waitErr _); [discriminate|].
    destruct (bufio.Err _); [discriminate|]. now inversion Hrun. }
  destruct (scanRefs_Ok _ _ _ Hscan) as (Hall & Hnames & Hne).
  split; [exact Hall|]. split.
  - intros sha. rewrite Hnames, lookup_empty. reflexivity.
  - apply Hne. intros sha names. now rewrite lookup_empty.
Qed.

(** The names of a table are those of its listing. *)
Lemma buildLookupTable_In Exec prefixes table :
  buildLookupTable Exec prefixes = Ok table ->
  let lines := bufio.Text (command.scanner (Exec (forEachRefCmd prefixes))) in
  (forall sha name,
     In name (default [] (table !! sha)) ->
     In (sha +:+ " " +:+ name) lines /\ String.length sha = 40%nat /\
     hasByte " " sha = false) /\
  (forall sha name,
     hasByte " " sha = false -> In (sha +:+ " " +:+ name) lines ->
     In name (default [] (table !! sha))).
Proof.
  intros Hrun lines. destruct (buildLookupTable_Ok _ _ _ Hrun) as (Hall & Hd & _).
  fold lines in Hall, Hd. split.
  - intros sha name. rewrite Hd, In_namesAt. tauto.
  - intros sha name Hs Hin. rewrite Hd, In_namesAt. split; [exact Hs|]. split; [|exact Hin].
    apply List.Forall_forall with (x := sha +:+ " " +:+ name) in Hall; [|exact Hin].
    destruct Hall as [[a b] Hl]. apply listedRef_Some in Hl as (Heq & Ha & Hlen).
    change (sha +:+ " " +:+ name) with (sha +:+ String " " name) in Heq.
    change (a +:+ " " +:+ b) with (a +:+ String " " b) in Heq.
    apply (f_equal (cut " ")) in Heq. rewrite !cut_app in Heq by assumption.
    inversion Heq. congruence.
Qed.

(** X1.  The table that [buildLookupTable] returns maps every SHA to the
    reference names listed with it, in the order of the listing, and has no
    other key: a name is in the list of a SHA exactly when the listing has
    the line made of the SHA, a space and the name; every key is 40 bytes
    long and free of spaces.  The name is whatever follows the first space:
    it may be empty or hold spaces. *)
Theorem buildLookupTable_lists Exec prefixes table :
  buildLookupTable Exec prefixes = Ok table ->
  let lines := bufio.Text (command.scanner (Exec (forEachRefCmd prefixes))) in
  (forall sha,
     table !! sha = match namesAt sha lines with
                    | [] => None
                    | names => Some names
                    end) /\
  (forall sha name,
     In name (default [] (table !! sha)) ->
     In (sha +:+ " " +:+ name) lines /\ String.length sha = 40%nat /\
     hasByte " " sha = false) /\
  (forall sha name,
     hasByte " " sha = false -> In (sha +:+ " " +:+ name) lines ->
     In name (default [] (table !! sha))).
Proof.
  intros Hrun lines. split; [|exact (buildLookupTable_In _ _ _ Hrun)].
  destruct (buildLookupTable_Ok _ _ _ Hrun) as (_ & Hd & Hne). fold lines in Hd.
  intros sha. specialize (Hd sha).
  destruct (table !! sha) as [names|] eqn:Hout; cbn [default from_option id] in Hd.
  - rewrite <- Hd. destruct names; [|reflexivity].
    exfalso. now apply (Hne sha []).
  - now rewrite <- Hd.
Qed.

(** X2.  [buildLookupTable] returns a table exactly when the command
    started, every line of its output has a first field of 40 bytes followed
    by a space, the command exited without error and the scanner read the
    output to its end.  After a successful start, a line that does not parse
    gives the error "failed to parse git refs" whatever the exit status; when
    all lines parse, the error of [cmd.Wait] is returned before the error of
    the scanner, and an output that could not be read to its end gives no
    table. *)
Theorem buildLookupTable_errors Exec prefixes :
  let cmd := Exec (forEachRefCmd prefixes) in
  let lines := bufio.Text (command.scanner cmd) in
  let parsed := Forall (fun line => is_Some (listedRef line)) lines in
  ((exists table, buildLookupTable Exec prefixes = Ok table) <->
     command.startErr cmd = None /\ parsed /\
     command.waitErr cmd = None /\ bufio.Err (command.scanner cmd) = None) /\
  (forall e, command.startErr cmd = Some e ->
     buildLookupTable Exec prefixes = Err (ErrCollab e)) /\
  (command.startErr cmd = None -> Exists (fun line => listedRef line = None) lines ->
     buildLookupTable Exec prefixes = Err ErrParseRefs) /\
  (forall e, command.startErr cmd = None -> parsed -> command.waitErr cmd = Some e ->
     buildLookupTable Exec prefixes = Err (ErrCollab e)) /\
  (forall e, command.startErr cmd = None -> parsed -> command.waitErr cmd = None ->
     bufio.Err (command.scanner cmd) = Some e ->
     buildLookupTable Exec prefixes = Err (ErrCollab e)).
Proof.
  intros cmd lines parsed. unfold buildLookupTable. fold cmd. fold lines.
  split; [|split; [|split; [|split]]].
  - split.
    + intros [table Hrun]. destruct (command.startErr cmd); [discriminate|].
      destruct (scanRefs lines ∅) as [out|e] eqn:Hscan; [|discriminate].
      destruct (command.waitErr cmd); [discriminate|].
      destruct (bufio.Err (command.scanner cmd)); [discriminate|].
      destruct (scanRefs_Ok _ _ _ Hscan) as (Hall & _). auto.
    + intros (-> & Hall & -> & ->).
      destruct (scanRefs_all_listed lines ∅ Hall) as [table ->]. now exists table.
  - intros e ->. reflexivity.
  - intros -> Hex. now rewrite (scanRefs_not_listed lines ∅ Hex).
  - intros e -> Hall ->. now destruct (scanRefs_all_listed lines ∅ Hall) as [table ->].
  - intros e -> Hall -> ->. now destruct (scanRefs_all_listed lines ∅ Hall) as [table ->].
Qed.

End LookupClaims.

Section CleaningClaims.
Context {CB : Type} `{updateref.Backend}.
Import internalrefs.

Implicit Types (c : Cleaner CB) (w : World CB) (line : string) (lines : list string).

(** X3.  A cleaner built by [NewCleaner] and run once with success deletes
    exactly the listed references of rewritten objects: a reference is gone
    when the listing of [buildLookupTable] gives it for the old OID of a
    record of the object map whose two OIDs differ, and every other
    reference is as it was. *)
Theorem cleaner_deletes_rewritten Exec prefixes forEach c u scanner w w' :
  cleaner.NewCleaner Exec prefixes None forEach = Ok (c, u) ->
  updater w = u ->
  ApplyObjectMap c scanner w = (Ok tt, w') ->
  let listing := bufio.Text (command.scanner (Exec (cleaner.forEachRefCmd prefixes))) in
  let lines := bufio.Text scanner in
  (forall name oldOID newOID,
     In (oldOID +:+ " " +:+ newOID) lines -> hasByte " " oldOID = false ->
     oldOID <> newOID -> In (oldOID +:+ " " +:+ name) listing ->
     refs w' !! name = None) /\
  (forall name,
     (forall oldOID newOID,
        In (oldOID +:+ " " +:+ newOID) lines -> hasByte " " oldOID = false ->
        oldOID <> newOID -> ~ In (oldOID +:+ " " +:+ name) listing) ->
     refs w' !! name = refs w !! name).
Proof.
  intros Hnew Hu Hrun listing lines. unfold cleaner.NewCleaner in Hnew.
  destruct (cleaner.buildLookupTable Exec prefixes) as [table|e] eqn:Hbuild; [|discriminate].
  inversion Hnew as [[Hc Hnewu]]. rewrite <- Hnewu in Hu. clear Hnew Hnewu. subst c.
  destruct (buildLookupTable_In _ _ _ Hbuild) as (Hlisted & Hlists).
  fold listing in Hlisted, Hlists.
  unfold ApplyObjectMap in Hrun. fold lines in Hrun.
  apply bind_Ok_inv in Hrun as ([] & w1 & Hloop & Hcommit).
  assert (Ho : updateref.state (updater w) = updateref.Open) by now rewrite Hu.
  destruct (scanLoop_staged _ _ _ _ _ Ho Hloop) as (Hstaged & _ & Hwf).
  rewrite Hu in Hstaged. cbn [updateref.New updateref.staged app] in Hstaged.
  pose proof (scanLoop_quiet (mkCleaner forEach table) lines 0 w) as (Hrefs & _).
  rewrite Hloop in Hrefs. cbn [snd] in Hrefs.
  pose proof (updaterCommit_spec w1) as (_ & _ & [(_ & Hr & _)|((e & He) & _)]);
    [|rewrite Hcommit in He; discriminate].
  rewrite Hcommit in Hr. cbn [snd] in Hr.
  rewrite Hr, Hstaged, Hrefs.
  set (names := flat_map _ _).
  assert (Hin : forall name,
            In name names <->
            exists o n, In (o, n) (entriesOf lines) /\ In (o +:+ " " +:+ name) listing).
  { intros name. unfold names. rewrite in_flat_map. split.
    - intros ([o n] & He & Hn). exists o, n. split; [exact He|].
      now apply Hlisted in Hn as (? & _).
    - intros (o & n & He & Hl). exists (o, n). split; [exact He|].
      apply Hlists; [|exact Hl]. apply In_entriesOf in He; [tauto | exact Hwf]. }
  split.
  - intros name o n Hline Hso Hne Hl. apply applyAll_deletes.
    apply Hin. exists o, n. split; [|exact Hl]. apply In_entriesOf; [exact Hwf|].
    assert (Hlo : String.length o = 40%nat).
    { apply Hlists in Hl; [|exact Hso]. now apply Hlisted in Hl as (_ & ? & _). }
    apply List.Forall_forall with (x := o +:+ " " +:+ n) in Hwf; [|exact Hline].
    destruct (line_cases (o +:+ " " +:+ n)) as [Hh|[(o' & n' & Heq & Hso' & Hlo' & Hln')|Hbad]];
      [| |contradiction].
    + exfalso. apply (f_equal (cut " ")) in Hh.
      change (o +:+ " " +:+ n) with (o +:+ String " " n) in Hh.
      rewrite cut_app in Hh by assumption. cbn in Hh. inversion Hh; subst o. discriminate.
    + destruct (record_inj _ _ _ _ Hso Hso' Heq) as [-> ->]. auto 10.
  - intros name Hnone. apply applyAll_deletes.
    rewrite Hin. intros (o & n & He & Hl).
    apply In_entriesOf in He as (Hline & Hso & _ & _ & Hne); [|exact Hwf].
    exact (Hnone o n Hline Hso Hne Hl).
Qed.

(** X4.  Records of unchanged objects (twice the same OID) can be taken out
    of an object map: the run ends in the same world (references, updater,
    callback state, steps taken) and with the same outcome, but for the line
    number of an invalid-object-map error.  In particular the callback is
    never called for them and they stage no deletion. *)
Theorem unchanged_records_inert c lines err w :
  (ApplyObjectMap c (bufio.mkScanner lines err) w).2
    = (ApplyObjectMap c (bufio.mkScanner (noUnchanged lines) err) w).2 /\
  sameUpToLine (ApplyObjectMap c (bufio.mkScanner lines err) w).1
               (ApplyObjectMap c (bufio.mkScanner (noUnchanged lines) err) w).1.
Proof.
  unfold ApplyObjectMap, bind; cbn [bufio.Text].
  destruct (scanLoop_noUnchanged c lines 0 0 w) as [Hw Hr].
  destruct (scanLoop c 0 lines w) as [[[]|e] w1],
           (scanLoop c 0 (noUnchanged lines) w) as [r2 w2]; simpl in Hw, Hr; subst w2.
  - apply sameUpToLine_Ok_l in Hr as ->. split; [reflexivity | now left].
  - destruct (sameUpToLine_Err_l _ _ Hr) as [e' ->]. simpl. split; [reflexivity | exact Hr].
Qed.

End CleaningClaims.

(** ** objectpool: the order of the steps *)

Section PoolOrder.
Context {X : Type} `{updateref.Backend} `{objectpool.Collaborators X}.
Import objectpool.

Implicit Types (w : World X).

Lemma follows_bind {A B} p1 p2 (m : M (World X) error A) (k : A -> M (World X) error B) w :
  follows p1 w (m w) -> (exists s2, p2 s2) -> (forall a w1, follows p2 w1 (k a w1)) ->
  follows (andThen p1 p2) w (bind m k w).
Proof.
  intros (evs1 & Hl1 & (seg1 & Hp1 & Hpre1) & Hok1) [s2 Hs2] Hk. unfold bind.
  destruct (m w) as [[a|e] w1]; cbn [fst snd] in *.
  - destruct (Hk a w1) as (evs2 & Hl2 & (seg2 & Hp2 & Hpre2) & Hok2).
    exists (evs1 ++ evs2). split; [now rewrite Hl2, Hl1, app_assoc|].
    rewrite map_app. split.
    + exists (map stepOf evs1 ++ seg2). split.
      * exists (map stepOf evs1), seg2. eauto.
      * now apply prefix_app.
    + intros b Hb. exists (map stepOf evs1), (map stepOf evs2). eauto.
  - exists evs1. split; [exact Hl1|]. split; [|discriminate].
    exists (seg1 ++ s2). split.
    + exists seg1, s2. auto.
    + now apply prefix_app_r.
Qed.

Lemma follows_one {A} (ev : Event) w (rw : result error A * World X) :
  log rw.2 = log w ++ [ev] -> follows (eq [stepOf ev]) w rw.
Proof.
  intros Hl. exists [ev]. split; [exact Hl|]. split; [|reflexivity].
  exists [stepOf ev]. split; reflexivity.
Qed.

Lemma follows_none {A} w (r : result error A) : follows (eq []) w (r, w).
Proof.
  exists []. split; [now rewrite app_nil_r|]. split; [|reflexivity].
  exists []. split; reflexivity.
Qed.

Lemma follows_packRefs w : follows (eq [SGit "pack-refs"]) w (packRefs w).
Proof.
  unfold packRefs. destruct (ExecAndWait_spec packRefsCmd [] w) as (Hl & _).
  destruct (ExecAndWait packRefsCmd [] w) as [[[e|] buf] w1];
    exact (follows_one (EvExec packRefsCmd [] _) _ (_, w1) Hl).
Qed.

Lemma follows_repackPool w : follows (eq [SGit "repack"]) w (repackPool w).
Proof.
  unfold repackPool. destruct (ExecAndWait_spec repackCmd [WithConfig repackConfig] w) as (Hl & _).
  destruct (ExecAndWait repackCmd [WithConfig repackConfig] w) as [[[e|] buf] w1];
    exact (follows_one (EvExec repackCmd _ _) _ (_, w1) Hl).
Qed.

Lemma follows_fetch path w : follows (eq [SGit "fetch"]) w (fetch path w).
Proof.
  unfold fetch.
  destruct (ExecAndWait_spec (fetchCmd path) [WithRefTxHook; WithStderr] w) as (Hl & _).
  destruct (ExecAndWait (fetchCmd path) [WithRefTxHook; WithStderr] w) as [[[e|] buf] w1];
    exact (follows_one (EvExec (fetchCmd path) _ _) _ (_, w1) Hl).
Qed.

Lemma follows_collab ev f w : follows (eq [stepOf ev]) w (collab ev f w).
Proof. apply follows_one, collab_log. Qed.

Lemma map_stepOf_createEvents oids :
  map stepOf (createEvents oids) = replicate (length oids) SCreate.
Proof. induction oids as [|oid oids IH]; cbn; [reflexivity | now rewrite <- IH]. Qed.

Lemma follows_rescue w : follows rescuePlans w (rescueDanglingObjects w).
Proof.
  unfold rescueDanglingObjects, bind.
  pose proof (Exec_log fsckCmd [] w) as Hl.
  assert (Hscan : forall (r : result error unit) w1,
            log w1 = log w ++ [EvExec fsckCmd [] (git fsckCmd [] (refs w, ext w)).1] ->
            (forall a, r <> Ok a) -> follows rescuePlans w (r, w1)).
  { intros r w1 Hw1 Hr. exists [EvExec fsckCmd [] (git fsckCmd [] (refs w, ext w)).1].
    split; [exact Hw1|]. split; [|intros a Ha; now contradiction (Hr a)].
    exists ([SGit "fsck"] ++ replicate 0 SCreate ++ [SCommit]). split; [now exists 0%nat|].
    cbn. apply prefix_cons, prefix_nil. }
  destruct (Exec fsckCmd [] w) as [[fsck|e] w1] eqn:Hexec; cbn [fst snd] in Hl;
    [|apply Hscan; [exact Hl | discriminate]].
  destruct (newUpdater_cases w1) as [(e & _ & Hn)|(_ & Hn)]; rewrite Hn;
    [apply Hscan; [exact Hl | discriminate]|].
  assert (Hout : fsck = (git fsckCmd [] (refs w, ext w)).1).
  { unfold Exec in Hexec. destruct (git fsckCmd [] (refs w, ext w)) as [out [r x]].
    destruct (startErr out); now inversion Hexec. }
  destruct (stageDangling_open (stdout fsck) (updateref.New true) w1 eq_refl)
    as (u' & Hr & _ & _ & _ & Hl2 & _).
  destruct (stageDangling (stdout fsck) (updateref.New true) w1) as [r w2];
    cbn [fst snd] in Hr, Hl2; subst r.
  set (oids := danglingOids (stdout fsck)) in *.
  assert (Hpre : map stepOf ([EvExec fsckCmd [] fsck] ++ createEvents oids)
                 `prefix_of` [SGit "fsck"] ++ replicate (length oids) SCreate ++ [SCommit]).
  { rewrite map_app, map_stepOf_createEvents. cbn [map stepOf Name fsckCmd].
    apply prefix_app, prefix_app_r. reflexivity. }
  assert (Hstop : forall e, follows (A:=unit) rescuePlans w (Err e, w2)).
  { intros e. exists ([EvExec fsckCmd [] fsck] ++ createEvents oids).
    split; [cbn [snd]; rewrite Hl2, Hl, <- Hout, <- app_assoc; reflexivity|].
    split; [|discriminate]. eexists. split; [now exists (length oids) | exact Hpre]. }
  destruct (scanErr fsck); [apply Hstop|]. destruct (waitErr fsck); [apply Hstop|].
  destruct (commit_log u' w2) as [Hl3 _].
  exists ([EvExec fsckCmd [] fsck] ++ createEvents oids
          ++ [EvCommit (updateref.disabledTransactions u') (updateref.staged u')]).
  split; [rewrite Hl3, Hl2, Hl, <- Hout, <- !app_assoc; reflexivity|].
  assert (Hsteps : rescuePlans
            (map stepOf ([EvExec fsckCmd [] fsck] ++ createEvents oids
               ++ [EvCommit (updateref.disabledTransactions u') (updateref.staged u')]))).
  { exists (length oids). rewrite !map_app, map_stepOf_createEvents. reflexivity. }
  split; [|intros _ _; exact Hsteps].
  eexists. split; [exact Hsteps | reflexivity].
Qed.

Lemma follows_weaken {A} (p q : list Step -> Prop) w (rw : result error A * World X) :
  (forall seg, p seg -> q seg) -> follows p w rw -> follows q w rw.
Proof.
  intros Hpq (evs & Hl & (seg & Hp & Hpre) & Hok).
  exists evs. split; [exact Hl|]. split; [exists seg; auto | intros a Ha; eauto].
Qed.

Lemma andThen_inhabited (p q : list Step -> Prop) :
  (exists s, p s) -> (exists s, q s) -> exists s, andThen p q s.
Proof. intros [s1 H1] [s2 H2]. exists (s1 ++ s2), s1, s2. auto. Qed.

Lemma rescuePlans_inhabited : exists s, rescuePlans s.
Proof. exists ([SGit "fsck"] ++ replicate 0 SCreate ++ [SCommit]). now exists 0%nat. Qed.

Lemma follows_FetchFromOrigin origin w :
  follows (fun seg => exists k, seg = plan k) w (FetchFromOrigin origin w).
Proof.
  unfold FetchFromOrigin.
  pose (P8 := eq [SGit "repack"]).
  pose (P7 := andThen (eq [SGit "pack-refs"]) P8).
  pose (P6 := andThen (eq [SLogStats "after fetch"]) P7).
  pose (P5 := andThen rescuePlans P6).
  pose (P4 := andThen (eq [SGit "fetch"]) P5).
  pose (P3 := andThen (eq [SLogStats "before fetch"]) P4).
  pose (P2 := andThen (eq [SCleanStaleData]) P3).
  pose (P1 := andThen (eq []) P2).
  assert (H8 : exists s, P8 s) by now eexists.
  assert (H7 : exists s, P7 s) by (apply andThen_inhabited; [now eexists | exact H8]).
  assert (H6 : exists s, P6 s) by (apply andThen_inhabited; [now eexists | exact H7]).
  assert (H5 : exists s, P5 s) by (apply andThen_inhabited; [exact rescuePlans_inhabited | exact H6]).
  assert (H4 : exists s, P4 s) by (apply andThen_inhabited; [now eexists | exact H5]).
  assert (H3 : exists s, P3 s) by (apply andThen_inhabited; [now eexists | exact H4]).
  assert (H2 : exists s, P2 s) by (apply andThen_inhabited; [now eexists | exact H3]).
  assert (H1 : exists s, P1 s) by (apply andThen_inhabited; [now eexists | exact H2]).
  apply (follows_weaken (andThen (eq [SInit]) P1)).
  - intros seg (s1 & r1 & -> & <- & s2 & r2 & -> & <- & s3 & r3 & -> & <- &
                s4 & r4 & -> & <- & s5 & r5 & -> & <- & s6 & r6 & -> & [k ->] &
                s7 & r7 & -> & <- & s8 & r8 & -> & <- & <-).
    exists k. unfold plan. rewrite <- !app_assoc. reflexivity.
  - apply follows_bind; [exact (follows_collab EvInit _ w) | exact H1 | intros _ w1].
    apply follows_bind; [destruct origin; apply follows_none | exact H2 | intros path w2].
    apply follows_bind; [exact (follows_collab EvCleanStaleData _ w2) | exact H3 | intros _ w3].
    apply follows_bind;
      [exact (follows_collab (EvLogStats "before fetch") _ w3) | exact H4 | intros _ w4].
    apply follows_bind; [apply follows_fetch | exact H5 | intros _ w5].
    apply follows_bind; [apply follows_rescue | exact H6 | intros _ w6].
    apply follows_bind;
      [exact (follows_collab (EvLogStats "after fetch") _ w6) | exact H7 | intros _ w7].
    apply follows_bind; [apply follows_packRefs | exact H8 | intros _ w8].
    apply follows_repackPool.
Qed.

(** A statement that fails after the statements before it succeeded ends
    the run: its error is the result, and the world is as it left it. *)
Lemma runStages_first_error {S E} (pre post : list (M S E unit)) stage : forall s si e s',
  runStages pre s = (Ok tt, si) -> stage si = (Err e, s') ->
  runStages (pre ++ stage :: post) s = (Err e, s').
Proof.
  induction pre as [|m pre IH]; intros s si e s' Hpre Hstage.
  - inversion Hpre; subst si. cbn [app runStages]. unfold bind. now rewrite Hstage.
  - cbn [app runStages] in *. unfold bind in *.
    destruct (m s) as [[[]|e0] s1]; [|discriminate]. now apply (IH s1 si).
Qed.

Lemma runStages_Ok_app {S E} (pre post : list (M S E unit)) : forall s s',
  runStages (pre ++ post) s = (Ok tt, s') ->
  exists si, runStages pre s = (Ok tt, si) /\ runStages post si = (Ok tt, s').
Proof.
  induction pre as [|m pre IH]; intros s s' Hrun.
  - exists s. split; [reflexivity | exact Hrun].
  - cbn [app runStages] in *. unfold bind in *.
    destruct (m s) as [[[]|e0] s1]; [|discriminate]. now apply IH.
Qed.

(** [FetchFromOrigin] is its statements run one after the other. *)
Lemma FetchFromOrigin_stages origin w :
  FetchFromOrigin origin w = runStages (stages origin) w.
Proof.
  unfold FetchFromOrigin, stages. cbn [runStages]. unfold bind.
  destruct (Init w) as [[[]|e] w1]; [|reflexivity].
  destruct origin as [path|e0]; cbn [ret fail]; [|reflexivity].
  destruct (CleanStaleData w1) as [[[]|e] w2]; [|reflexivity].
  destruct (logStats "before fetch" w2) as [[[]|e] w3]; [|reflexivity].
  destruct (fetch path w3) as [[[]|e] w4]; [|reflexivity].
  destruct (rescueDanglingObjects w4) as [[[]|e] w5]; [|reflexivity].
  destruct (logStats "after fetch" w5) as [[[]|e] w6]; [|reflexivity].
  destruct (packRefs w6) as [[[]|e] w7]; [|reflexivity].
  destruct (repackPool w7) as [[[]|e] w8]; reflexivity.
Qed.

End PoolOrder.

(** ** objectpool: what the rescue does to the references *)

Section RescueFacts.
Context {X : Type} `{updateref.Backend} `{objectpool.Collaborators X}.
Import objectpool.

Implicit Types (w : World X).

Lemma applyAll_createOps_lookup oids name target : forall st : gmap string string,
  updateref.applyAll st (createOps oids) !! name = Some target ->
  st !! name = Some target \/ (In target oids /\ name = danglingRef target).
Proof.
  unfold updateref.applyAll.
  induction oids as [|oid oids IH]; intros st; cbn [createOps map fold_left].
  - auto.
  - intros Hl. apply IH in Hl as [Hl|[Hin ->]]; [|right; split; [now right | reflexivity]].
    cbn [updateref.apply] in Hl.
    destruct (decide (danglingRef oid = name)) as [<-|Hne].
    + rewrite lookup_insert_eq in Hl. inversion Hl; subst. right. split; [now left | reflexivity].
    + rewrite lookup_insert_ne in Hl by assumption. now left.
Qed.

Lemma applyAll_createOps_is_Some oids name : forall st : gmap string string,
  is_Some (st !! name) -> is_Some (updateref.applyAll st (createOps oids) !! name).
Proof.
  unfold updateref.applyAll.
  induction oids as [|oid oids IH]; intros st Hs; cbn [createOps map fold_left].
  - exact Hs.
  - apply IH. cbn [updateref.apply]. apply lookup_insert_is_Some.
    destruct (decide (danglingRef oid = name)); [now left | now right].
Qed.

(** How [rescueDanglingObjects] can end, by what the scan and the creation
    of the updater did. *)
Lemma rescue_cases w :
  let scan := git fsckCmd [] (refs w, ext w) in
  let oids := danglingOids (stdout scan.1) in
  let rw := rescueDanglingObjects w in
  match startErr scan.1, updaterErr scan.2 with
  | Some e, _ | None, Some e =>
      rw.1 = Err (ErrCollab e) /\ refs rw.2 = scan.2.1 /\
      poolEventsSince w rw.2 = [EvExec fsckCmd [] scan.1]
  | None, None =>
      match scanErr scan.1, waitErr scan.1 with
      | Some e, _ =>
          rw.1 = Err (ErrCollab e) /\ refs rw.2 = scan.2.1 /\
          poolEventsSince w rw.2 = [EvExec fsckCmd [] scan.1] ++ createEvents oids
      | None, Some e =>
          rw.1 = Err (ErrFsck e) /\ refs rw.2 = scan.2.1 /\
          poolEventsSince w rw.2 = [EvExec fsckCmd [] scan.1] ++ createEvents oids
      | None, None =>
          poolEventsSince w rw.2 =
            [EvExec fsckCmd [] scan.1] ++ createEvents oids ++ [EvCommit true (createOps oids)] /\
          ((rw.1 = Ok tt /\ refs rw.2 = updateref.applyAll scan.2.1 (createOps oids)) \/
           ((exists e, rw.1 = Err (ErrUpdater e)) /\ refs rw.2 = scan.2.1))
      end
  end.
Proof.
  cbv zeta. unfold rescueDanglingObjects, bind, Exec.
  destruct (git fsckCmd [] (refs w, ext w)) as [out [r x]]. cbn [fst snd].
  destruct (startErr out) as [e|].
  - cbn [fst snd refs]. repeat split. now apply poolEventsSince_app.
  - set (w1 := {| refs := r; ext := x; log := log w ++ [EvExec fsckCmd [] out] |}).
    unfold newUpdater. change (refs w1, ext w1) with (r, x).
    destruct (updaterErr (r, x)) as [e|].
    { cbn [fst snd refs]. repeat split. now apply poolEventsSince_app. }
    destruct (stageDangling_open (stdout out) (updateref.New true) w1 eq_refl)
      as (u' & Hr & Hou & Hdis & Hst & Hl2 & Hrefs & Hext).
    destruct (stageDangling (stdout out) (updateref.New true) w1) as [res w2];
      cbn [fst snd] in Hr, Hl2, Hrefs, Hext; subst res.
    cbn [updateref.New updateref.staged updateref.disabledTransactions app] in Hst, Hdis.
    assert (Hlog : log w2 = log w ++ [EvExec fsckCmd [] out] ++ createEvents (danglingOids (stdout out))).
    { rewrite Hl2. unfold w1. cbn [log]. now rewrite <- app_assoc. }
    destruct (scanErr out) as [e|];
      [cbn [fst snd]; repeat split; [exact Hrefs | now apply poolEventsSince_app]|].
    destruct (waitErr out) as [e|];
      [cbn [fst snd]; repeat split; [exact Hrefs | now apply poolEventsSince_app]|].
    destruct (commit_log u' w2) as [Hl3 _]. rewrite Hdis, Hst in Hl3. split.
    + apply poolEventsSince_app. rewrite Hl3, Hlog, <- !app_assoc. reflexivity.
    + unfold commit. pose proof (Commit_cases u' (refs w2)) as Hc.
      destruct (updateref.Commit u' (refs w2)) as [[res u''] st'].
      destruct Hc as [(-> & -> & _)|([e ->] & ->)]; cbn [fst snd refs].
      * left. rewrite Hst, Hrefs. auto.
      * right. split; [now exists e | exact Hrefs].
Qed.

(** The objects rescued are those of the lines [dangling <type> <oid>]. *)
Lemma In_danglingOids lines oid :
  In oid (danglingOids lines) ->
  exists ty, hasByte " " ty = false /\ In ("dangling " +:+ ty +:+ " " +:+ oid) lines.
Proof.
  induction lines as [|line lines IH]; cbn [danglingOids]; [contradiction|].
  assert (Hrest : In oid (danglingOids lines) ->
            exists ty, hasByte " " ty = false /\
                       In ("dangling " +:+ ty +:+ " " +:+ oid) (line :: lines)).
  { intros Hin. destruct (IH Hin) as (ty & Hty & Hl). exists ty. split; [exact Hty | now right]. }
  destruct (cut " " line) as [[word tail]|] eqn:Hline; [|exact Hrest].
  destruct (cut " " tail) as [[ty o]|] eqn:Htail; [|exact Hrest].
  destruct (String.eqb word "dangling") eqn:Hword; [|exact Hrest].
  intros [<-|Hin]; [|now apply Hrest].
  apply String.eqb_eq in Hword as ->.
  apply cut_Some in Hline as [-> _]. apply cut_Some in Htail as [-> Hty].
  exists ty. split; [exact Hty | left; reflexivity].
Qed.

Lemma prefix_danglingRef oid :
  String.prefix danglingObjectNamespace (danglingRef oid) = true.
Proof. destruct oid; reflexivity. Qed.

(** The references after the rescue, against those the scan left. *)
Lemma rescue_refs w :
  let scan := git fsckCmd [] (refs w, ext w) in
  let rw := rescueDanglingObjects w in
  refs rw.2 = scan.2.1 \/
  (rw.1 = Ok tt /\
   refs rw.2 = updateref.applyAll scan.2.1 (createOps (danglingOids (stdout scan.1)))).
Proof.
  pose proof (rescue_cases w) as Hc. cbv zeta in *.
  destruct (startErr _); [left; tauto|]. destruct (updaterErr _); [left; tauto|].
  destruct (scanErr _); [left; tauto|]. destruct (waitErr _); [left; tauto|].
  destruct Hc as (_ & [Hok|[_ Hr]]); [now right | now left].
Qed.

End RescueFacts.

(** ** objectpool: further properties *)

Section PoolMoreClaims.
Context {X : Type} `{updateref.Backend} `{objectpool.Collaborators X}.
Import objectpool.

Implicit Types (w : World X).

(** X5.  [FetchFromOrigin] takes its steps in one fixed order and stops at
    the first error.  The steps of a run are a beginning of Init,
    CleanStaleData, logStats "before fetch", git fetch, git fsck, one
    creation per dangling object, the commit, logStats "after fetch", git
    pack-refs, git repack; a run that returns without error took them all.
    When [origin.Path()] fails the pool has been initialised and nothing else
    was done.  And when one of the statements of the function returns an
    error after the statements before it succeeded, [FetchFromOrigin] returns
    that very error, and the pool is as that statement left it: no later
    statement has run; a run that returns without error ran every statement
    without error. *)
Theorem FetchFromOrigin_step_order origin w :
  let rw := FetchFromOrigin origin w in
  let steps := map stepOf (poolEventsSince w rw.2) in
  (exists k, steps `prefix_of` plan k /\ (rw.1 = Ok tt -> steps = plan k)) /\
  (forall e, origin = Err e -> steps = [SInit]) /\
  (forall pre stage post wi e w',
     stages origin = pre ++ stage :: post ->
     runStages pre w = (Ok tt, wi) -> stage wi = (Err e, w') ->
     rw = (Err e, w')) /\
  (rw.1 = Ok tt ->
   forall pre stage post,
     stages origin = pre ++ stage :: post ->
     exists wi wj, runStages pre w = (Ok tt, wi) /\ stage wi = (Ok tt, wj)).
Proof.
  intros rw steps. split; [|split; [|split]].
  - destruct (follows_FetchFromOrigin origin w) as (evs & Hl & (seg & [k ->] & Hpre) & Hok).
    fold rw in Hl, Hok. subst steps. rewrite (poolEventsSince_app _ _ _ Hl).
    destruct (rw.1) as [[]|e] eqn:Hr.
    + destruct (Hok tt eq_refl) as [k' Hk']. exists k'. rewrite Hk'. split; reflexivity.
    + exists k. split; [exact Hpre | discriminate].
  - intros e ->. subst steps rw. unfold FetchFromOrigin, bind.
    pose proof (collab_log EvInit poolInit w) as Hl. fold Init in Hl.
    destruct (Init w) as [[[]|e'] w1]; cbn [fst snd fail] in *;
      now rewrite (poolEventsSince_app _ _ _ Hl).
  - intros pre stage post wi e w' Hsplit Hpre Hstage. subst rw.
    rewrite FetchFromOrigin_stages, Hsplit. now apply (runStages_first_error pre post stage w wi).
  - intros Hok pre stage post Hsplit. subst rw.
    rewrite FetchFromOrigin_stages, Hsplit in Hok.
    destruct (runStages (pre ++ stage :: post) w) as [r w'] eqn:Hrun.
    cbn [fst] in Hok. subst r.
    apply runStages_Ok_app in Hrun as (wi & Hpre & Hrest).
    exists wi. cbn [runStages] in Hrest. unfold bind in Hrest.
    destruct (stage wi) as [[[]|e] wj]; [|discriminate]. now exists wj.
Qed.

(** X6.  [rescueDanglingObjects] never deletes or moves a reference, and
    writes below [refs/dangling/] only: against the references the pool had
    when the scan ended, every reference outside that namespace is as it
    was, every reference that was there is still there, and a reference with
    a new value is [refs/dangling/<oid>] pointing at [<oid>], for a line
    [dangling <type> <oid>] of the scan.  So, if every reference below
    [refs/dangling/] carried the OID it points to, that still holds
    afterwards. *)
Theorem rescue_writes_dangling_namespace_only w :
  let scan := git fsckCmd [] (refs w, ext w) in
  let rw := rescueDanglingObjects w in
  (forall name, String.prefix danglingObjectNamespace name = false ->
     refs rw.2 !! name = scan.2.1 !! name) /\
  (forall name, is_Some (scan.2.1 !! name) -> is_Some (refs rw.2 !! name)) /\
  (forall name target, refs rw.2 !! name = Some target ->
     scan.2.1 !! name = Some target \/
     (name = danglingRef target /\
      exists ty, hasByte " " ty = false /\
                 In ("dangling " +:+ ty +:+ " " +:+ target) (stdout scan.1))) /\
  (danglingNamespaceSound scan.2.1 -> danglingNamespaceSound (refs rw.2)).
Proof.
  intros scan rw.
  assert (Hnew : forall name target, refs rw.2 !! name = Some target ->
            scan.2.1 !! name = Some target \/
            (name = danglingRef target /\
             exists ty, hasByte " " ty = false /\
                        In ("dangling " +:+ ty +:+ " " +:+ target) (stdout scan.1))).
  { intros name target. destruct (rescue_refs w) as [Hr|[_ Hr]]; fold rw scan in Hr; rewrite Hr.
    - now left.
    - intros Hl. apply applyAll_createOps_lookup in Hl as [Hl|[Hin ->]]; [now left|].
      right. split; [reflexivity | now apply In_danglingOids]. }
  assert (Hkept : forall name, is_Some (scan.2.1 !! name) -> is_Some (refs rw.2 !! name)).
  { intros name. destruct (rescue_refs w) as [Hr|[_ Hr]]; fold rw scan in Hr; rewrite Hr.
    - auto.
    - apply applyAll_createOps_is_Some. }
  split; [|split; [exact Hkept|split; [exact Hnew|]]].
  - intros name Hpre.
    destruct (refs rw.2 !! name) as [target|] eqn:Hafter.
    + apply Hnew in Hafter as [Hb|[-> _]]; [now rewrite Hb|].
      rewrite prefix_danglingRef in Hpre. discriminate.
    + destruct (scan.2.1 !! name) as [target|] eqn:Hbefore; [|reflexivity].
      destruct (Hkept name) as [t Ht]; [now rewrite Hbefore; eexists|]. congruence.
  - intros Hsound oid target Hl. apply Hnew in Hl as [Hl|[Hl _]].
    + now apply Hsound.
    + symmetry. now apply danglingRef_inj.
Qed.

(** X7.  [rescueDanglingObjects] creates all the references or none: when it
    returns an error, the references are those the pool had when the scan
    ended.  When [updateref.New] fails, its error is returned as it is and
    nothing is staged or committed.  Otherwise, when the output of [git fsck]
    cannot be read to its end, or the command exits with an error, the
    creations were staged but the updater is never committed; the error of
    the scanner comes first, as it is, and the exit error is wrapped as
    "git fsck: <err>". *)
Theorem rescue_all_or_nothing w :
  let scan := git fsckCmd [] (refs w, ext w) in
  let rw := rescueDanglingObjects w in
  let staged := exists ref oid, In (EvCreate ref oid) (poolEventsSince w rw.2) in
  let committed := exists d ops, In (EvCommit d ops) (poolEventsSince w rw.2) in
  (rw.1 <> Ok tt -> refs rw.2 = scan.2.1) /\
  (forall e, startErr scan.1 = None -> updaterErr scan.2 = Some e ->
     rw.1 = Err (ErrCollab e) /\ ~ staged /\ ~ committed) /\
  (forall e, startErr scan.1 = None -> updaterErr scan.2 = None ->
     scanErr scan.1 = Some e ->
     rw.1 = Err (ErrCollab e) /\ ~ committed) /\
  (forall e, startErr scan.1 = None -> updaterErr scan.2 = None ->
     scanErr scan.1 = None -> waitErr scan.1 = Some e ->
     rw.1 = Err (ErrFsck e) /\ ~ committed).
Proof.
  intros scan rw staged committed.
  pose proof (rescue_cases w) as Hc. cbv zeta in Hc. fold scan rw in Hc.
  assert (Hnone : forall oids d ops,
            ~ In (EvCommit d ops) ([EvExec fsckCmd [] scan.1] ++ createEvents oids)).
  { intros oids d ops [Heq|Hin]; [discriminate|].
    unfold createEvents in Hin. apply in_map_iff in Hin as (oid & Heq & _). discriminate. }
  split; [|split; [|split]].
  - intros Herr. destruct (startErr scan.1); [tauto|]. destruct (updaterErr scan.2); [tauto|].
    destruct (scanErr scan.1); [tauto|]. destruct (waitErr scan.1); [tauto|].
    destruct Hc as (_ & [[Hok _]|[_ Hr]]); [contradiction | exact Hr].
  - intros e Hs Hu. rewrite Hs, Hu in Hc. destruct Hc as (Hr & _ & Hev).
    split; [exact Hr|]. split.
    + intros (ref & oid & Hin). rewrite Hev in Hin. destruct Hin as [Heq|[]]. discriminate.
    + intros (d & ops & Hin). rewrite Hev in Hin. destruct Hin as [Heq|[]]. discriminate.
  - intros e Hs Hu He. rewrite Hs, Hu, He in Hc. destruct Hc as (Hr & _ & Hev).
    split; [exact Hr|]. intros (d & ops & Hin). rewrite Hev in Hin. now apply Hnone in Hin.
  - intros e Hs Hu He Hw. rewrite Hs, Hu, He, Hw in Hc. destruct Hc as (Hr & _ & Hev).
    split; [exact Hr|]. intros (d & ops & Hin). rewrite Hev in Hin. now apply Hnone in Hin.
Qed.

End PoolMoreClaims.

(** ** objectpool: no error of a Git invocation is swallowed *)

Section PoolHonest.
Context {X : Type} `{updateref.Backend} `{objectpool.Collaborators X}.
Import objectpool.

Implicit Types (w : World X).

Lemma honest_bind {A B} (m : M (World X) error A) (k : A -> M (World X) error B) w :
  honest w (m w) -> (forall a w1, honest w1 (k a w1)) -> honest w (bind m k w).
Proof.
  intros (evs1 & Hl1 & Hok1) Hk. unfold bind.
  destruct (m w) as [[a|e] w1]; cbn [fst snd] in *.
  - destruct (Hk a w1) as (evs2 & Hl2 & Hok2).
    exists (evs1 ++ evs2). split; [now rewrite Hl2, Hl1, app_assoc|].
    intros b Hb. apply Forall_app. split; [now apply (Hok1 a) | now apply (Hok2 b)].
  - exists evs1. split; [exact Hl1 | discriminate].
Qed.

Lemma honest_collab ev f w :
  (forall cmd opts out, ev <> EvExec cmd opts out) -> honest w (collab ev f w).
Proof.
  intros Hev. exists [ev]. split; [apply collab_log|].
  intros _ _. constructor; [|constructor].
  destruct ev; cbn; try exact I. now contradiction (Hev cmd opts out).
Qed.

Lemma honest_pure {A} (r : result error A) w : honest w (r, w).
Proof. exists []. split; [now rewrite app_nil_r | intros; constructor]. Qed.

(** A statement that runs one Git command to its end and returns its
    error. *)
Lemma honest_ExecAndWait cmd opts w (wrap : string -> string -> error) :
  Name cmd <> "fsck" ->
  honest w (match ExecAndWait cmd opts w with
            | ((Some err, text), w') => (Err (wrap err text), w')
            | ((None, _), w') => (Ok tt, w')
            end).
Proof.
  intros Hname. destruct (ExecAndWait_spec cmd opts w) as (Hl & Hfail & _).
  destruct (ExecAndWait cmd opts w) as [[[e|] buf] w1]; cbn [fst snd] in *.
  - eexists. split; [exact Hl | discriminate].
  - eexists. split; [exact Hl|]. intros _ _. constructor; [|constructor].
    cbn. unfold failure in Hfail.
    destruct (startErr _); [discriminate|]. split; [reflexivity|]. split; [now symmetry|].
    intros Hn. contradiction.
Qed.

Lemma Forall_succeeded_createEvents oids : Forall succeeded (createEvents oids).
Proof. induction oids; cbn; constructor; [exact I | assumption]. Qed.

Lemma honest_rescue w : honest w (rescueDanglingObjects w).
Proof.
  destruct (follows_rescue w) as (evs & Hl & _).
  pose proof (rescue_cases w) as Hc. cbv zeta in Hc.
  rewrite (poolEventsSince_app _ _ _ Hl) in Hc.
  exists evs. split; [exact Hl|]. intros a Hok.
  destruct (startErr _) eqn:Hs; [destruct Hc as (Hr & _); congruence|].
  destruct (updaterErr _) eqn:Hu; [destruct Hc as (Hr & _); congruence|].
  destruct (scanErr _) eqn:Hscan; [destruct Hc as (Hr & _); congruence|].
  destruct (waitErr _) eqn:Hw; [destruct Hc as (Hr & _); congruence|].
  destruct Hc as (-> & _).
  apply Forall_app. split; [|apply Forall_app; split].
  - constructor; [|constructor]. cbn. auto.
  - apply Forall_succeeded_createEvents.
  - constructor; [exact I | constructor].
Qed.

Lemma honest_FetchFromOrigin origin w : honest w (FetchFromOrigin origin w).
Proof.
  unfold FetchFromOrigin.
  apply honest_bind; [apply honest_collab; discriminate | intros _ w1].
  apply honest_bind; [destruct origin; apply honest_pure | intros path w2].
  apply honest_bind; [apply honest_collab; discriminate | intros _ w3].
  apply honest_bind; [apply honest_collab; discriminate | intros _ w4].
  apply honest_bind;
    [exact (honest_ExecAndWait (fetchCmd path) _ w4 ErrInternalf ltac:(discriminate))
    | intros _ w5].
  apply honest_bind; [apply honest_rescue | intros _ w6].
  apply honest_bind; [apply honest_collab; discriminate | intros _ w7].
  apply honest_bind;
    [exact (honest_ExecAndWait packRefsCmd _ w7 (fun e _ => ErrCollab e) ltac:(discriminate))
    | intros _ w8].
  exact (honest_ExecAndWait repackCmd _ w8 (fun e _ => ErrCollab e) ltac:(discriminate)).
Qed.

(** X13.  [FetchFromOrigin] swallows no error of its collaborators' Git
    commands: when it returns without error, [origin.Path()] gave a path and
    every Git command of the run (fetch, fsck, pack-refs, repack) started and
    exited without error, and the output of [git fsck] was read to its
    end. *)
Theorem FetchFromOrigin_success_is_clean origin w w' :
  FetchFromOrigin origin w = (Ok tt, w') ->
  (exists path, origin = Ok path) /\
  (forall cmd opts out,
     In (EvExec cmd opts out) (poolEventsSince w w') ->
     startErr out = None /\ waitErr out = None /\
     (Name cmd = "fsck" -> scanErr out = None)).
Proof.
  intros Hrun. split.
  - destruct (FetchFromOrigin_Ok _ _ _ Hrun) as (w0 & _ & _ & _ & Hpre & _).
    destruct (upToFetch_Ok _ _ _ Hpre) as (path & _ & -> & _). now exists path.
  - destruct (honest_FetchFromOrigin origin w) as (evs & Hl & Hok).
    rewrite Hrun in Hl, Hok. cbn [fst snd] in Hl, Hok.
    rewrite (poolEventsSince_app _ _ _ Hl).
    intros cmd opts out Hin.
    apply (proj1 (List.Forall_forall _ _) (Hok tt eq_refl)) in Hin. exact Hin.
Qed.

End PoolHonest.

(** ** strconv and bytes *)

Section ParseFacts.
Import strconv.

Lemma uintValue_acc d : forall p, uintValue d (Zpos p) = Zpos (Pos.of_uint_acc d p).
Proof.
  induction d as [|d IH|d IH|d IH|d IH|d IH|d IH|d IH|d IH|d IH|d IH]; intros p;
    cbn [uintValue Pos.of_uint_acc]; [reflexivity|..];
    rewrite <- IH; f_equal; lia.
Qed.

Lemma uintValue_0 d : uintValue d 0 = Z.of_N (Pos.of_uint d).
Proof.
  induction d as [|d IH|d IH|d IH|d IH|d IH|d IH|d IH|d IH|d IH|d IH];
    cbn [uintValue Pos.of_uint]; [reflexivity|exact IH|..];
    cbn [Z.mul Z.add Z.of_N]; apply uintValue_acc.
Qed.

Lemma uintValue_mono d : forall acc, 0 <= acc -> acc <= uintValue d acc.
Proof.
  induction d as [|d IH|d IH|d IH|d IH|d IH|d IH|d IH|d IH|d IH|d IH]; intros acc Hacc;
    cbn [uintValue]; [lia|..];
    (etransitivity; [|apply IH]; lia).
Qed.

(** One turn of the loop of [ParseUint] on a decimal digit. *)
Lemma parseDigits_step c rest n :
  48 <= Z.of_N (N_of_ascii c) <= 57 ->
  parseDigits (String c rest) n =
    if cutoff <=? n then Err ErrRange
    else if maxVal <? n * 10 + (Z.of_N (N_of_ascii c) - 48) then Err ErrRange
         else parseDigits rest (n * 10 + (Z.of_N (N_of_ascii c) - 48)).
Proof.
  intros Hc. cbn [parseDigits]. cbv zeta.
  replace ((48 <=? Z.of_N (N_of_ascii c)) && (Z.of_N (N_of_ascii c) <=? 57)) with true
    by (symmetry; apply andb_true_iff; split; apply Z.leb_le; lia).
  replace (10 <=? Z.of_N (N_of_ascii c) - 48) with false
    by (symmetry; apply Z.leb_gt; lia).
  reflexivity.
Qed.

Lemma maxVal_eq : maxVal = 18446744073709551615.
Proof. reflexivity. Qed.

Lemma cutoff_eq : cutoff = 1844674407370955162.
Proof. reflexivity. Qed.

Lemma parseDigits_uint d : forall acc,
  0 <= acc -> uintValue d acc <= maxVal ->
  parseDigits (NilEmpty.string_of_uint d) acc = Ok (uintValue d acc).
Proof.
  induction d as [|d IH|d IH|d IH|d IH|d IH|d IH|d IH|d IH|d IH|d IH]; intros acc Hacc Hmax;
    cbn [NilEmpty.string_of_uint uintValue] in *; [reflexivity|..];
    (rewrite parseDigits_step by (cbn; lia);
     match goal with
     | |- context [Z.of_N (N_of_ascii ?c) - 48] =>
         let v := eval cbv in (Z.of_N (N_of_ascii c) - 48) in
         change (Z.of_N (N_of_ascii c) - 48) with v
     end;
     match type of Hmax with
     | uintValue _ ?a <= _ =>
         pose proof (uintValue_mono d a ltac:(lia)) as Hm;
         rewrite (proj2 (Z.leb_gt cutoff acc)) by (rewrite cutoff_eq; rewrite maxVal_eq in Hmax; lia);
         rewrite (proj2 (Z.ltb_ge maxVal a)) by lia;
         apply IH; [lia | exact Hmax]
     end).
Qed.

Lemma string_of_uint_head d :
  d <> Decimal.Nil ->
  exists c rest,
    NilEmpty.string_of_uint d = String c rest /\
    Ascii.eqb c "+" = false /\ Ascii.eqb c "-" = false.
Proof.
  destruct d; [congruence|..]; intros _; cbn [NilEmpty.string_of_uint];
    do 2 eexists; repeat split.
Qed.

(** Parsing the decimal digits of a positive number gives it back. *)
Lemma ParseUint_digits p :
  Zpos p <= maxVal ->
  ParseUint (NilEmpty.string_of_uint (Pos.to_uint p)) = (Zpos p, None).
Proof.
  intros Hp. unfold ParseUint.
  destruct (string_of_uint_head _ (DecimalPos.Unsigned.to_uint_nonnil p)) as (c & rest & Hs & _).
  assert (Hv : uintValue (Pos.to_uint p) 0 = Zpos p)
    by now rewrite uintValue_0, DecimalPos.Unsigned.of_to.
  rewrite Hs at 1. cbn [String.eqb].
  rewrite parseDigits_uint by (rewrite ?Hv; lia). now rewrite Hv.
Qed.

(** [ParseInt] reads back what [%d] prints, over the whole range of an
    [int64]. *)
Lemma ParseInt_itoa z : - 2 ^ 63 <= z < 2 ^ 63 -> ParseInt (itoa z) = (z, None).
Proof.
  intros Hz. unfold itoa. destruct z as [|p|p]; cbn [Z.to_int NilZero.string_of_int].
  - reflexivity.
  - pose proof (DecimalPos.Unsigned.to_uint_nonnil p) as Hn.
    assert (Hs : NilZero.string_of_uint (Pos.to_uint p) = NilEmpty.string_of_uint (Pos.to_uint p))
      by (destruct (Pos.to_uint p); [congruence|reflexivity..]).
    rewrite Hs. destruct (string_of_uint_head _ Hn) as (c & rest & Hd & Hplus & Hminus).
    pose proof (ParseUint_digits p ltac:(rewrite maxVal_eq; lia)) as Hu.
    rewrite Hd in Hu |- *. unfold ParseInt. rewrite Hplus, Hminus. cbn [orb negb andb].
    rewrite Hu.
    change (2 ^ (IntSize - 1)) with (2 ^ 63).
    rewrite (proj2 (Z.leb_gt (2 ^ 63) (Z.pos p))) by lia. reflexivity.
  - pose proof (DecimalPos.Unsigned.to_uint_nonnil p) as Hn.
    assert (Hs : NilZero.string_of_uint (Pos.to_uint p) = NilEmpty.string_of_uint (Pos.to_uint p))
      by (destruct (Pos.to_uint p); [congruence|reflexivity..]).
    rewrite Hs. unfold ParseInt. cbn [Ascii.eqb Bool.eqb orb negb andb].
    rewrite ParseUint_digits by (rewrite maxVal_eq; lia).
    change (2 ^ (IntSize - 1)) with (2 ^ 63).
    rewrite (proj2 (Z.ltb_ge (2 ^ 63) (Z.pos p))) by lia. reflexivity.
Qed.

Lemma hasByte_tab_itoa z : 0 <= z -> hasByte poolstats.tab (itoa z) = false.
Proof.
  intros Hz. apply hasByte_itoa; [exact Hz|].
  intros k Hk. cbn in Hk. repeat destruct Hk as [<-|Hk]; try reflexivity. contradiction.
Qed.

Lemma Split_none sep s : hasByte sep s = false -> bytes.Split s sep = [s].
Proof.
  induction s as [|c s IH]; cbn [hasByte bytes.Split]; [reflexivity|].
  intros Hs. apply orb_false_iff in Hs as [Hc Hs]. rewrite Hc, (IH Hs). reflexivity.
Qed.

Lemma Split_app sep a b :
  hasByte sep a = false -> bytes.Split (a +:+ String sep b) sep = a :: bytes.Split b sep.
Proof.
  induction a as [|c a IH].
  - intros _. change ("" +:+ String sep b) with (String sep b). cbn [bytes.Split].
    now rewrite Ascii.eqb_refl.
  - intros Ha. cbn [hasByte] in Ha. apply orb_false_iff in Ha as [Hc Ha].
    change (String c a +:+ String sep b) with (String c (a +:+ String sep b)).
    cbn [bytes.Split]. rewrite Hc, (IH Ha). reflexivity.
Qed.

Lemma length_Split sep s : length (bytes.Split s sep) = S (countByte sep s).
Proof.
  induction s as [|c s IH]; cbn [bytes.Split countByte]; [reflexivity|].
  destruct (Ascii.eqb c sep); cbn [length Nat.add].
  - now rewrite IH.
  - destruct (bytes.Split s sep) as [|first others]; [discriminate | exact IH].
Qed.

End ParseFacts.

(** ** objectpool: [sizeDir] and [logStats] *)

Section CountingFacts.
Import poolstats.

Lemma int64_wrap_range z : - 2 ^ 63 <= int64_wrap z < 2 ^ 63.
Proof. unfold int64_wrap. pose proof (Z.mod_pos_bound (z + 2 ^ 63) (2 ^ 64)). lia. Qed.

Lemma SplitN_2_sep sep line :
  SplitN line sep 2 = match cut sep line with
                      | Some (a, b) => [a; b]
                      | None => [line]
                      end.
Proof. cbn [SplitN]. destruct (cut sep line) as [[a b]|]; reflexivity. Qed.

Lemma lookup_increment key ty (m : gmap string Z) :
  default 0 (increment key m !! ty)
    = if String.eqb key ty then int64_incr (default 0 (m !! ty)) else default 0 (m !! ty).
Proof.
  unfold increment. destruct (String.eqb key ty) eqn:Hk.
  - apply String.eqb_eq in Hk as ->. now rewrite lookup_insert_eq.
  - apply String.eqb_neq in Hk. now rewrite lookup_insert_ne.
Qed.

(** One turn of the second loop of [logStats]. *)
Lemma countRef_step counts line ty :
  default 0 ((countRef counts line).1 !! ty)
    = (if refCounted true ty line then int64_incr (default 0 (counts.1 !! ty))
       else default 0 (counts.1 !! ty)) /\
  default 0 ((countRef counts line).2 !! ty)
    = (if refCounted false ty line then int64_incr (default 0 (counts.2 !! ty))
       else default 0 (counts.2 !! ty)).
Proof.
  unfold countRef, refCounted. rewrite SplitN_2_sep.
  destruct (cut nul line) as [[t name]|]; [|split; reflexivity].
  destruct (String.prefix objectpool.danglingObjectNamespace name); cbn [fst snd Bool.eqb];
    rewrite lookup_increment; destruct (String.eqb t ty); split; reflexivity.
Qed.

Lemma countRefs_cons dangling ty line lines :
  countRefs dangling ty (line :: lines)
    = ((if refCounted dangling ty line then 1 else 0) + countRefs dangling ty lines)%nat.
Proof.
  unfold countRefs. cbn [List.filter]. now destruct (refCounted dangling ty line).
Qed.

(** The counters hold the numbers of lines counted, as [int] values. *)
Lemma fold_countRef lines : forall counts (cd cn : string -> nat),
  (forall ty, default 0 (counts.1 !! ty) = int64_wrap (Z.of_nat (cd ty))) ->
  (forall ty, default 0 (counts.2 !! ty) = int64_wrap (Z.of_nat (cn ty))) ->
  forall ty,
    default 0 ((fold_left countRef lines counts).1 !! ty)
      = int64_wrap (Z.of_nat (cd ty + countRefs true ty lines)) /\
    default 0 ((fold_left countRef lines counts).2 !! ty)
      = int64_wrap (Z.of_nat (cn ty + countRefs false ty lines)).
Proof.
  induction lines as [|line lines IH]; intros counts cd cn Hd Hn ty.
  - cbn. rewrite !Nat.add_0_r. auto.
  - cbn [fold_left].
    destruct (IH (countRef counts line)
                (fun ty => (cd ty + if refCounted true ty line then 1 else 0)%nat)
                (fun ty => (cn ty + if refCounted false ty line then 1 else 0)%nat)) with (ty := ty)
      as [IHd IHn].
    + intros t. rewrite (proj1 (countRef_step counts line t)), Hd.
      destruct (refCounted true t line).
      * rewrite int64_incr_wrap. f_equal. lia.
      * f_equal. lia.
    + intros t. rewrite (proj2 (countRef_step counts line t)), Hn.
      destruct (refCounted false t line).
      * rewrite int64_incr_wrap. f_equal. lia.
      * f_equal. lia.
    + rewrite IHd, IHn, !countRefs_cons. split; f_equal; lia.
Qed.

Lemma countRefs_le dangling ty lines : (countRefs dangling ty lines <= length lines)%nat.
Proof. unfold countRefs. apply List.filter_length_le. Qed.

(** The fields that the last loop of [logStats] writes. *)
Lemma lookup_report counts (fields : gmap string Value) ty :
  In ty reportedTypes ->
  report counts fields !! ("dangling." +:+ ty +:+ ".ref") = Some (VInt (default 0 (counts.1 !! ty))) /\
  report counts fields !! ("normal." +:+ ty +:+ ".ref") = Some (VInt (default 0 (counts.2 !! ty))).
Proof.
  unfold reportedTypes, report. cbn [fold_left In].
  intros [<-|[<-|[<-|[<-|[]]]]]; split;
    repeat first [ rewrite lookup_insert_eq; reflexivity
                 | rewrite lookup_insert_ne by discriminate ].
Qed.

Lemma lookup_report_other counts (fields : gmap string Value) key :
  ~ (exists ty, In ty reportedTypes /\
                (key = "dangling." +:+ ty +:+ ".ref" \/ key = "normal." +:+ ty +:+ ".ref")) ->
  report counts fields !! key = fields !! key.
Proof.
  intros Hkey. unfold report. cbn [fold_left].
  repeat (rewrite lookup_insert_ne;
          [|intros <-; apply Hkey; eexists; split; [|eauto];
            unfold reportedTypes; cbn; tauto]).
  reflexivity.
Qed.

End CountingFacts.

Section SizeDirFacts.
Import poolstats.
Context (run : list string -> command.Process).

(** A measurement adds one step and does not read the steps taken. *)
Lemma sizeDir_log dir log :
  (sizeDir run dir log).2 = log ++ [EvRun ["du"; "-sk"; dir]] /\
  (sizeDir run dir log).1 = (sizeDir run dir []).1.
Proof.
  unfold sizeDir.
  destruct (command.procStartErr _); [split; reflexivity|].
  destruct (command.procReadErr _); [split; reflexivity|].
  destruct (command.procWaitErr _); [split; reflexivity|].
  destruct (bytes.Split _ tab) as [|a [|b [|c l]]]; try (split; reflexivity).
  destruct (strconv.ParseInt a) as [size [e|]]; split; reflexivity.
Qed.

End SizeDirFacts.

Section StatsFacts.
Import poolstats.
Context (run : list string -> command.Process).
Context (Exec : objectpool.SubCmd -> command.Command).
Context (FullPath : string).
Context (Join : string -> string -> string).

Implicit Types (objectsFirst : bool) (when dir : string) (log : list Event).

(** The ways [logStats] can go, by what its collaborators did. *)
Lemma logStats_cases objectsFirst when log :
  let d1 := Join FullPath (if objectsFirst then "objects" else "refs") in
  let d2 := Join FullPath (if objectsFirst then "refs" else "objects") in
  let k1 := if objectsFirst then "poolObjectsSize" else "poolRefsSize" in
  let k2 := if objectsFirst then "poolRefsSize" else "poolObjectsSize" in
  let cmd := Exec forEachRefCmd in
  let rw := logStats run Exec FullPath Join objectsFirst when log in
  match (sizeDir run d1 []).1 with
  | Err e => rw = (Err e, log ++ [EvRun ["du"; "-sk"; d1]])
  | Ok s1 =>
      match (sizeDir run d2 []).1 with
      | Err e => rw = (Err e, log ++ [EvRun ["du"; "-sk"; d1]; EvRun ["du"; "-sk"; d2]])
      | Ok s2 =>
          let log2 := log ++ [EvRun ["du"; "-sk"; d1]; EvRun ["du"; "-sk"; d2];
                              EvExec forEachRefCmd] in
          let fields : gmap string Value :=
            <[k2 := VInt s2]> (<[k1 := VInt s1]> {[ "when" := VString when ]}) in
          let counts := fold_left countRef (bufio.Text (command.scanner cmd)) (∅, ∅) in
          match command.startErr cmd, bufio.Err (command.scanner cmd), command.waitErr cmd with
          | Some e, _, _ => rw = (Err (ErrCollab e), log2)
          | None, Some e, _ => rw = (Err (ErrCollab e), log2)
          | None, None, Some e => rw = (Err (ErrCollab e), log2)
          | None, None, None =>
              rw = (Ok tt, log2 ++ [EvInfo "pool dangling ref stats" (report counts fields)])
          end
      end
  end.
Proof.
  cbv zeta. unfold logStats, sizeKeys.
  set (d1 := Join FullPath (if objectsFirst then "objects" else "refs")).
  set (d2 := Join FullPath (if objectsFirst then "refs" else "objects")).
  assert (Hm : measure run FullPath Join
                 (if objectsFirst
                  then [("poolObjectsSize", "objects"); ("poolRefsSize", "refs")]
                  else [("poolRefsSize", "refs"); ("poolObjectsSize", "objects")])
               = fun fields =>
                   (s1 <- sizeDir run d1 ;;
                    s2 <- sizeDir run d2 ;;
                    ret (<[(if objectsFirst then "poolRefsSize" else "poolObjectsSize") := VInt s2]>
                           (<[(if objectsFirst then "poolObjectsSize" else "poolRefsSize") := VInt s1]>
                              fields)))%go).
  { subst d1 d2. destruct objectsFirst; reflexivity. }
  rewrite Hm. clear Hm. unfold bind.
  destruct (sizeDir_log run d1 log) as [Hl1 Hr1].
  destruct (sizeDir run d1 log) as [r1 log1]. cbn [fst snd] in Hl1, Hr1. rewrite <- Hr1.
  destruct r1 as [s1|e]; [|now rewrite Hl1].
  destruct (sizeDir_log run d2 log1) as [Hl2 Hr2].
  destruct (sizeDir run d2 log1) as [r2 log2]. cbn [fst snd] in Hl2, Hr2. rewrite <- Hr2.
  assert (Hlog : log2 = log ++ [EvRun ["du"; "-sk"; d1]; EvRun ["du"; "-sk"; d2]])
    by (rewrite Hl2, Hl1, <- app_assoc; reflexivity).
  destruct r2 as [s2|e]; [|now rewrite Hlog].
  unfold ret. rewrite Hlog, <- !app_assoc. cbn [app].
  destruct (command.startErr _); [reflexivity|].
  destruct (bufio.Err _); [reflexivity|].
  destruct (command.waitErr _); [reflexivity|].
  rewrite <- ?app_assoc. reflexivity.
Qed.

End StatsFacts.

Section SizeDirClaims.
Import poolstats.
Context (run : list string -> command.Process).

Implicit Types (dir : string) (log : list Event).

(** X8.  When [du -sk] prints a size of [n] kilobytes, a tabulation and a
    text free of tabulations, [sizeDir] returns [n * 1024] computed in
    [int64]: the size in bytes as long as [n] is below 2^53, and a wrapped
    value, not the size, from 2^53 kilobytes on. *)
Theorem sizeDir_kilobytes dir n rest log :
  let cmd := run ["du"; "-sk"; dir] in
  command.procStartErr cmd = None ->
  command.procReadErr cmd = None ->
  command.procWaitErr cmd = None ->
  command.procOutput cmd = itoa n +:+ String tab rest ->
  hasByte tab rest = false ->
  0 <= n < 2 ^ 63 ->
  (sizeDir run dir log).1 = Ok (int64_wrap (n * 1024)) /\
  (n < 2 ^ 53 -> (sizeDir run dir log).1 = Ok (n * 1024)) /\
  (2 ^ 53 <= n -> (sizeDir run dir log).1 <> Ok (n * 1024)).
Proof.
  intros cmd Hs Hr Hw Hout Hrest Hn.
  assert (Hres : (sizeDir run dir log).1 = Ok (int64_wrap (n * 1024))).
  { unfold sizeDir. fold cmd. rewrite Hs, Hr, Hw, Hout.
    rewrite Split_app by now apply hasByte_tab_itoa.
    rewrite (Split_none _ _ Hrest), ParseInt_itoa by lia. reflexivity. }
  split; [exact Hres|]. rewrite Hres. split.
  - intros Hsmall. rewrite int64_wrap_small; [reflexivity | lia].
  - intros Hbig Heq. inversion Heq as [Hwrap].
    pose proof (int64_wrap_range (n * 1024)). lia.
Qed.

(** X9.  When [du] ran and was read without error, [sizeDir] reports a
    malformed output exactly when the output does not hold exactly one
    tabulation: an empty output, an output without tabulation, and the output
    for a directory whose path holds a tabulation are all refused. *)
Theorem sizeDir_malformed dir log :
  let cmd := run ["du"; "-sk"; dir] in
  command.procStartErr cmd = None ->
  command.procReadErr cmd = None ->
  command.procWaitErr cmd = None ->
  ((sizeDir run dir log).1 = Err (ErrMalformedDu (command.procOutput cmd)) <->
   countByte tab (command.procOutput cmd) <> 1%nat) /\
  (forall sizeLine, (sizeDir run dir log).1 = Err (ErrMalformedDu sizeLine) ->
     sizeLine = command.procOutput cmd).
Proof.
  intros cmd Hs Hr Hw. unfold sizeDir. fold cmd. rewrite Hs, Hr, Hw.
  pose proof (length_Split tab (command.procOutput cmd)) as Hlen.
  destruct (bytes.Split (command.procOutput cmd) tab) as [|a [|b [|c l]]];
    cbn [length] in Hlen; cbn [fst].
  - discriminate.
  - split; [split; [intros _; lia | reflexivity] | now intros ? [= <-]].
  - destruct (strconv.ParseInt a) as [size [e|]]; cbn [fst];
      (split; [split; [discriminate | intros Hc; exfalso; lia] | discriminate]).
  - split; [split; [intros _; lia | reflexivity] | now intros ? [= <-]].
Qed.

End SizeDirClaims.

Section LogStatsClaims.
Import poolstats.
Context (run : list string -> command.Process).
Context (Exec : objectpool.SubCmd -> command.Command).
Context (FullPath : string).
Context (Join : string -> string -> string).

Implicit Types (objectsFirst : bool) (when dir : string) (log : list Event).

(** X10.  The entry that a successful [logStats] writes to the log holds,
    for each of the object types blob, commit, tag and tree, the number of
    lines [<type> NUL <refname>] of the listing whose reference name starts
    with [refs/dangling/] and the number of those whose name does not,
    together with [when] and the two sizes that [sizeDir] measured; lines
    without a zero byte and lines of other types are counted in no field. *)
Theorem logStats_fields objectsFirst when log log' :
  let lines := bufio.Text (command.scanner (Exec forEachRefCmd)) in
  logStats run Exec FullPath Join objectsFirst when log = (Ok tt, log') ->
  Z.of_nat (length lines) < 2 ^ 63 ->
  exists fields objectsSize refsSize,
    last log' = Some (EvInfo "pool dangling ref stats" fields) /\
    (sizeDir run (Join FullPath "objects") []).1 = Ok objectsSize /\
    (sizeDir run (Join FullPath "refs") []).1 = Ok refsSize /\
    fields !! "when" = Some (VString when) /\
    fields !! "poolObjectsSize" = Some (VInt objectsSize) /\
    fields !! "poolRefsSize" = Some (VInt refsSize) /\
    (forall ty, In ty reportedTypes ->
       fields !! ("dangling." +:+ ty +:+ ".ref")
         = Some (VInt (Z.of_nat (countRefs true ty lines))) /\
       fields !! ("normal." +:+ ty +:+ ".ref")
         = Some (VInt (Z.of_nat (countRefs false ty lines)))).
Proof.
  intros lines Hrun Hlen.
  pose proof (logStats_cases run Exec FullPath Join objectsFirst when log) as Hc.
  cbv zeta in Hc. rewrite Hrun in Hc. fold lines in Hc.
  destruct (sizeDir run (Join FullPath (if objectsFirst then "objects" else "refs")) []).1
    as [s1|e] eqn:H1; [|discriminate].
  destruct (sizeDir run (Join FullPath (if objectsFirst then "refs" else "objects")) []).1
    as [s2|e] eqn:H2; [|discriminate].
  destruct (command.startErr _); [discriminate|].
  destruct (bufio.Err _); [discriminate|].
  destruct (command.waitErr _); [discriminate|].
  inversion Hc as [Hlog]. clear Hc Hrun. subst log'.
  assert (Hother : forall key : string,
            key = "when" \/ key = "poolObjectsSize" \/ key = "poolRefsSize" ->
            ~ (exists ty, In ty reportedTypes /\
                 (key = "dangling." +:+ ty +:+ ".ref" \/ key = "normal." +:+ ty +:+ ".ref"))).
  { intros key Hkey (ty & Hty & Hk). unfold reportedTypes in Hty. cbn [In] in Hty.
    destruct Hty as [<-|[<-|[<-|[<-|[]]]]];
      destruct Hkey as [-> | [-> | ->]]; destruct Hk as [Hk|Hk]; discriminate Hk. }
  eexists _, (if objectsFirst then s1 else s2), (if objectsFirst then s2 else s1).
  split; [apply last_snoc|].
  split; [now destruct objectsFirst|]. split; [now destruct objectsFirst|].
  rewrite (lookup_report_other _ _ "when"), (lookup_report_other _ _ "poolObjectsSize"),
    (lookup_report_other _ _ "poolRefsSize") by (apply Hother; tauto).
  split; [|split; [|split]].
  - now rewrite !lookup_insert_ne by (destruct objectsFirst; discriminate).
  - destruct objectsFirst.
    + rewrite lookup_insert_ne by discriminate. apply lookup_insert_eq.
    + apply lookup_insert_eq.
  - destruct objectsFirst.
    + apply lookup_insert_eq.
    + rewrite lookup_insert_ne by discriminate. apply lookup_insert_eq.
  - intros ty Hty.
    destruct (lookup_report (fold_left countRef lines (∅, ∅))
                (<[(if objectsFirst then "poolRefsSize" else "poolObjectsSize") := VInt s2]>
                   (<[(if objectsFirst then "poolObjectsSize" else "poolRefsSize") := VInt s1]>
                      {[ "when" := VString when ]})) ty Hty) as [Hd Hn].
    rewrite Hd, Hn.
    destruct (fold_countRef lines (∅, ∅) (fun _ => O) (fun _ => O)) with (ty := ty)
      as [Hcd Hcn]; [intros t; cbn [fst snd]; now rewrite lookup_empty..|].
    rewrite Hcd, Hcn. cbn [Nat.add].
    pose proof (countRefs_le true ty lines). pose proof (countRefs_le false ty lines).
    rewrite !int64_wrap_small by lia. auto.
Qed.

(** X11.  The outcome of [logStats] does not depend on the order in which
    the iteration over its map of directories delivers them, as long as at
    least one of the two measurements succeeds: the same error, or the same
    entry written to the log.  When both measurements fail, the error
    returned is that of the directory that came first. *)
Theorem logStats_iteration_order when log :
  let objects := (sizeDir run (Join FullPath "objects") []).1 in
  let refs := (sizeDir run (Join FullPath "refs") []).1 in
  let run1 := logStats run Exec FullPath Join true when log in
  let run2 := logStats run Exec FullPath Join false when log in
  ((exists size, objects = Ok size) \/ (exists size, refs = Ok size) ->
   run1.1 = run2.1 /\
   forall msg fields, In (EvInfo msg fields) run1.2 <-> In (EvInfo msg fields) run2.2) /\
  (forall e1 e2, objects = Err e1 -> refs = Err e2 -> run1.1 = Err e1 /\ run2.1 = Err e2).
Proof.
  intros objects refs run1 run2.
  pose proof (logStats_cases run Exec FullPath Join true when log) as H1.
  pose proof (logStats_cases run Exec FullPath Join false when log) as H2.
  cbv zeta beta iota in H1, H2. fold objects refs run1 in H1. fold objects refs run2 in H2.
  assert (Hev : forall (l1 l2 : list Event) msg fields,
            (forall ev, In ev l1 -> exists argv, ev = EvRun argv) ->
            (forall ev, In ev l2 -> exists argv, ev = EvRun argv) ->
            In (EvInfo msg fields) (log ++ l1) <-> In (EvInfo msg fields) (log ++ l2)).
  { intros l1 l2 msg fields Hl1 Hl2. rewrite !in_app_iff. split.
    - intros [Hin|Hin]; [now left|]. apply Hl1 in Hin as [argv Heq]. discriminate.
    - intros [Hin|Hin]; [now left|]. apply Hl2 in Hin as [argv Heq]. discriminate. }
  assert (Hruns : forall (l : list Event) ev,
            Forall (fun ev => exists argv, ev = EvRun argv) l -> In ev l -> exists argv, ev = EvRun argv).
  { intros l ev Hall Hin. now apply (proj1 (List.Forall_forall _ _) Hall). }
  split.
  - intros Hone.
    destruct objects as [so|eo], refs as [sr|er].
    + (* both measured *)
      destruct (command.startErr _) as [e|]; [|destruct (bufio.Err _) as [e|];
        [|destruct (command.waitErr _) as [e|]]];
        cbv beta iota in H1, H2;
        rewrite H1, H2; cbn [fst snd]; (split; [reflexivity|]); intros msg fields.
      1-3: rewrite !in_app_iff; cbn [In]; split;
           (intros [Hin|Hin]; [now left|]);
           repeat destruct Hin as [Hin|Hin]; try discriminate; contradiction.
      rewrite !in_app_iff. cbn [In].
      rewrite (insert_insert_ne (M:=gmap string) {[ "when" := VString when ]}
                 "poolRefsSize" "poolObjectsSize" (VInt sr) (VInt so)) by discriminate.
      tauto.
    + rewrite H1, H2. cbn [fst snd]. split; [reflexivity|]. intros msg fields.
      apply Hev; intros ev Hin; cbn [In] in Hin;
        repeat destruct Hin as [<-|Hin]; try contradiction; now eexists.
    + rewrite H1, H2. cbn [fst snd]. split; [reflexivity|]. intros msg fields.
      apply Hev; intros ev Hin; cbn [In] in Hin;
        repeat destruct Hin as [<-|Hin]; try contradiction; now eexists.
    + destruct Hone as [[s Hs]|[s Hs]]; discriminate.
  - intros e1 e2 -> ->. rewrite H1, H2. split; reflexivity.
Qed.

(** X12.  [logStats] succeeds exactly when both measurements succeed, the
    listing of the references starts, is read to its end and exits without
    error; lines of the listing that do not parse never make it fail.  When a
    measurement fails no Git command is started, and a run that fails writes
    no entry to the log. *)
Theorem logStats_succeeds_iff objectsFirst when log :
  let cmd := Exec forEachRefCmd in
  let rw := logStats run Exec FullPath Join objectsFirst when log in
  let events := drop (length log) rw.2 in
  let measured dir := exists size, (sizeDir run (Join FullPath dir) []).1 = Ok size in
  (rw.1 = Ok tt <->
     measured "objects" /\ measured "refs" /\ command.startErr cmd = None /\
     bufio.Err (command.scanner cmd) = None /\ command.waitErr cmd = None) /\
  (~ (measured "objects" /\ measured "refs") ->
     forall ev, In ev events -> exists argv, ev = EvRun argv) /\
  (rw.1 <> Ok tt -> forall msg fields, ~ In (EvInfo msg fields) events).
Proof.
  intros cmd rw events measured.
  pose proof (logStats_cases run Exec FullPath Join objectsFirst when log) as Hc.
  cbv zeta in Hc. fold rw cmd in Hc. subst events.
  assert (Hm : measured "objects" /\ measured "refs" <->
               (exists s1, (sizeDir run (Join FullPath (if objectsFirst then "objects" else "refs")) []).1 = Ok s1) /\
               (exists s2, (sizeDir run (Join FullPath (if objectsFirst then "refs" else "objects")) []).1 = Ok s2)).
  { subst measured. destruct objectsFirst; tauto. }
  destruct (sizeDir run (Join FullPath (if objectsFirst then "objects" else "refs")) []).1
    as [s1|e1].
  2: { rewrite Hc. cbn [fst snd]. rewrite drop_app_length.
       assert (Hno : ~ (measured "objects" /\ measured "refs")).
       { rewrite Hm. intros [[s Hs] _]. discriminate. }
       split; [split; [discriminate | intros (? & ? & _); tauto]|]. split.
       - intros _ ev [<-|[]]. now eexists.
       - intros _ msg fields [Heq|[]]. discriminate. }
  destruct (sizeDir run (Join FullPath (if objectsFirst then "refs" else "objects")) []).1
    as [s2|e2].
  2: { rewrite Hc. cbn [fst snd]. rewrite drop_app_length.
       assert (Hno : ~ (measured "objects" /\ measured "refs")).
       { rewrite Hm. intros [_ [s Hs]]. discriminate. }
       split; [split; [discriminate | intros (? & ? & _); tauto]|]. split.
       - intros _ ev [<-|[<-|[]]]; now eexists.
       - intros _ msg fields [Heq|[Heq|[]]]; discriminate. }
  assert (Hyes : measured "objects" /\ measured "refs") by (rewrite Hm; split; now eexists).
  destruct (command.startErr cmd) as [e|]; [|destruct (bufio.Err (command.scanner cmd)) as [e|];
    [|destruct (command.waitErr cmd) as [e|]]];
    cbv beta iota in Hc;
    rewrite Hc; cbn [fst snd]; rewrite ?drop_app_length.
  1-3: split; [split; [discriminate | intros (_ & _ & ? & ? & ?); discriminate]|];
       (split; [intros Hno; contradiction|]);
       intros _ msg fields Hin; cbn [In] in Hin;
       repeat destruct Hin as [Hin|Hin]; try discriminate; contradiction.
  split; [split; [intros _; tauto | reflexivity]|].
  split; [intros Hno; contradiction | intros Hne; now contradiction Hne].
Qed.

End LogStatsClaims.

(** ** Examples of the further properties *)

Lemma buildLookupTable_lists_witness :
  exampleTable !! shaA = Some ["refs/keep-around/a"; "refs/merge-requests/1/head"] /\
  exampleTable !! shaB = None.
Proof.
  assert (Hrun : cleaner.buildLookupTable exampleExec examplePrefixes = Ok exampleTable)
    by (vm_compute; reflexivity).
  destruct (buildLookupTable_lists exampleExec examplePrefixes exampleTable Hrun) as (Ht & _).
  split; [rewrite (Ht shaA) | rewrite (Ht shaB)]; reflexivity.
Defined.

(** A listing with a line that has no reference name fails to parse, whether
    or not the command failed as well. *)
Example buildLookupTable_errors_example :
  cleaner.buildLookupTable
    (fun _ => {| command.startErr := None;
                 command.scanner := bufio.mkScanner [shaA +:+ " " +:+ "refs/keep-around/a"; shaB] None;
                 command.waitErr := Some "exit status 1" |})
    examplePrefixes
  = Err cleaner.ErrParseRefs.
Proof. reflexivity. Qed.

Lemma cleaner_deletes_rewritten_witness :
  let w' := (internalrefs.ApplyObjectMap (H:=gitBackend) notingCleaner
               (bufio.mkScanner [shaA +:+ " " +:+ shaB] None) exampleWorld).2 in
  internalrefs.refs w' !! "refs/keep-around/a" = None /\
  internalrefs.refs w' !! "refs/heads/main" = Some shaB.
Proof.
  intros w'.
  assert (Hnew : cleaner.NewCleaner exampleExec examplePrefixes None (Some noteCalls)
                 = Ok (notingCleaner, updateref.New false)) by (vm_compute; reflexivity).
  assert (Hrun : internalrefs.ApplyObjectMap (H:=gitBackend) notingCleaner
                   (bufio.mkScanner [shaA +:+ " " +:+ shaB] None) exampleWorld = (Ok tt, w'))
    by (vm_compute; reflexivity).
  destruct (cleaner_deletes_rewritten (H:=gitBackend) exampleExec examplePrefixes
              (Some noteCalls) notingCleaner (updateref.New false)
              (bufio.mkScanner [shaA +:+ " " +:+ shaB] None) exampleWorld w'
              Hnew eq_refl Hrun) as [Hgone Hkept].
  split.
  - apply (Hgone "refs/keep-around/a" shaA shaB).
    + left. reflexivity.
    + reflexivity.
    + discriminate.
    + left. reflexivity.
  - rewrite (Hkept "refs/heads/main"); [reflexivity|].
    intros oldOID newOID _ Hso _ Hin. cbn [exampleExec command.scanner bufio.Text exampleListing In] in Hin.
    destruct Hin as [Heq|[Heq|[]]];
      apply record_inj in Heq as [_ Heq]; try discriminate Heq; try exact Hso; reflexivity.
Defined.

(** Two records of unchanged objects around a rewritten one. *)
Example unchanged_records_inert_example :
  noUnchanged [shaC +:+ " " +:+ shaC; shaA +:+ " " +:+ shaB; shaD +:+ " " +:+ shaD]
  = [shaA +:+ " " +:+ shaB].
Proof. reflexivity. Qed.

Lemma sizeDir_kilobytes_witness :
  (poolstats.sizeDir exampleDu "/pool/objects" []).1 = Ok 12288.
Proof.
  apply (sizeDir_kilobytes exampleDu "/pool/objects" 12 "/pool/dir" []);
    try reflexivity; lia.
Defined.

Lemma sizeDir_malformed_witness :
  (poolstats.sizeDir exampleDu ("bad" +:+ String poolstats.tab "dir") []).1
  = Err (poolstats.ErrMalformedDu
           ("4" +:+ String poolstats.tab ("bad" +:+ String poolstats.tab "dir"))).
Proof.
  apply (sizeDir_malformed exampleDu ("bad" +:+ String poolstats.tab "dir") []);
    try reflexivity.
  vm_compute. discriminate.
Defined.

Lemma logStats_fields_witness :
  exists fields,
    last (poolstats.logStats exampleDu exampleRefTypes "/pool" exampleJoin true "after fetch" []).2
      = Some (poolstats.EvInfo "pool dangling ref stats" fields) /\
    fields !! "poolObjectsSize" = Some (poolstats.VInt 12288) /\
    fields !! "dangling.commit.ref" = Some (poolstats.VInt 1) /\
    fields !! "normal.commit.ref" = Some (poolstats.VInt 1) /\
    fields !! "dangling.tree.ref" = Some (poolstats.VInt 0).
Proof.
  destruct (logStats_fields exampleDu exampleRefTypes "/pool" exampleJoin true "after fetch" []
              (poolstats.logStats exampleDu exampleRefTypes "/pool" exampleJoin true
                 "after fetch" []).2)
    as (fields & so & sr & Hlast & Hso & _ & _ & Hobj & _ & Hcounts).
  - vm_compute. reflexivity.
  - vm_compute. reflexivity.
  - exists fields. split; [exact Hlast|].
    assert (so = 12288) as -> by (vm_compute in Hso; now inversion Hso).
    split; [exact Hobj|].
    destruct (Hcounts "commit") as [Hd Hn]; [cbn; tauto|].
    destruct (Hcounts "tree") as [Hdt _]; [cbn; tauto|].
    split; [exact Hd|]. split; [exact Hn | exact Hdt].
Defined.

Lemma FetchFromOrigin_success_is_clean_witness :
  exists path, (Ok "/origin.git" : result string string) = Ok path.
Proof.
  pose (w' := (objectpool.FetchFromOrigin (H0:=toyCollaborators "") (H:=gitBackend)
                 (Ok "/origin.git") toyPool).2).
  assert (Hrun : objectpool.FetchFromOrigin (H0:=toyCollaborators "") (H:=gitBackend)
                   (Ok "/origin.git") toyPool = (Ok tt, w')) by (vm_compute; reflexivity).
  exact (proj1 (FetchFromOrigin_success_is_clean (H0:=toyCollaborators "") (H:=gitBackend)
                  (Ok "/origin.git") toyPool w' Hrun)).
Defined.

(** A fetch that fails stops the run after four steps. *)
Example FetchFromOrigin_step_order_example :
  map stepOf
    (poolEventsSince toyPool
       (objectpool.FetchFromOrigin (H0:=toyCollaborators "fetch") (H:=gitBackend)
          (Ok "/origin.git") toyPool).2)
  = [SInit; SCleanStaleData; SLogStats "before fetch"; SGit "fetch"].
Proof. vm_compute. reflexivity. Qed.

(** When [updateref.New] fails, the rescue returns its error right after the
    scan: nothing is staged, nothing is committed. *)
Example rescue_without_updater_example :
  let rw := objectpool.rescueDanglingObjects (H0:=noUpdaterCollaborators) (H:=gitBackend)
              toyPool in
  rw.1 = Err (objectpool.ErrCollab "update-ref: cannot start") /\
  map stepOf (poolEventsSince toyPool rw.2) = [SGit "fsck"] /\
  objectpool.refs rw.2 = objectpool.refs toyPool.
Proof. vm_compute. repeat split. Qed.

(** The statements of a fetch whose [git fsck] fails: the error of the
    rescue is the error of [FetchFromOrigin], and no statement after it
    has run. *)
Example FetchFromOrigin_stops_example :
  let run := objectpool.FetchFromOrigin (H0:=toyCollaborators "fsck") (H:=gitBackend)
               (Ok "/origin.git") toyPool in
  run.1 = Err (objectpool.ErrFsck "exit status 128") /\
  map stepOf (poolEventsSince toyPool run.2)
    = [SInit; SCleanStaleData; SLogStats "before fetch"; SGit "fetch"; SGit "fsck"].
Proof. vm_compute. repeat split. Qed.

(** When both measurements fail, the error is that of the directory that
    the iteration delivered first. *)
Example logStats_iteration_order_example :
  let du (argv : list string) :=
    {| command.procStartErr := None;
       command.procOutput := default "" (last argv);
       command.procReadErr := None;
       command.procWaitErr := None |} in
  (poolstats.logStats du exampleRefTypes "/pool" exampleJoin true "before fetch" []).1
    = Err (poolstats.ErrMalformedDu "/pool/objects") /\
  (poolstats.logStats du exampleRefTypes "/pool" exampleJoin false "before fetch" []).1
    = Err (poolstats.ErrMalformedDu "/pool/refs").
Proof. split; vm_compute; reflexivity. Qed.
